(** * useObservables: the subscription / combination engine

    A shallow embedding of [src/react/useObservables.js]: the source adapter
    [subscribe], [hasOwn], [getTriggeringProps] and the hook
    [useObservables], together with the part of the host runtime the hook
    relies on ([useState], [useRef], [useMemo] and [useEffect], whose
    dependencies are compared by identity).  The render-prop component of
    [src/react/WithObservablesComponent.js] runs the same effect.

    What the hook allocates and mutates lives in an explicit store, so
    that identity and aliasing are visible: the [values] accumulator and
    the published snapshots in [heap], the arrays of unsubscribe handles in
    [arrays], both over one address space.  What is only passed in
    (sources, source maps) is an immutable description that carries its own
    identity.

    Conventions of the model:
    - an object the hook allocates is the finite map of its own
      properties, and is created inheriting from [Object.prototype], which
      the program leaves as it is: an assignment under the name [__proto__]
      reaches the accessor found there and creates no own property.  That
      accessor replaces the prototype of the object when the value assigned
      is an object or [null]; prototypes are not part of the model, which
      for a key of that name is exact as long as the values emitted under it
      are other primitives.  What is proved about the contents of [values]
      is proved for source maps without a key of that name;
    - a value of type [Error] is never [null] or [undefined];
    - the methods of a source do what their types say: [observe()] returns
      an observable, [subscribe(...)] of an observable a subscription,
      [experimentalSubscribe(...)] an unsubscribe function, and none of them
      throws; nor does the factory [getObservables];
    - the host commits the effect of an evaluation right after the
      evaluation, before any other event;
    - an exception that escapes the effect ends the run of the hook. *)

From stdpp Require Import base option list strings gmap fin_maps fin_sets.
From Stdlib Require Import ZArith Lia.

Local Open Scope nat_scope.

(** ** JavaScript values *)

Definition loc := nat.

(** The value carried by a JavaScript [Error]. *)
Definition Err := string.

(** Values of type [any].  An object is described by its identity [oid],
    the tag found at [value.constructor._wmelonTag] (if it is a string) and
    the methods the adapter looks at.  For each method the description says
    what the external producer does *synchronously* while it is being
    attached; whatever it does later reaches the engine as a separate
    signal. *)
Inductive Value : Type :=
  | VUndefined
  | VNull
  | VBool (b : bool)
  | VNum (n : Z)
  | VStr (s : string)
  | VObj (o : Obj)
with Obj : Type :=
  | MkObj (oid : loc)
          (ctorTag : option string)
          (* arguments with which [experimentalSubscribe(subscriber)] calls
             [subscriber] before it returns *)
          (experimentalSubscribe : list Value)
          (* [Some p] iff [typeof value.observe === 'function'];
             [p] is the producer returned by [value.observe()] *)
          (observe : option Producer)
          (* [Some p] iff [typeof value.subscribe === 'function'] *)
          (subscribe_method : option Producer)
with Producer : Type :=
  (* observer calls made by [producer.subscribe(onNext, onError, onComplete)]
     before it returns *)
  | MkProducer (sync : list Call)
with Call : Type :=
  | CNext (v : Value)
  | CError (e : Err)
  | CComplete.

Definition oid (o : Obj) : loc := let 'MkObj i _ _ _ _ := o in i.
Definition ctorTag (o : Obj) : option string := let 'MkObj _ t _ _ _ := o in t.
Definition experimentalSubscribe (o : Obj) : list Value :=
  let 'MkObj _ _ n _ _ := o in n.
Definition observe (o : Obj) : option Producer := let 'MkObj _ _ _ f _ := o in f.
Definition subscribe_method (o : Obj) : option Producer :=
  let 'MkObj _ _ _ _ f := o in f.
Definition sync (p : Producer) : list Call := let 'MkProducer l := p in l.

(** JavaScript truthiness, as used by [value && ...] and [if (isDeleted)]. *)
Definition truthy (v : Value) : bool :=
  match v with
  | VUndefined | VNull => false
  | VBool b => b
  | VNum n => negb (n =? 0)%Z
  | VStr s => negb (String.eqb s "")
  | VObj _ => true
  end.

(** [a === b]: primitives by value, objects by reference. *)
Definition strict_eq (a b : Value) : bool :=
  match a, b with
  | VUndefined, VUndefined => true
  | VNull, VNull => true
  | VBool x, VBool y => Bool.eqb x y
  | VNum x, VNum y => (x =? y)%Z
  | VStr x, VStr y => String.eqb x y
  | VObj x, VObj y => Nat.eqb (oid x) (oid y)
  | _, _ => false
  end.

(** ** The source adapter: [subscribe] *)

Module Adapter.

Inductive Exn : Type :=
  | TypeError            (* property access on null / undefined *)
  | NotObservableError.  (* [new Error("[useObservables] Value passed
                            doesn't appear to be observable...")] *)

(** Which native mechanism the adapter attached to. *)
Inductive Mechanism : Type :=
  | ViaRecord      (* [wmelonTag === 'model'] *)
  | ViaQuery       (* [wmelonTag === 'query'] *)
  | ViaObserve     (* [value.observe().subscribe(...)] *)
  | ViaSubscribe.  (* [value.subscribe(...)] *)

(** What a producer sends once attached: a native notification
    [subscriber(arg)] or a call on one of the three observer channels. *)
Inductive Signal : Type :=
  | Notify (arg : Value)
  | Push (c : Call).

(** The outcome of one call of [subscribe]: the callback invocations made
    before it returned (or threw), in order, and how it ended. *)
Record Outcome : Type := mkOutcome {
  calls : list Call;
  result : Exn + Mechanism
}.

(** [const wmelonTag = value && value.constructor && value.constructor._wmelonTag]
    compared against a string: only a string tag of an object can match. *)
Definition wmelonTag (value : Value) : option string :=
  if truthy value then
    match value with
    | VObj o => ctorTag o
    | _ => None
    end
  else None.

Definition tag_is (t : option string) (s : string) : bool :=
  match t with
  | Some t' => String.eqb t' s
  | None => false
  end.

(** The subscriber the record branch hands to [experimentalSubscribe]:
    [(isDeleted) => { if (isDeleted) onComplete() else onNext(value) }]. *)
Definition recordSubscriber (value : Value) (isDeleted : Value) : Call :=
  if truthy isDeleted then CComplete else CNext value.

(** [typeof value.observe] / [typeof value.subscribe]: reading a property
    of [null] or [undefined] throws; other primitives have no such
    method. *)
Definition method (f : Obj -> option Producer) (value : Value)
  : Exn + option Producer :=
  match value with
  | VUndefined | VNull => inl TypeError
  | VObj o => inr (f o)
  | _ => inr None
  end.

Definition native (value : Value) : list Value :=
  match value with
  | VObj o => experimentalSubscribe o
  | _ => []
  end.

Definition subscribe (value : Value) : Outcome :=
  let wmelonTag := wmelonTag value in
  if tag_is wmelonTag "model" then
    mkOutcome (CNext value :: map (recordSubscriber value) (native value))
              (inr ViaRecord)
  else if tag_is wmelonTag "query" then
    mkOutcome (map CNext (native value)) (inr ViaQuery)
  else
    match method observe value with
    | inl e => mkOutcome [] (inl e)
    | inr (Some p) => mkOutcome (sync p) (inr ViaObserve)
    | inr None =>
        match method subscribe_method value with
        | inl e => mkOutcome [] (inl e)
        | inr (Some p) => mkOutcome (sync p) (inr ViaSubscribe)
        | inr None => mkOutcome [] (inl NotObservableError)
        end
    end.

(** How a signal arriving after [subscribe] returned is turned into
    callback invocations: the record branch installed [recordSubscriber],
    the query branch installed [onNext] itself, and the two push branches
    handed the three callbacks to the producer. *)
Definition listener (via : Mechanism) (value : Value) (s : Signal)
  : list Call :=
  match via, s with
  | ViaRecord, Notify arg => [recordSubscriber value arg]
  | ViaQuery, Notify arg => [CNext arg]
  | (ViaObserve | ViaSubscribe), Push c => [c]
  | _, _ => []
  end.

End Adapter.

(** ** Objects and arrays handled by the hook *)

(** Sources may share state: subscribing to one can make a producer that
    is attached already send a signal (a subject that the new subscription
    completes or fails, say).  [Elsewhere] is such a signal, sent to the
    callbacks handed out under another handle; [Own] is the next call the
    producer being attached makes on the callbacks it is given. *)
Inductive During : Type :=
  | Own
  | Elsewhere (generation : nat) (key : string) (s : Adapter.Signal).

(** An object passed in as a source map ([observablesObject]): its identity
    and its entries as written, in order.  A key written twice keeps its
    first position and its last value, as in an object literal.
    [sm_during key] says in which order things happen while the source
    under [key] is being subscribed to; the calls of the producer itself
    that it does not place come last. *)
Record SourceMap : Type := mkSourceMap {
  sm_id : loc;
  sm_entries : list (string * Value);
  sm_during : string → list During
}.

(** A map of sources that do not act on one another. *)
Definition sources (id : loc) (entries : list (string * Value)) : SourceMap :=
  mkSourceMap id entries (λ _, []).

Fixpoint first_occurrences (l : list string) : list string :=
  match l with
  | [] => []
  | x :: l' => x :: filter (λ y, y ≠ x) (first_occurrences l')
  end.

(** The value of a decimal digit. *)
Definition digit (a : Ascii.ascii) : option N :=
  let n := Ascii.N_of_ascii a in
  if (48 <=? n)%N && (n <=? 57)%N then Some (n - 48)%N else None.

Fixpoint decimal (s : string) (acc : N) : option N :=
  match s with
  | EmptyString => Some acc
  | String a s' =>
      match digit a with
      | Some d => decimal s' (10 * acc + d)%N
      | None => None
      end
  end.

(** Whether a property name is an array index: the canonical decimal form
    of an integer from 0 to 2^32 - 2. *)
Definition array_index (s : string) : option N :=
  match s with
  | EmptyString => None
  | String a s' =>
      if (Ascii.N_of_ascii a =? 48)%N && negb (String.eqb s' "") then None
      else match decimal s 0 with
           | Some n => if (n <? 4294967295)%N then Some n else None
           | None => None
           end
  end.

Fixpoint insert_index (x : N * string) (l : list (N * string))
  : list (N * string) :=
  match l with
  | [] => [x]
  | y :: l' => if (x.1 <=? y.1)%N then x :: l else y :: insert_index x l'
  end.

Definition sort_indices (l : list (N * string)) : list (N * string) :=
  foldr insert_index [] l.

(** [Object.keys(o)]: the array indices in ascending order, then the other
    names in the order they were first written. *)
Definition Object_keys (o : SourceMap) : list string :=
  let names := first_occurrences (map fst (sm_entries o)) in
  map snd (sort_indices (omap (λ k, (λ n, (n, k)) <$> array_index k) names))
  ++ filter (λ k, array_index k = None) names.

(** [o[key]] *)
Definition prop (o : SourceMap) (key : string) : Value :=
  match list_find (λ kv, kv.1 = key) (reverse (sm_entries o)) with
  | Some (_, (_, v)) => v
  | None => VUndefined
  end.

(** An array allocated by [getTriggeringProps]: its address and elements. *)
Record TriggerArray : Type := mkArray {
  aid : loc;
  elems : list Value
}.

(** [hasOwn(obj, key)] *)
Definition hasOwn (obj : gmap string Value) (key : string) : bool :=
  bool_decide (is_Some (obj !! key)).

(** [getTriggeringProps(props, propNames)]: the elements of the array it
    returns ([props[name]] is [undefined] for a missing name). *)
Definition getTriggeringProps (props : gmap string Value)
    (propNames : option (list string)) : list Value :=
  match propNames with
  | None => []
  | Some names => map (λ name, default VUndefined (props !! name)) names
  end.

(** Modelled from the spec: [identicalArrays] of [utils/fp/identicalArrays]
    is imported by the hook but its file is not part of the sources at hand.
    Section 4.2: two lists are the same iff they have equal length and every
    positional element is identical by value (primitives) or by reference
    (objects). *)
Definition identicalArrays (left right : list Value) : bool :=
  (length left =? length right)
  && forallb (λ p, strict_eq p.1 p.2) (zip left right).

(** ** The combination engine: what one run of the effect closes over *)

(** A subscription handle is identified by the generation (the effect run)
    that opened it and the key it was opened under. *)
Definition Handle : Type := nat * string.

(** The variables of one effect run.  [subscriptions] and [values] hold
    references: the address of an array of handles and of an object. *)
Record Closure : Type := mkClosure {
  isSubscribed : bool;
  subscriptions : loc;
  values : loc;
  valueCount : nat;
  observablesObject : SourceMap;
  keys : list string;
  keyCount : nat
}.

Record CombinedState : Type := mkState {
  isLoading : bool;
  data : option loc;
  error : option Err
}.

Record Engine : Type := mkEngine {
  state : CombinedState;                 (* the [useState] cell *)
  heap : gmap loc (gmap string Value);   (* objects allocated by the hook *)
  arrays : gmap loc (list Handle);       (* arrays of unsubscribe handles *)
  nextLoc : loc;                         (* next free address, of either *)
  closures : list Closure;               (* one per effect run, by generation *)
  (* observation logs, never read by the engine *)
  subscribeCalls : list Handle;          (* calls of the adapter's subscribe *)
  unsubscribed : list Handle;            (* invocations of unsubscribe handles *)
  delivered : list (Handle * Call)       (* invocations of the callbacks *)
}.

Definition setState (s : CombinedState) (w : Engine) : Engine :=
  mkEngine s (heap w) (arrays w) (nextLoc w) (closures w)
           (subscribeCalls w) (unsubscribed w) (delivered w).

Definition set_heap (h : gmap loc (gmap string Value)) (w : Engine) : Engine :=
  mkEngine (state w) h (arrays w) (nextLoc w) (closures w)
           (subscribeCalls w) (unsubscribed w) (delivered w).

Definition set_arrays (a : gmap loc (list Handle)) (w : Engine) : Engine :=
  mkEngine (state w) (heap w) a (nextLoc w) (closures w)
           (subscribeCalls w) (unsubscribed w) (delivered w).

Definition set_closures (cs : list Closure) (w : Engine) : Engine :=
  mkEngine (state w) (heap w) (arrays w) (nextLoc w) cs
           (subscribeCalls w) (unsubscribed w) (delivered w).

Definition log_subscribe (h : Handle) (w : Engine) : Engine :=
  mkEngine (state w) (heap w) (arrays w) (nextLoc w) (closures w)
           (subscribeCalls w ++ [h]) (unsubscribed w) (delivered w).

Definition log_unsubscribed (hs : list Handle) (w : Engine) : Engine :=
  mkEngine (state w) (heap w) (arrays w) (nextLoc w) (closures w)
           (subscribeCalls w) (unsubscribed w ++ hs) (delivered w).

Definition log_delivered (h : Handle) (c : Call) (w : Engine) : Engine :=
  mkEngine (state w) (heap w) (arrays w) (nextLoc w) (closures w)
           (subscribeCalls w) (unsubscribed w) (delivered w ++ [(h, c)]).

(** Take the next free address without storing anything there (the trigger
    arrays are never mutated, so only their address matters). *)
Definition reserve (w : Engine) : loc * Engine :=
  (nextLoc w,
   mkEngine (state w) (heap w) (arrays w) (S (nextLoc w)) (closures w)
            (subscribeCalls w) (unsubscribed w) (delivered w)).

(** Allocate a new object: [{}] or [{ ...obj }]. *)
Definition alloc (obj : gmap string Value) (w : Engine) : loc * Engine :=
  (nextLoc w,
   mkEngine (state w) (<[nextLoc w := obj]> (heap w)) (arrays w)
            (S (nextLoc w)) (closures w) (subscribeCalls w) (unsubscribed w)
            (delivered w)).

(** Allocate a new, empty array of handles: [[]]. *)
Definition alloc_array (w : Engine) : loc * Engine :=
  (nextLoc w,
   mkEngine (state w) (heap w) (<[nextLoc w := []]> (arrays w))
            (S (nextLoc w)) (closures w) (subscribeCalls w) (unsubscribed w)
            (delivered w)).

Definition deref (w : Engine) (l : loc) : gmap string Value :=
  default ∅ (heap w !! l).

(** The elements of the array at address [l]. *)
Definition array (w : Engine) (l : loc) : list Handle :=
  default [] (arrays w !! l).

(** The own properties of an object after [obj[key] = value], the object
    inheriting the accessor [__proto__] of [Object.prototype]: under that
    name the assignment goes to the accessor and no own property is
    created. *)
Definition assign (key : string) (value : Value) (obj : gmap string Value)
  : gmap string Value :=
  if String.eqb key "__proto__" then obj else <[key := value]> obj.

(** [obj[key] = value] on the object at address [l] *)
Definition store (l : loc) (key : string) (value : Value) (w : Engine)
  : Engine :=
  set_heap (<[l := assign key value (deref w l)]> (heap w)) w.

(** [array.push(h)] on the array at address [l] *)
Definition array_push (l : loc) (h : Handle) (w : Engine) : Engine :=
  set_arrays (<[l := array w l ++ [h]]> (arrays w)) w.

Definition upd_closure (g : nat) (f : Closure → Closure) (w : Engine)
  : Engine :=
  set_closures (alter f g (closures w)) w.

Definition set_isSubscribed (b : bool) (c : Closure) : Closure :=
  mkClosure b (subscriptions c) (values c) (valueCount c)
            (observablesObject c) (keys c) (keyCount c).

Definition set_subscriptions (l : loc) (c : Closure) : Closure :=
  mkClosure (isSubscribed c) l (values c) (valueCount c)
            (observablesObject c) (keys c) (keyCount c).

Definition set_valueCount (n : nat) (c : Closure) : Closure :=
  mkClosure (isSubscribed c) (subscriptions c) (values c) n
            (observablesObject c) (keys c) (keyCount c).

(** [unsubscribeAll] of generation [g]:
    [isSubscribed = false; subscriptions.forEach(unsub => unsub());
     subscriptions = []].  The last statement binds the variable to a new
    array; the old one keeps its elements. *)
Definition unsubscribeAll (g : nat) (w : Engine) : Engine :=
  match closures w !! g with
  | None => w
  | Some c =>
      let w := upd_closure g (set_isSubscribed false) w in
      let w := log_unsubscribed (array w (subscriptions c)) w in
      let '(empty, w) := alloc_array w in
      upd_closure g (set_subscriptions empty) w
  end.

(** The [onNext] callback created by generation [g] for [key]. *)
Definition onNext (g : nat) (key : string) (value : Value) (w : Engine)
  : Engine :=
  match closures w !! g with
  | None => w
  | Some c =>
      if negb (isSubscribed c) then w
      else
        let isFirstEmission := negb (hasOwn (deref w (values c)) key) in
        let valueCount' :=
          if isFirstEmission then valueCount c + 1 else valueCount c in
        let w := upd_closure g (set_valueCount valueCount') w in
        let w := store (values c) key value w in
        if valueCount' =? keyCount c then
          let '(snapshot, w) := alloc (deref w (values c)) w in
          setState (mkState false (Some snapshot) None) w
        else w
  end.

(** The [onError] callback created by generation [g] (the same for every
    key). *)
Definition onError (g : nat) (error : Err) (w : Engine) : Engine :=
  match closures w !! g with
  | None => w
  | Some c =>
      if negb (isSubscribed c) then w
      else
        let w := unsubscribeAll g w in
        setState (mkState false None (Some error)) w
  end.

(** The [onComplete] callback: no action. *)
Definition onComplete (g : nat) (w : Engine) : Engine := w.

(** One invocation of a callback that generation [g] handed out for
    [key]. *)
Definition invoke (g : nat) (key : string) (c : Call) (w : Engine)
  : Engine :=
  let w := log_delivered (g, key) c w in
  match c with
  | CNext v => onNext g key v w
  | CError e => onError g e w
  | CComplete => onComplete g w
  end.

Definition invoke_all (g : nat) (key : string) (cs : list Call) (w : Engine)
  : Engine :=
  foldl (λ w c, invoke g key c w) w cs.

(** A producer attached by generation [g] under [key] sends a signal.  Only
    producers the adapter was called on hold callbacks. *)
Definition signal (g : nat) (key : string) (s : Adapter.Signal) (w : Engine)
  : Engine :=
  if bool_decide ((g, key) ∈ subscribeCalls w) then
    match closures w !! g with
    | Some c =>
        let source := prop (observablesObject c) key in
        match Adapter.result (Adapter.subscribe source) with
        | inr via => invoke_all g key (Adapter.listener via source s) w
        | inl _ => w
        end
    | None => w
    end
  else w.

(** What happens while the adapter is subscribing generation [g] to the
    source under [key]: the producer's own [calls] on the callbacks handed
    in, and the signals other producers send meanwhile, in the order
    [schedule] gives. *)
Fixpoint during (g : nat) (key : string) (schedule : list During)
    (calls : list Call) (w : Engine) : Engine :=
  match schedule with
  | [] => invoke_all g key calls w
  | Own :: schedule' =>
      match calls with
      | [] => during g key schedule' [] w
      | c :: calls' => during g key schedule' calls' (invoke g key c w)
      end
  | Elsewhere g' key' s :: schedule' =>
      during g key schedule' calls (signal g' key' s w)
  end.

(** The body of [keys.forEach((key) => { ... })] for one key.  In
    [subscriptions.push(subscribe(...))] the array is looked up before
    [subscribe] is called: when a callback invoked during the call runs
    [unsubscribeAll], the handle is pushed onto the array the variable
    referred to before, not onto the new one. *)
Definition subscribeKey (g : nat) (key : string) (w : Engine)
  : Adapter.Exn + Engine :=
  match closures w !! g with
  | None => inr w
  | Some c =>
      if negb (isSubscribed c) then inr w
      else
        let subscribable := prop (observablesObject c) key in
        let target := subscriptions c in
        let out := Adapter.subscribe subscribable in
        let w := log_subscribe (g, key) w in
        let w :=
          during g key (sm_during (observablesObject c) key)
                 (Adapter.calls out) w in
        match Adapter.result out with
        | inl e => inl e
        | inr _ => inr (array_push target (g, key) w)
        end
  end.

Fixpoint forEach (ks : list string)
    (f : string → Engine → Adapter.Exn + Engine) (w : Engine)
  : Adapter.Exn + Engine :=
  match ks with
  | [] => inr w
  | k :: ks' =>
      match f k w with
      | inl e => inl e
      | inr w' => forEach ks' f w'
      end
  end.

(** One run of the effect, for the memoized [observablesObject].  Returns
    the cleanup function it hands back to the host: [unsubscribeAll] of the
    generation, or nothing for an empty map. *)
Definition effect (observablesObject : SourceMap) (w : Engine)
  : Adapter.Exn + (option nat * Engine) :=
  let g := length (closures w) in
  let '(subscriptions, w) := alloc_array w in
  let '(values, w) := alloc ∅ w in
  let keys := Object_keys observablesObject in
  let keyCount := length keys in
  let w :=
    set_closures
      (closures w
         ++ [mkClosure true subscriptions values 0 observablesObject keys
                       keyCount]) w in
  let w := setState (mkState true None None) w in
  if keyCount =? 0 then
    let '(empty, w) := alloc ∅ w in
    inr (None, setState (mkState false (Some empty) None) w)
  else
    match forEach keys (subscribeKey g) w with
    | inl e => inl e
    | inr w => inr (Some g, w)
    end.

(** ** The hook and the host runtime *)

(** The cells the host keeps for one mounted instance of the hook.
    [useMemo] and [useEffect] compare their single dependency with the one
    of the previous evaluation by identity. *)
Record Host : Type := mkHost {
  engine : Engine;
  prevTriggerPropsRef : option TriggerArray;  (* [None] before the first
                                                 evaluation *)
  memo : option (loc * SourceMap);  (* [useMemo]: last [triggerPropsKey]
                                       and the cached [observablesObject] *)
  effectDeps : option loc;          (* [useEffect]: identity of the last
                                       [observablesObject] *)
  cleanup : option nat;             (* [Some g]: the last effect run
                                       returned [unsubscribeAll] of [g] *)
  mounted : bool
}.

Definition initialState : CombinedState := mkState true None None.

Definition initialEngine : Engine :=
  mkEngine initialState ∅ ∅ 0 [] [] [] [].

Definition initialHost : Host :=
  mkHost initialEngine None None None None true.

Definition runCleanup (cleanup : option nat) (w : Engine) : Engine :=
  match cleanup with
  | Some g => unsubscribeAll g w
  | None => w
  end.

(** One evaluation of [useObservables(props, triggerProps, getObservables)]
    followed by the commit of its effect.  Returns the [state] the
    evaluation handed to the caller. *)
Definition useObservables (props : gmap string Value)
    (triggerProps : option (list string))
    (getObservables : gmap string Value → SourceMap) (h : Host)
  : Adapter.Exn + (CombinedState * Host) :=
  let w := engine h in
  let state := state w in
  (* the argument of [useRef] is evaluated on every call *)
  let '(a0, w) := reserve w in
  let initial := mkArray a0 (getTriggeringProps props triggerProps) in
  let prevTriggerPropsRef := default initial (prevTriggerPropsRef h) in
  let '(a1, w) := reserve w in
  let currentTriggerProps :=
    mkArray a1 (getTriggeringProps props triggerProps) in
  let triggerPropsChanged :=
    negb (identicalArrays (elems prevTriggerPropsRef)
                          (elems currentTriggerProps)) in
  let prevTriggerPropsRef :=
    if triggerPropsChanged then currentTriggerProps
    else prevTriggerPropsRef in
  let triggerPropsKey := aid prevTriggerPropsRef in
  let observablesObject :=
    match memo h with
    | Some (deps, cached) =>
        if Nat.eqb deps triggerPropsKey then cached else getObservables props
    | None => getObservables props
    end in
  let rerun :=
    match effectDeps h with
    | Some deps => negb (Nat.eqb deps (sm_id observablesObject))
    | None => true
    end in
  let h' c w :=
    mkHost w (Some prevTriggerPropsRef)
           (Some (triggerPropsKey, observablesObject))
           (Some (sm_id observablesObject)) c (mounted h) in
  if rerun then
    let w := runCleanup (cleanup h) w in
    match effect observablesObject w with
    | inl e => inl e
    | inr (c, w) => inr (state, h' c w)
    end
  else inr (state, h' (cleanup h) w).

(** Removal of the hook's component: the host runs the pending cleanup. *)
Definition unmount (h : Host) : Host :=
  mkHost (runCleanup (cleanup h) (engine h)) (prevTriggerPropsRef h)
         (memo h) (effectDeps h) None false.

Definition with_engine (w : Engine) (h : Host) : Host :=
  mkHost w (prevTriggerPropsRef h) (memo h) (effectDeps h) (cleanup h)
         (mounted h).

(** What can happen to a mounted hook. *)
Inductive Event : Type :=
  | Evaluate (props : gmap string Value) (triggerProps : option (list string))
             (getObservables : gmap string Value → SourceMap)
  | Emit (g : nat) (key : string) (s : Adapter.Signal)
  | Unmount.

Definition step (h : Host) (ev : Event) : Adapter.Exn + Host :=
  match ev with
  | Evaluate props triggerProps getObservables =>
      if mounted h then
        match useObservables props triggerProps getObservables h with
        | inl e => inl e
        | inr (_, h') => inr h'
        end
      else inr h
  | Emit g key s => inr (with_engine (signal g key s (engine h)) h)
  | Unmount => if mounted h then inr (unmount h) else inr h
  end.

(** A run stops at the first exception that escapes the hook. *)
Fixpoint run (h : Host) (evs : list Event) : Adapter.Exn + Host :=
  match evs with
  | [] => inr h
  | ev :: evs' =>
      match step h ev with
      | inl e => inl e
      | inr h' => run h' evs'
      end
  end.

(** ** The render-prop front end *)

(** What ends a run of the component: an exception of the adapter that
    escapes the effect, or [throw state.error] in a render pass. *)
Inductive Raised : Type :=
  | FromEffect (e : Adapter.Exn)
  | FromRender (error : Err).

(** What the component hands back to the host from a render pass that
    returns. *)
Inductive Rendered : Type :=
  | RenderNull                           (* [return null] *)
  | RenderChildren (data : option loc).  (* [children(state.data)] *)

(** One render of [<WithObservables resetOn observables>] followed by the
    commit of its effect, whose body is the one of the hook ([effect]).
    [prevResetOnRef] takes the place of [prevTriggerPropsRef]; the array
    [resetOn] is allocated by the caller.  When the render pass throws, its
    effect is not committed. *)
Definition WithObservables (resetOn : TriggerArray)
    (observables : SourceMap) (h : Host)
  : Raised + (Rendered * Host) :=
  let w := engine h in
  let state := state w in
  let prevResetOnRef := default resetOn (prevTriggerPropsRef h) in
  let resetOnChanged :=
    negb (identicalArrays (elems prevResetOnRef) (elems resetOn)) in
  let prevResetOnRef :=
    if resetOnChanged then resetOn else prevResetOnRef in
  let resetKey := aid prevResetOnRef in
  let memoizedObservables :=
    match memo h with
    | Some (deps, cached) =>
        if Nat.eqb deps resetKey then cached else observables
    | None => observables
    end in
  let rerun :=
    match effectDeps h with
    | Some deps => negb (Nat.eqb deps (sm_id memoizedObservables))
    | None => true
    end in
  let h' c w :=
    mkHost w (Some prevResetOnRef) (Some (resetKey, memoizedObservables))
           (Some (sm_id memoizedObservables)) c (mounted h) in
  let commit (rendered : Rendered) :=
    if rerun then
      let w := runCleanup (cleanup h) w in
      match effect memoizedObservables w with
      | inl e => inl (FromEffect e)
      | inr (c, w) => inr (rendered, h' c w)
      end
    else inr (rendered, h' (cleanup h) w) in
  if isLoading state then commit RenderNull
  else
    match error state with
    | Some e => inl (FromRender e)
    | None => commit (RenderChildren (data state))
    end.

(** ** The resolution order as section 4.1 words it *)

(** Whether a value has a given shape, each shape on its own. *)
Definition has_shape (value : Value) (m : Adapter.Mechanism) : bool :=
  match m, value with
  | Adapter.ViaRecord, VObj o => bool_decide (ctorTag o = Some "model")
  | Adapter.ViaQuery, VObj o => bool_decide (ctorTag o = Some "query")
  | Adapter.ViaObserve, VObj o => bool_decide (is_Some (observe o))
  | Adapter.ViaSubscribe, VObj o => bool_decide (is_Some (subscribe_method o))
  | _, _ => false
  end.

(** Record tag, query tag, [observe()], [subscribe()]: in this order. *)
Definition resolution_order : list Adapter.Mechanism :=
  [Adapter.ViaRecord; Adapter.ViaQuery; Adapter.ViaObserve;
   Adapter.ViaSubscribe].

(** First match wins. *)
Definition first_match (value : Value) : option Adapter.Mechanism :=
  head (filter (λ m, has_shape value m = true) resolution_order).

(** What attaching to a source through mechanism [m] makes the callbacks
    receive before the adapter returns, case by case as section 4.1 has
    it: a record emits itself at once and then, on each notification of the
    record's own mechanism, itself again or, when deleted, completion; a
    query forwards every emission of its native mechanism; the conversion
    method is invoked and the producer it returns attached to; the push
    method is attached to directly. *)
Definition attaches (m : Adapter.Mechanism) (value : Value) : list Call :=
  match value with
  | VObj o =>
      match m with
      | Adapter.ViaRecord =>
          CNext value
          :: map (λ isDeleted : Value,
                    if truthy isDeleted then CComplete else CNext value)
                 (experimentalSubscribe o)
      | Adapter.ViaQuery => map CNext (experimentalSubscribe o)
      | Adapter.ViaObserve => from_option sync [] (observe o)
      | Adapter.ViaSubscribe => from_option sync [] (subscribe_method o)
      end
  | _ => []
  end.

(** What a signal sent after the adapter returned makes the callbacks
    receive, for the mechanism [m] the source is attached through: the
    native mechanism of a record or query notifies, a push producer calls
    the three callbacks it was handed. *)
Definition forwards (m : Adapter.Mechanism) (value : Value)
    (s : Adapter.Signal) : list Call :=
  match s with
  | Adapter.Notify arg =>
      match m with
      | Adapter.ViaRecord =>
          [if truthy arg then CComplete else CNext value]
      | Adapter.ViaQuery => [CNext arg]
      | _ => []
      end
  | Adapter.Push c =>
      match m with
      | Adapter.ViaObserve | Adapter.ViaSubscribe => [c]
      | _ => []
      end
  end.

(** Modelled from the spec: [experimentalSubscribe] of the record class is
    not part of the sources at hand.  Section 4.1 has the adapter attach to
    the record's own change-notification mechanism, each *subsequent*
    notification reaching the subscriber: attaching only registers it. *)
Definition registers_only (value : Value) : Prop :=
  Adapter.native value = [].

(** ** The three statuses *)

Definition Loading : CombinedState := mkState true None None.
Definition Ready (l : loc) : CombinedState := mkState false (Some l) None.
Definition Errored (e : Err) : CombinedState := mkState false None (Some e).

Inductive Status : Type := StLoading | StReady | StErrored.

(** The status a combined state is in, if it is in any. *)
Definition status (s : CombinedState) : option Status :=
  match isLoading s, data s, error s with
  | true, None, None => Some StLoading
  | false, Some _, None => Some StReady
  | false, None, Some _ => Some StErrored
  | _, _, _ => None
  end.

(** ** Generations, and the invariants of the engine *)

Definition generations (w : Engine) : nat := length (closures w).

(** A generation that still accepts emissions and has callbacks out. *)
Definition active (c : Closure) : Prop :=
  isSubscribed c = true ∧ keys c ≠ [].

(** Generation [g] received a value under [k] / an error. *)
Definition emitted (w : Engine) (g : nat) (k : string) : Prop :=
  ∃ v, ((g, k), CNext v) ∈ delivered w.

Definition errored (w : Engine) (g : nat) : Prop :=
  ∃ k e, ((g, k), CError e) ∈ delivered w.


(** No key is named [__proto__]: every assignment [values[key] = value]
    creates or overwrites an own property. *)
Definition no_proto_key (ks : list string) : Prop := "__proto__" ∉ ks.

Record Inv (w : Engine) : Prop := mkInv {
  inv_static : ∀ g c, closures w !! g = Some c →
    keys c = Object_keys (observablesObject c) ∧ keyCount c = length (keys c);
  inv_calls : ∀ g k, (g, k) ∈ subscribeCalls w →
    ∃ c, closures w !! g = Some c ∧ k ∈ keys c;
  inv_delivered : ∀ g k call, ((g, k), call) ∈ delivered w →
    (g, k) ∈ subscribeCalls w;
  inv_last : ∀ g c, closures w !! g = Some c → active c →
    S g = generations w;
  inv_error : ∀ g c, closures w !! g = Some c → errored w g →
    isSubscribed c = false;
  inv_values : ∀ g c, closures w !! g = Some c → active c →
    ∃ m, heap w !! values c = Some m
         ∧ dom m ⊆ list_to_set (keys c)
         ∧ data (state w) ≠ Some (values c)
         ∧ (no_proto_key (keys c) →
            valueCount c = size m ∧ ∀ k, k ∈ dom m ↔ emitted w g k);
  inv_bound : ∀ l, is_Some (heap w !! l) → l < nextLoc w;
  inv_state :
    state w = Loading
    ∨ (∃ e, state w = Errored e)
    ∨ (∃ l c m, state w = Ready l ∧ last (closures w) = Some c
                ∧ heap w !! l = Some m
                ∧ dom m ⊆ list_to_set (keys c)
                ∧ (no_proto_key (keys c) → dom m = list_to_set (keys c)));
  inv_progress : ∀ g c, closures w !! g = Some c → active c →
    no_proto_key (keys c) →
    if decide (valueCount c = keyCount c)
    then ∃ l, state w = Ready l ∧ heap w !! l = heap w !! values c
    else state w = Loading
}.

(** Every subscription a live generation opened is in its array. *)
Definition complete_subscriptions (w : Engine) : Prop :=
  ∀ g c k, closures w !! g = Some c → isSubscribed c = true →
    (g, k) ∈ subscribeCalls w → (g, k) ∈ array w (subscriptions c).

(** The same, but for the handles that satisfy [P]. *)
Definition complete_upto (P : Handle → Prop) (w : Engine) : Prop :=
  ∀ g c k, closures w !! g = Some c → isSubscribed c = true →
    (g, k) ∈ subscribeCalls w → P (g, k) →
    (g, k) ∈ array w (subscriptions c).

(** The newest generation, if it has keys, stops accepting emissions only
    through an error, and the error stays published. *)
Definition cancelled_by_error (w : Engine) : Prop :=
  ∀ g c, closures w !! g = Some c → S g = generations w → keys c ≠ [] →
    isSubscribed c = false → errored w g ∧ ∃ e, state w = Errored e.

(** No generation is accepting emissions. *)
Definition idle (w : Engine) : Prop :=
  ∀ g c, closures w !! g = Some c → ¬ active c.

(** [w'] comes from [w] by callback invocations only. *)
Definition by_callbacks (w w' : Engine) : Prop :=
  subscribeCalls w' = subscribeCalls w
  ∧ length (closures w') = length (closures w)
  ∧ ∃ d, delivered w' = delivered w ++ d
    ∧ ∀ g c c', closures w !! g = Some c → closures w' !! g = Some c' →
        keys c' = keys c
        ∧ observablesObject c' = observablesObject c
        ∧ (isSubscribed c' = true →
           isSubscribed c = true ∧ subscriptions c' = subscriptions c)
        ∧ (isSubscribed c = true → isSubscribed c' = false →
           ∃ k e, ((g, k), CError e) ∈ d).

(** What never changes about a generation once it exists. *)
Definition evolves (w w' : Engine) : Prop :=
  ∀ g c, closures w !! g = Some c →
    ∃ c', closures w' !! g = Some c' ∧ keys c' = keys c
          ∧ (isSubscribed c = false → isSubscribed c' = false).

(** The invariants that hold between two events of a mounted hook. *)
Record HInv (h : Host) : Prop := mkHInv {
  hinv_engine : Inv (engine h);
  hinv_cleanup : ∀ g, cleanup h = Some g → S g = generations (engine h);
  hinv_no_cleanup : cleanup h = None → idle (engine h);
  hinv_subscriptions : complete_subscriptions (engine h);
  hinv_cancelled : mounted h = true → cancelled_by_error (engine h);
  hinv_unmounted : mounted h = false → cleanup h = None
}.

(** The new count computed by a live [onNext]. *)
Definition nextCount (w : Engine) (c : Closure) (key : string) : nat :=
  if hasOwn (deref w (values c)) key then valueCount c else valueCount c + 1.

(** What [unsubscribeAll] does to the variables of its generation, the new
    array being at address [a]. *)
Definition cancel (a : loc) (c : Closure) : Closure :=
  set_subscriptions a (set_isSubscribed false c).

(** The world right after the effect has declared its variables and reset
    the state to loading. *)
Definition begin (observablesObject : SourceMap) (w : Engine) : Engine :=
  mkEngine Loading (<[S (nextLoc w) := ∅]> (heap w))
           (<[nextLoc w := []]> (arrays w)) (S (S (nextLoc w)))
           (closures w
              ++ [mkClosure true (nextLoc w) (S (nextLoc w)) 0
                    observablesObject (Object_keys observablesObject)
                    (length (Object_keys observablesObject))])
           (subscribeCalls w) (unsubscribed w) (delivered w).

(** The world after the empty-map branch has published [{}]. *)
Definition publish_empty (w : Engine) : Engine :=
  mkEngine (Ready (nextLoc w)) (<[nextLoc w := ∅]> (heap w)) (arrays w)
           (S (nextLoc w)) (closures w) (subscribeCalls w) (unsubscribed w)
           (delivered w).

(** What one iteration of the loop over the keys maintains. *)
Record LoopInv (g : nat) (o : SourceMap) (w : Engine) : Prop := mkLoopInv {
  loop_inv : Inv w;
  loop_complete : complete_subscriptions w;
  loop_cancelled : cancelled_by_error w;
  loop_closure : ∃ c, closures w !! g = Some c ∧ observablesObject c = o
}.

(** ** The decisions one evaluation of the hook takes *)

(** [prevTriggerPropsRef.current] after the comparison. *)
Definition evaluatedRef (h : Host) (props : gmap string Value)
    (triggerProps : option (list string)) : TriggerArray :=
  let current := getTriggeringProps props triggerProps in
  let prev :=
    default (mkArray (nextLoc (engine h)) current) (prevTriggerPropsRef h) in
  if negb (identicalArrays (elems prev) current)
  then mkArray (S (nextLoc (engine h))) current
  else prev.

(** The value [useMemo] returns. *)
Definition evaluatedObservables (h : Host) (props : gmap string Value)
    (triggerProps : option (list string))
    (getObservables : gmap string Value → SourceMap) : SourceMap :=
  match memo h with
  | Some (deps, cached) =>
      if Nat.eqb deps (aid (evaluatedRef h props triggerProps))
      then cached else getObservables props
  | None => getObservables props
  end.

(** Whether the host runs the effect again after this evaluation. *)
Definition effectReruns (h : Host) (props : gmap string Value)
    (triggerProps : option (list string))
    (getObservables : gmap string Value → SourceMap) : bool :=
  match effectDeps h with
  | Some deps =>
      negb (Nat.eqb deps
              (sm_id (evaluatedObservables h props triggerProps
                        getObservables)))
  | None => true
  end.



(** What identity comparison looks at: a primitive's value, an object's
    address. *)
Definition identity (v : Value) : Value :=
  match v with
  | VObj o => VObj (MkObj (oid o) None [] None None)
  | _ => v
  end.

(** ** Sample sources, source maps and runs *)

(** A push producer: only [subscribe], with the given synchronous calls. *)
Definition subject (id : loc) (now : list Call) : Value :=
  VObj (MkObj id None [] None (Some (MkProducer now))).

(** A record of the database: tagged ['model'], its native subscription
    only registers the subscriber. *)
Definition record (id : loc) : Value :=
  VObj (MkObj id (Some "model") [] None None).

(** An object with every shape at once. *)
Definition chimera (id : loc) : Value :=
  VObj (MkObj id (Some "model") [] (Some (MkProducer [CError "observe"]))
              (Some (MkProducer [CError "subscribe"]))).

Definition two_sources : SourceMap :=
  sources 100
    [("first", subject 1 [CNext (VStr "first")]); ("second", subject 2 [])].

(** Mounted with [two_sources]: ["first"] has emitted, ["second"] not yet. *)
Definition waiting : Host :=
  match run initialHost [Evaluate ∅ None (λ _, two_sources)] with
  | inr h => h
  | inl _ => initialHost
  end.

(** [waiting] after ["second"] has emitted too. *)
Definition ready : Host :=
  match run waiting [Emit 0 "second" (Adapter.Push (CNext (VStr "second")))]
  with
  | inr h => h
  | inl _ => initialHost
  end.

Definition failing_map : SourceMap :=
  sources 100
    [("ok", subject 1 [CNext (VStr "a")]);
     ("failing", subject 2 [CError "boom"])].

(** Mounted with [failing_map]: ["failing"] errored while being subscribed
    to. *)
Definition after_sync_error : Host :=
  match run initialHost [Evaluate ∅ None (λ _, failing_map)] with
  | inr h => h
  | inl _ => initialHost
  end.

Definition error_map : SourceMap :=
  sources 101 [("failing", subject 3 [CError "Test error"])].

(** Mounted with a source that errors while being subscribed to. *)
Definition failed : Host :=
  match run initialHost [Evaluate ∅ None (λ _, error_map)] with
  | inr h => h
  | inl _ => initialHost
  end.

Definition empty_map : SourceMap := sources 102 [].

(** A factory that hands out one and the same object on every call. *)
Definition shared_map : SourceMap :=
  sources 200 [("item", subject 4 [CNext (VStr "data")])].

Definition watch_id : option (list string) := Some ["id"].
Definition id1 : gmap string Value := {["id" := VNum 1]}.
Definition id2 : gmap string Value := {["id" := VNum 2]}.

(** A factory that builds a new object for every [id]. *)
Definition item_for (props : gmap string Value) : SourceMap :=
  match props !! "id" with
  | Some (VNum n) =>
      sources (300 + Z.to_nat n) [("item", subject 5 [CNext (VNum n)])]
  | _ => sources 300 []
  end.

Definition mounted_with_id1 : Host :=
  match run initialHost [Evaluate id1 watch_id item_for] with
  | inr h => h
  | inl _ => initialHost
  end.

Definition mounted_with_id2 : Host :=
  match step mounted_with_id1 (Evaluate id2 watch_id item_for) with
  | inr h => h
  | inl _ => initialHost
  end.

(** Two sources that share state: attaching to ["b"] makes the producer
    behind ["a"], attached already, fire its error channel (a subject that
    the source under ["b"] fails when it is subscribed to). *)
Definition entangled_map : SourceMap :=
  mkSourceMap 400 [("a", subject 6 []); ("b", subject 7 [])]
    (λ key, if String.eqb key "b"
            then [Elsewhere 0 "a" (Adapter.Push (CError "boom"))]
            else []).

(** A factory whose maps have other keys for another [id]. *)
Definition named_for (props : gmap string Value) : SourceMap :=
  match props !! "id" with
  | Some (VNum 1) => sources 601 [("task", subject 8 [CNext (VStr "one")])]
  | _ => sources 602 [("comments", subject 9 [])]
  end.

(** A map with an own property named [__proto__], as the literal
    [{ a: ..., ['__proto__']: ... }] makes it. *)
Definition proto_map : SourceMap :=
  sources 500 [("a", subject 10 []); ("__proto__", subject 11 [])].

(** ** Properties kept by every operation of the engine *)

(** The handles of generation [g] in a log, in the order of the log. *)
Definition handles_of (g : nat) (l : list Handle) : list Handle :=
  filter (λ h, h.1 = g) l.

(** The handles generation [g] gets for the keys [ks]. *)
Definition handles (g : nat) (ks : list string) : list Handle :=
  map (pair g) ks.

(** Between two events, a generation that accepts emissions has called the
    adapter once for each of its keys, in the order of the keys. *)
Definition fully_subscribed (w : Engine) : Prop :=
  ∀ g c, closures w !! g = Some c → isSubscribed c = true →
    handles_of g (subscribeCalls w) = handles g (keys c).

(** A property of the store that survives what the hook and the producers
    do to it: the allocation of a trigger array, the cleanup of the newest
    generation, the start of an effect run, one iteration of its loop over
    the keys, and a signal of a producer. *)
Record Preserved (P : Engine → Prop) : Prop := mkPreserved {
  pres_reserve : ∀ w, Inv w → P w → P (reserve w).2;
  pres_unsubscribeAll : ∀ g w,
    Inv w → S g = generations w → P w → P (unsubscribeAll g w);
  pres_begin : ∀ o w, Inv w → idle w → P w → P (begin o w);
  pres_publish_empty : ∀ w c,
    Inv w → idle w → last (closures w) = Some c → keys c = [] →
    P w → P (publish_empty w);
  pres_subscribeKey : ∀ g o c done key rest w w',
    LoopInv g o w → S g = generations w →
    closures w !! g = Some c → isSubscribed c = true →
    Object_keys o = done ++ key :: rest →
    handles_of g (subscribeCalls w) = handles g done →
    subscribeKey g key w = inr w' →
    P w → P w';
  pres_signal : ∀ g key s w,
    Inv w → complete_subscriptions w → P w → P (signal g key s w)
}.

(** ** The render-prop component as the host drives it *)

Inductive ComponentEvent : Type :=
  | Render (resetOn : TriggerArray) (observables : SourceMap)
  | Signal (g : nat) (key : string) (s : Adapter.Signal)
  | Remove.

Definition component_step (h : Host) (ev : ComponentEvent) : Raised + Host :=
  match ev with
  | Render resetOn observables =>
      if mounted h then
        match WithObservables resetOn observables h with
        | inl e => inl e
        | inr (_, h') => inr h'
        end
      else inr h
  | Signal g key s => inr (with_engine (signal g key s (engine h)) h)
  | Remove => if mounted h then inr (unmount h) else inr h
  end.

Fixpoint component_run (h : Host) (evs : list ComponentEvent)
  : Raised + Host :=
  match evs with
  | [] => inr h
  | ev :: evs' =>
      match component_step h ev with
      | inl e => inl e
      | inr h' => component_run h' evs'
      end
  end.

(** The decisions one render pass of the component takes. *)

(** [prevResetOnRef.current] after the comparison. *)
Definition renderedRef (h : Host) (resetOn : TriggerArray) : TriggerArray :=
  let prev := default resetOn (prevTriggerPropsRef h) in
  if negb (identicalArrays (elems prev) (elems resetOn)) then resetOn
  else prev.

(** The value [useMemo] returns. *)
Definition memoizedObservables (h : Host) (resetOn : TriggerArray)
    (observables : SourceMap) : SourceMap :=
  match memo h with
  | Some (deps, cached) =>
      if Nat.eqb deps (aid (renderedRef h resetOn)) then cached
      else observables
  | None => observables
  end.

(** Whether the host runs the effect again after this render pass. *)
Definition renderReruns (h : Host) (resetOn : TriggerArray)
    (observables : SourceMap) : bool :=
  match effectDeps h with
  | Some deps =>
      negb (Nat.eqb deps (sm_id (memoizedObservables h resetOn observables)))
  | None => true
  end.

(** What the render pass does for a given [state]: throw the error, or
    hand something back. *)
Definition rendered (s : CombinedState) : Err + Rendered :=
  if isLoading s then inr RenderNull
  else match error s with
       | Some e => inl e
       | None => inr (RenderChildren (data s))
       end.

(** ** What the published data holds *)

(** The values delivered through [onNext] under handle [h], oldest first. *)
Definition values_for (h : Handle) (d : list (Handle * Call)) : list Value :=
  omap (λ e, match e.2 with
             | CNext v => if decide (e.1 = h) then Some v else None
             | _ => None
             end) d.

Definition latest (h : Handle) (d : list (Handle * Call)) : option Value :=
  last (values_for h d).

(** The accumulator [values] of a generation that accepts emissions holds,
    key by key, the latest value delivered; not so under [__proto__], where
    nothing is stored. *)
Definition accumulates_latest (w : Engine) : Prop :=
  ∀ g c m k, closures w !! g = Some c → active c →
    heap w !! values c = Some m → k ≠ "__proto__" →
    m !! k = latest (g, k) (delivered w).

(** The object at [l] holds [m] and no generation writes to it. *)
Definition frozen (l : loc) (m : gmap string Value) (w : Engine) : Prop :=
  heap w !! l = Some m
  ∧ ∀ g c, closures w !! g = Some c → active c → values c ≠ l.

(** A published error was delivered to the newest generation. *)
Definition error_was_delivered (w : Engine) : Prop :=
  ∀ e, state w = Errored e →
    ∃ g k, S g = generations w ∧ ((g, k), CError e) ∈ delivered w.

(** The callback invocations the adapter makes for a source while it
    subscribes to it, or arranges for a later signal of its producer. *)
Definition sent_by (source : Value) (call : Call) : Prop :=
  call ∈ Adapter.calls (Adapter.subscribe source)
  ∨ ∃ via s, Adapter.result (Adapter.subscribe source) = inr via
             ∧ call ∈ Adapter.listener via source s.

(** Every callback invocation on record goes back to the source found
    under its key. *)
Definition delivered_by_sources (w : Engine) : Prop :=
  ∀ g k call, ((g, k), call) ∈ delivered w →
    ∃ c, closures w !! g = Some c
         ∧ sent_by (prop (observablesObject c) k) call.

(** Every source the adapter was called for is one it accepts. *)
Definition sources_accepted (w : Engine) : Prop :=
  ∀ g k, (g, k) ∈ subscribeCalls w →
    ∃ c via, closures w !! g = Some c
             ∧ Adapter.result
                 (Adapter.subscribe (prop (observablesObject c) k))
               = inr via.

(** ** The discipline of the unsubscribe handles *)

(** What holds of the arrays of handles and of the log of the handles
    invoked, [cs] being the handles the loop bodies that have finished
    obtained from the adapter. *)
Record Handles (cs : list Handle) (w : Engine) : Prop := mkHandles {
  hd_calls : NoDup cs;
  hd_unsubscribed : NoDup (unsubscribed w);
  hd_opened : ∀ h, h ∈ unsubscribed w → h ∈ cs;
  hd_live : ∀ g c, closures w !! g = Some c → isSubscribed c = true →
    array w (subscriptions c) = handles_of g cs
    ∧ ∀ h, h ∈ handles_of g cs → h ∉ unsubscribed w;
  hd_dead : ∀ g c, closures w !! g = Some c → isSubscribed c = false →
    array w (subscriptions c) = [];
  hd_closed : ∀ g c, closures w !! g = Some c → isSubscribed c = false →
    ∃ rest, handles_of g cs = handles_of g (unsubscribed w) ++ rest
            ∧ length rest ≤ 1
            ∧ (rest ≠ [] → errored w g);
  hd_fresh : ∀ g c, closures w !! g = Some c → subscriptions c < nextLoc w;
  hd_distinct : ∀ g g' c c',
    closures w !! g = Some c → closures w !! g' = Some c' →
    subscriptions c = subscriptions c' → g = g'
}.

Definition handles_kept (w : Engine) : Prop := Handles (subscribeCalls w) w.

(** While the newest generation [g] is inside the adapter's call for a
    key, the array [target] it will push the handle onto being looked up
    already: only [g] refers to that array, and only as long as it accepts
    emissions; if it has stopped, it stopped through an error of one of its
    sources, which closed the handles [cs] it had. *)
Definition pending (g : nat) (target : loc)
    (cs : list Handle) (w : Engine) : Prop :=
  target < nextLoc w
  ∧ S g = generations w
  ∧ (∀ g' c', closures w !! g' = Some c' → subscriptions c' = target →
       g' = g ∧ isSubscribed c' = true)
  ∧ (∀ c, closures w !! g = Some c → isSubscribed c = true →
       subscriptions c = target)
  ∧ (∀ c, closures w !! g = Some c → isSubscribed c = false →
       handles_of g (unsubscribed w) = handles_of g cs
       ∧ errored w g).

(** The adapter is called for the keys of a generation in their order,
    starting with the first. *)
Definition subscribed_in_order (w : Engine) : Prop :=
  ∀ g c, closures w !! g = Some c →
    ∃ n, handles_of g (subscribeCalls w) = handles g (take n (keys c)).

(** What the cells of the component say between two events. *)
Definition RenderInv (h : Host) : Prop :=
  match prevTriggerPropsRef h with
  | None => memo h = None ∧ effectDeps h = None
  | Some a =>
      ∃ cached c,
        memo h = Some (aid a, cached)
        ∧ effectDeps h = Some (sm_id cached)
        ∧ last (closures (engine h)) = Some c
        ∧ sm_id (observablesObject c) = sm_id cached
  end.

(** The component mounted with an empty [observables] and rendered once. *)
Definition rendered_once : Host :=
  match component_run initialHost [Render (mkArray 50 []) empty_map] with
  | inr h => h
  | inl _ => initialHost
  end.

(** The component mounted with [two_sources] and [resetOn = [1]]. *)
Definition rendered_two_sources : Host :=
  match component_run initialHost
          [Render (mkArray 50 [VNum 1]) two_sources] with
  | inr h => h
  | inl _ => initialHost
  end.

(** ** The higher-order components *)

(** A component is known by its identity.  The element a call
    [createElement(type, config)] makes is described by the two arguments
    of the call: what becomes of [config] is up to the host (which takes
    [key] and [ref] out of it and hands the rest to the component as its
    props). *)
Record Element : Type := mkElement {
  element_type : loc;
  element_config : gmap string Value
}.

Definition createElement (type : loc) (config : gmap string Value)
  : Element :=
  mkElement type config.

(** [{ ...props, ...over }]: the entries of [over] win; spreading [null]
    adds nothing. *)
Definition spread (props : gmap string Value)
    (over : option (gmap string Value)) : gmap string Value :=
  match over with
  | Some o => o ∪ props
  | None => props
  end.

(** One render of the component [withObservables(triggerProps,
    getObservables)(BaseComponent)] returns, followed by the commit of the
    effect of the hook it calls.  The hook hands back the state cell as it
    is before its effect runs; the effect is committed only if the render
    pass returned. *)
Definition WithObservablesWrapper (triggerProps : option (list string))
    (getObservables : gmap string Value → SourceMap) (BaseComponent : loc)
    (props : gmap string Value) (h : Host)
  : Raised + (option Element * Host) :=
  let '(mkState isLoading data error) := state (engine h) in
  let commit (returned : option Element) :=
    match useObservables props triggerProps getObservables h with
    | inl e => inl (FromEffect e)
    | inr (_, h') => inr (returned, h')
    end in
  if isLoading then commit None
  else
    match error with
    | Some e => inl (FromRender e)
    | None =>
        commit
          (Some (createElement BaseComponent
                   (spread props (deref (engine h) <$> data))))
    end.

(** [withHooks(hookTransformer)(BaseComponent)] rendered with [props], for
    what the transformer returns. *)
Definition WithHooks (hookTransformer : gmap string Value → gmap string Value)
    (BaseComponent : loc) (props : gmap string Value) : Element :=
  let newProps := hookTransformer props in
  createElement BaseComponent (spread props (Some newProps)).

(** [rendered_two_sources] after ["second"] has emitted too. *)
Definition rendered_ready : Host :=
  match component_run rendered_two_sources
          [Signal 0 "second" (Adapter.Push (CNext (VStr "second")))] with
  | inr h => h
  | inl _ => initialHost
  end.

(** A source whose producer delivers a value, and no error, before the
    adapter's call returns. *)
Definition emits_synchronously (source : Value) : Prop :=
  (∃ v, CNext v ∈ Adapter.calls (Adapter.subscribe source))
  ∧ ∀ e, CError e ∉ Adapter.calls (Adapter.subscribe source).

Definition behavior_subject (id : loc) (v : Value) : Value :=
  subject id [CNext v].

Definition synchronous_map : SourceMap :=
  sources 103
    [("a", behavior_subject 6 (VNum 1)); ("b", behavior_subject 7 (VNum 2))].

(** * Properties of the source adapter *)

Section AdapterFacts.

Import Adapter.

Lemma wmelonTag_obj o : wmelonTag (VObj o) = ctorTag o.
Proof. reflexivity. Qed.

Lemma wmelonTag_not_obj value :
  (∀ o, value ≠ VObj o) → wmelonTag value = None.
Proof.
  intros Hno. destruct value; try (unfold wmelonTag; by case_match).
  by destruct (Hno o).
Qed.

Lemma tag_is_spec t s : tag_is t s = bool_decide (t = Some s).
Proof.
  symmetry. destruct t as [t'|]; unfold tag_is.
  - destruct (String.eqb_spec t' s) as [->|Hne].
    + by apply bool_decide_eq_true_2.
    + apply bool_decide_eq_false_2. congruence.
  - by apply bool_decide_eq_false_2.
Qed.

Lemma subscribe_throws_without_calls value e :
  result (subscribe value) = inl e → calls (subscribe value) = [].
Proof.
  unfold subscribe. repeat case_match; simpl; congruence.
Qed.

End AdapterFacts.

(** C5. The adapter resolves the shape of a source in the order record
    tag, query tag, [observe()], [subscribe()], the first match winning, and
    attaches through the mechanism of that shape and no other: the callback
    invocations made before it returns are those of that mechanism, and so
    is what a later signal makes the callbacks receive.  A value with none of
    the four shapes makes [subscribe] throw, without having invoked any
    callback (so not through [onError]). *)
Theorem subscribe_resolution_order (value : Value) :
  match first_match value with
  | Some m =>
      Adapter.subscribe value = Adapter.mkOutcome (attaches m value) (inr m)
      ∧ ∀ s, Adapter.listener m value s = forwards m value s
  | None => ∃ e, Adapter.subscribe value = Adapter.mkOutcome [] (inl e)
  end.
Proof.
  destruct value as [| | b | n | s | [i t nat obs sub]];
    try (unfold Adapter.subscribe; rewrite wmelonTag_not_obj by done;
         cbn; eexists; reflexivity).
  assert (Hl : ∀ m s0, Adapter.listener m (VObj (MkObj i t nat obs sub)) s0
                       = forwards m (VObj (MkObj i t nat obs sub)) s0).
  { intros m s0. by destruct m, s0. }
  unfold first_match, Adapter.subscribe.
  rewrite wmelonTag_obj, !tag_is_spec. cbn [ctorTag].
  destruct (decide (t = Some "model")) as [->|Hm]; [by split|].
  destruct (decide (t = Some "query")) as [->|Hq]; [by split|].
  assert (Hf : filter (λ m, has_shape (VObj (MkObj i t nat obs sub)) m = true)
                 resolution_order
               = filter (λ m, has_shape (VObj (MkObj i None nat obs sub)) m
                              = true) resolution_order).
  { unfold resolution_order. rewrite !filter_cons, !filter_nil.
    cbn [has_shape ctorTag observe subscribe_method].
    rewrite !(bool_decide_eq_false_2 (t = Some _)) by done.
    reflexivity. }
  rewrite Hf, !(bool_decide_eq_false_2 (t = Some _)) by done.
  destruct obs as [p|], sub as [q|]; cbn; try (by split).
  eexists; reflexivity.
Qed.

(** C6. For a source with the record tag, [subscribe] first invokes
    [onNext(source)] itself and then attaches [recordSubscriber] to the
    record; as attaching only registers the subscriber, that is the one
    and only call made before [subscribe] returns.  Afterwards a
    notification that is not "deleted" re-emits the source through
    [onNext], and a "deleted" one invokes [onComplete] and not [onNext]. *)
Theorem subscribe_record (value : Value)
    (Htag : Adapter.wmelonTag value = Some "model") :
  Adapter.result (Adapter.subscribe value) = inr Adapter.ViaRecord
  ∧ (∃ later, Adapter.calls (Adapter.subscribe value) = CNext value :: later)
  ∧ (registers_only value →
     Adapter.calls (Adapter.subscribe value) = [CNext value])
  ∧ (∀ isDeleted,
       Adapter.listener Adapter.ViaRecord value (Adapter.Notify isDeleted)
       = if truthy isDeleted then [CComplete] else [CNext value]).
Proof.
  unfold Adapter.subscribe, registers_only. rewrite Htag. cbn [Adapter.tag_is].
  change (String.eqb "model" "model") with true. cbn.
  repeat split.
  - eexists; reflexivity.
  - by intros ->.
  - intros isDeleted. unfold Adapter.recordSubscriber.
    by destruct (truthy isDeleted).
Qed.

Lemma subscribe_record_witness :
  Adapter.result (Adapter.subscribe (record 7)) = inr Adapter.ViaRecord
  ∧ Adapter.calls (Adapter.subscribe (record 7)) = [CNext (record 7)]
  ∧ Adapter.listener Adapter.ViaRecord (record 7)
      (Adapter.Notify (VBool false)) = [CNext (record 7)]
  ∧ Adapter.listener Adapter.ViaRecord (record 7)
      (Adapter.Notify (VBool true)) = [CComplete].
Proof.
  destruct (subscribe_record (record 7)) as (Hr & _ & Hc & Hl);
    [reflexivity|].
  split; [exact Hr|]. split; [apply Hc; reflexivity|].
  split; [exact (Hl (VBool false)) | exact (Hl (VBool true))].
Defined.

(** C10. For [null] and [undefined] the adapter throws before invoking any
    callback, and what it throws is the [TypeError] of the property access,
    not the "doesn't appear to be observable" error. *)
Theorem subscribe_nullish (value : Value)
    (Hnullish : value = VNull ∨ value = VUndefined) :
  Adapter.subscribe value = Adapter.mkOutcome [] (inl Adapter.TypeError)
  ∧ Adapter.result (Adapter.subscribe value)
    ≠ inl Adapter.NotObservableError.
Proof.
  destruct Hnullish as [-> | ->]; split; cbn; congruence.
Qed.

Lemma subscribe_nullish_witness :
  Adapter.subscribe VNull = Adapter.mkOutcome [] (inl Adapter.TypeError).
Proof.
  apply (subscribe_nullish VNull). by left.
Defined.

(** * The engine: how each operation changes the world *)

Lemma lookup_alter_closure (f : Closure → Closure) (cs : list Closure) g g' :
  alter f g cs !! g' = if decide (g = g') then f <$> cs !! g' else cs !! g'.
Proof.
  rewrite list_lookup_alter. by case_decide; subst.
Qed.

Lemma last_alter_closure (f : Closure → Closure) (cs : list Closure) g :
  last (alter f g cs) = f <$> last cs ∨ last (alter f g cs) = last cs.
Proof.
  rewrite !last_lookup, length_alter, lookup_alter_closure.
  case_decide; auto.
Qed.

(** [onNext] of a cancelled generation returns at once. *)
Lemma onNext_cancelled g key v w c :
  closures w !! g = Some c → isSubscribed c = false → onNext g key v w = w.
Proof. intros Hc Hs. unfold onNext. by rewrite Hc, Hs. Qed.

Lemma onError_cancelled g e w c :
  closures w !! g = Some c → isSubscribed c = false → onError g e w = w.
Proof. intros Hc Hs. unfold onError. by rewrite Hc, Hs. Qed.

Lemma onNext_live g key v w c :
  closures w !! g = Some c → isSubscribed c = true →
  let m := assign key v (deref w (values c)) in
  let n := nextCount w c key in
  onNext g key v w =
    if n =? keyCount c then
      mkEngine (Ready (nextLoc w))
               (<[nextLoc w := m]> (<[values c := m]> (heap w)))
               (arrays w) (S (nextLoc w))
               (alter (set_valueCount n) g (closures w))
               (subscribeCalls w) (unsubscribed w) (delivered w)
    else
      mkEngine (state w) (<[values c := m]> (heap w)) (arrays w) (nextLoc w)
               (alter (set_valueCount n) g (closures w))
               (subscribeCalls w) (unsubscribed w) (delivered w).
Proof.
  intros Hc Hs. cbn zeta. unfold onNext, nextCount. rewrite Hc, Hs. cbn [negb].
  destruct (hasOwn (deref w (values c)) key); cbn [negb];
    case_match; try reflexivity;
    unfold alloc, store, set_heap, setState, upd_closure, set_closures, deref;
    cbn; by rewrite lookup_insert_eq.
Qed.

Lemma onError_live g e w c :
  closures w !! g = Some c → isSubscribed c = true →
  onError g e w =
    mkEngine (Errored e) (heap w) (<[nextLoc w := []]> (arrays w))
             (S (nextLoc w))
             (alter (set_subscriptions (nextLoc w))
                    g (alter (set_isSubscribed false) g (closures w)))
             (subscribeCalls w)
             (unsubscribed w ++ array w (subscriptions c))
             (delivered w).
Proof.
  intros Hc Hs. unfold onError, unsubscribeAll. by rewrite Hc, Hs.
Qed.

Lemma unsubscribeAll_eq g w c :
  closures w !! g = Some c →
  unsubscribeAll g w =
    mkEngine (state w) (heap w) (<[nextLoc w := []]> (arrays w))
             (S (nextLoc w))
             (alter (set_subscriptions (nextLoc w))
                    g (alter (set_isSubscribed false) g (closures w)))
             (subscribeCalls w)
             (unsubscribed w ++ array w (subscriptions c))
             (delivered w).
Proof. intros Hc. unfold unsubscribeAll. by rewrite Hc. Qed.

Lemma elem_of_first_occurrences (l : list string) x :
  x ∈ first_occurrences l ↔ x ∈ l.
Proof.
  induction l as [|y l IH]; [done|]. cbn [first_occurrences].
  rewrite !elem_of_cons, list_elem_of_filter, IH.
  destruct (decide (x = y)); naive_solver.
Qed.

Lemma NoDup_first_occurrences (l : list string) :
  NoDup (first_occurrences l).
Proof.
  induction l as [|y l IH]; [constructor|]. cbn [first_occurrences].
  constructor.
  - rewrite list_elem_of_filter. naive_solver.
  - by apply NoDup_filter.
Qed.

Lemma insert_index_perm x l : insert_index x l ≡ₚ x :: l.
Proof.
  induction l as [|y l IH]; [done|]. cbn [insert_index].
  destruct (_ <=? _)%N; [done|]. rewrite IH. apply Permutation_swap.
Qed.

Lemma sort_indices_perm l : sort_indices l ≡ₚ l.
Proof.
  induction l as [|x l IH]; [done|]. unfold sort_indices. cbn [foldr].
  fold (sort_indices l). by rewrite insert_index_perm, IH.
Qed.

Lemma indexed_names (l : list string) :
  map snd (omap (λ k, (λ n, (n, k)) <$> array_index k) l)
  = filter (λ k, ¬ array_index k = None) l.
Proof.
  induction l as [|k l IH]; [done|]. rewrite filter_cons. cbn.
  destruct (array_index k) as [n|]; cbn.
  - rewrite decide_True by done. f_equal. exact IH.
  - rewrite decide_False by (intros H; by apply H). exact IH.
Qed.

(** [Object.keys] lists each name once, whatever the order. *)
Lemma Object_keys_perm o :
  Object_keys o ≡ₚ first_occurrences (map fst (sm_entries o)).
Proof.
  unfold Object_keys. cbn zeta.
  set (names := first_occurrences (map fst (sm_entries o))).
  etrans; [|apply (filter_app_complement (λ k, array_index k = None) names)].
  rewrite (Permutation_app_comm (filter _ names)).
  apply Permutation_app; [|done].
  rewrite <- indexed_names. apply Permutation_map, sort_indices_perm.
Qed.

Lemma NoDup_Object_keys o : NoDup (Object_keys o).
Proof. rewrite Object_keys_perm. apply NoDup_first_occurrences. Qed.

Lemma elem_of_Object_keys o k :
  k ∈ Object_keys o ↔ k ∈ map fst (sm_entries o).
Proof. by rewrite Object_keys_perm, elem_of_first_occurrences. Qed.

(** If the entries of an accumulator lie among the keys and their number
    is the number of keys, every key has an entry. *)
Lemma full_accumulator (m : gmap string Value) (o : SourceMap) :
  dom m ⊆ list_to_set (Object_keys o) →
  size m = length (Object_keys o) →
  dom m = list_to_set (Object_keys o).
Proof.
  intros Hsub Hsize. apply set_subseteq_size_eq; [done|].
  rewrite size_list_to_set by apply NoDup_Object_keys.
  rewrite size_dom. lia.
Qed.

Lemma size_insert_accumulator (m : gmap string Value) k v :
  size (<[k := v]> m) = if hasOwn m k then size m else size m + 1.
Proof.
  unfold hasOwn. destruct (m !! k) as [x|] eqn:Hk.
  - rewrite bool_decide_eq_true_2 by eauto.
    by rewrite map_size_insert_Some.
  - rewrite bool_decide_eq_false_2 by (intros [? ?]; congruence).
    rewrite map_size_insert_None by done. lia.
Qed.

Lemma alter_lookup_inv (f : Closure → Closure) (cs : list Closure) g g' c' :
  alter f g cs !! g' = Some c' →
  ∃ c0, cs !! g' = Some c0 ∧ ((g' ≠ g ∧ c' = c0) ∨ (g' = g ∧ c' = f c0)).
Proof.
  rewrite lookup_alter_closure. case_decide as Hg.
  - subst g'. destruct (cs !! g) as [c0|]; [|done].
    intros [= <-]. eauto.
  - intros Hc. exists c'. split; [done|]. left. split; [congruence|done].
Qed.

(** A cancelled generation's callbacks only leave a trace in the log. *)
Lemma invoke_cancelled g key call w c :
  closures w !! g = Some c → isSubscribed c = false →
  invoke g key call w = log_delivered (g, key) call w.
Proof.
  intros Hc Hs. unfold invoke. destruct call as [v|e|].
  - by apply (onNext_cancelled g key v _ c).
  - by apply (onError_cancelled g e _ c).
  - reflexivity.
Qed.

Lemma emitted_log_delivered w g k g' k' call :
  emitted (log_delivered (g', k') call w) g k
  ↔ emitted w g k ∨ (g = g' ∧ k = k' ∧ ∃ v, call = CNext v).
Proof.
  unfold emitted, log_delivered. cbn [delivered]. split.
  - intros [v Hv]. apply elem_of_app in Hv as [Hv|Hv]; [eauto|].
    apply list_elem_of_singleton in Hv. injection Hv as -> -> <-. eauto.
  - intros [[v Hv]|(-> & -> & v & ->)]; exists v; apply elem_of_app; auto.
    right. by apply list_elem_of_singleton.
Qed.

Lemma errored_log_delivered w g g' k' call :
  errored (log_delivered (g', k') call w) g
  ↔ errored w g ∨ (g = g' ∧ ∃ e, call = CError e).
Proof.
  unfold errored, log_delivered. cbn [delivered]. split.
  - intros (k & e & He). apply elem_of_app in He as [He|He]; [eauto|].
    apply list_elem_of_singleton in He. injection He as -> -> <-. eauto.
  - intros [(k & e & He)|(-> & e & ->)].
    + exists k, e. apply elem_of_app; auto.
    + exists k', e. apply elem_of_app. right. by apply list_elem_of_singleton.
Qed.

Lemma Inv_log_delivered g k call w :
  Inv w → (g, k) ∈ subscribeCalls w →
  (call = CComplete
   ∨ ∃ c, closures w !! g = Some c ∧ isSubscribed c = false) →
  Inv (log_delivered (g, k) call w).
Proof.
  intros HI Hcall Hok. constructor; cbn [log_delivered closures heap state
    nextLoc subscribeCalls delivered generations].
  - apply (inv_static w HI).
  - apply (inv_calls w HI).
  - intros g' k' call' Hin. apply elem_of_app in Hin as [Hin|Hin].
    + by apply (inv_delivered w HI g' k' call').
    + apply list_elem_of_singleton in Hin. by injection Hin as -> -> ->.
  - apply (inv_last w HI).
  - intros g' c' Hc' He. apply errored_log_delivered in He as [He|[-> [e ->]]].
    + by apply (inv_error w HI g' c').
    + destruct Hok as [?|(c & Hc & Hs)]; [done|]. congruence.
  - intros g' c' Hc' Hact.
    destruct (inv_values w HI g' c' Hc' Hact) as (m & Hm & Hdom & Hd & Hfree).
    exists m. split; [done|]. split; [done|]. split; [done|].
    intros Hno. destruct (Hfree Hno) as [Hsz Hem]. split; [done|].
    intros k'. rewrite Hem. split.
    + intros Hk'. apply emitted_log_delivered. by left.
    + intros Hk'. apply emitted_log_delivered in Hk' as [Hk'|(-> & -> & v & ->)];
        [done|].
      destruct Hok as [?|(c & Hc & Hs)]; [done|].
      destruct Hact as [Hact _]. congruence.
  - apply (inv_bound w HI).
  - apply (inv_state w HI).
  - apply (inv_progress w HI).
Qed.

(** * The engine invariant is kept by every callback *)

Lemma active_of_key c k : isSubscribed c = true → k ∈ keys c → active c.
Proof. intros Hs Hk. split; [done|]. intros Hnil. rewrite Hnil in Hk. by apply elem_of_nil in Hk. Qed.

Lemma last_lookup_closure (cs : list Closure) g c :
  cs !! g = Some c → S g = length cs → last cs = Some c.
Proof. intros Hc Hg. rewrite last_lookup, <- Hg. done. Qed.

Lemma alter_lookup_fwd (f : Closure → Closure) (cs : list Closure) g g' c0 :
  cs !! g' = Some c0 →
  alter f g cs !! g' = Some (if decide (g = g') then f c0 else c0).
Proof.
  intros Hc0. rewrite lookup_alter_closure, Hc0. by case_decide.
Qed.

Lemma emitted_snoc_next w g k v d g' k' :
  delivered d = delivered w ++ [((g, k), CNext v)] →
  emitted d g' k' ↔ emitted w g' k' ∨ (g' = g ∧ k' = k).
Proof.
  intros Hd. unfold emitted. rewrite Hd. split.
  - intros [v' Hv]. apply elem_of_app in Hv as [Hv|Hv]; [eauto|].
    apply list_elem_of_singleton in Hv. injection Hv as -> -> _. eauto.
  - intros [[v' Hv]|[-> ->]].
    + exists v'. apply elem_of_app. auto.
    + exists v. apply elem_of_app. right. by apply list_elem_of_singleton.
Qed.

Lemma errored_snoc_next w g k v d g' :
  delivered d = delivered w ++ [((g, k), CNext v)] →
  errored d g' → errored w g'.
Proof.
  intros Hd (k' & e & He). rewrite Hd in He.
  apply elem_of_app in He as [He|He]; [by exists k', e|].
  by apply list_elem_of_singleton in He.
Qed.

Lemma assign_ne k v (m : gmap string Value) :
  k ≠ "__proto__" → assign k v m = <[k := v]> m.
Proof.
  intros Hne. unfold assign.
  destruct (String.eqb k "__proto__") eqn:E; [|done].
  by apply String.eqb_eq in E.
Qed.

Lemma assign_proto v (m : gmap string Value) : assign "__proto__" v m = m.
Proof. done. Qed.

Lemma dom_assign k v (m : gmap string Value) :
  dom (assign k v m) ⊆ {[k]} ∪ dom m.
Proof.
  unfold assign. destruct (String.eqb k "__proto__").
  - set_solver.
  - rewrite dom_insert_L. set_solver.
Qed.

Lemma Inv_invoke_next g k v w c :
  Inv w → closures w !! g = Some c → isSubscribed c = true → k ∈ keys c →
  (g, k) ∈ subscribeCalls w →
  Inv (invoke g k (CNext v) w).
Proof.
  intros HI Hc Hs Hk Hcall.
  pose proof (active_of_key c k Hs Hk) as Hact.
  destruct (inv_values w HI g c Hc Hact) as (m & Hm & Hdom & Hd & Hfree).
  pose proof (inv_last w HI g c Hc Hact) as Hlast.
  destruct (inv_static w HI g c Hc) as [Hkeys Hcount].
  assert (Hvl : values c < nextLoc w) by (apply (inv_bound w HI); eauto).
  pose proof (inv_progress w HI g c Hc Hact) as Hprog.
  unfold invoke.
  rewrite (onNext_live g k v _ c) by done.
  unfold nextCount, deref. cbn [log_delivered heap nextLoc closures state
    subscribeCalls unsubscribed delivered].
  rewrite Hm. cbn [default from_option]. unfold id.
  set (m' := assign k v m).
  set (n := if hasOwn m k then valueCount c else valueCount c + 1).
  assert (Hdom' : dom m' ⊆ list_to_set (keys c)).
  { pose proof (dom_assign k v m). unfold m'. set_solver. }
  assert (Hfree' : no_proto_key (keys c) →
            n = size m'
            ∧ (∀ k', k' ∈ dom m' ↔ emitted w g k' ∨ k' = k)
            ∧ (n ≠ keyCount c → state w = Loading)
            ∧ (n = keyCount c → dom m' = list_to_set (keys c))).
  { intros Hno. destruct (Hfree Hno) as [Hsz Hem].
    assert (k ≠ "__proto__") as Hne by (by intros ->).
    assert (m' = <[k := v]> m) as Hm' by (by apply assign_ne).
    assert (Hn : n = size m').
    { unfold n. by rewrite Hm', Hsz, size_insert_accumulator. }
    split; [done|]. split.
    { intros k'. rewrite Hm', dom_insert_L, <- Hem. set_solver. }
    split.
    - intros Hne'. specialize (Hprog Hno).
      destruct (decide (valueCount c = keyCount c)) as [Heq|]; [|done].
      exfalso. apply Hne'.
      assert (Hfull : dom m = list_to_set (Object_keys (observablesObject c))).
      { apply full_accumulator; [by rewrite <- Hkeys | congruence]. }
      unfold n.
      assert (hasOwn m k = true) as ->; [|congruence].
      apply bool_decide_eq_true_2, elem_of_dom. rewrite Hfull, <- Hkeys.
      by apply elem_of_list_to_set.
    - intros Heq. rewrite Hkeys.
      apply full_accumulator; [by rewrite <- Hkeys | congruence]. }
  clearbody m' n. clear Hprog Hfree.
  assert (Hstatic' : ∀ g' c',
            alter (set_valueCount n) g (closures w) !! g' = Some c' →
            ∃ c0, closures w !! g' = Some c0
              ∧ isSubscribed c' = isSubscribed c0
              ∧ keys c' = keys c0 ∧ keyCount c' = keyCount c0
              ∧ observablesObject c' = observablesObject c0
              ∧ values c' = values c0
              ∧ (g' = g → valueCount c' = n)).
  { intros g' c' Hc'.
    apply alter_lookup_inv in Hc' as (c0 & Hc0 & [[Hne ->]|[-> ->]]);
      exists c0; repeat split; done. }
  assert (Hactive' : ∀ g' c',
            alter (set_valueCount n) g (closures w) !! g' = Some c' →
            active c' →
            g' = g ∧ keys c' = keys c ∧ keyCount c' = keyCount c
            ∧ values c' = values c ∧ valueCount c' = n).
  { intros g' c' Hc' [Hs' Hk'].
    destruct (Hstatic' g' c' Hc') as (c0 & Hc0 & E1 & E2 & E3 & E4 & E5 & E6).
    assert (g' = g) as ->.
    { assert (S g' = generations w); [|lia].
      apply (inv_last w HI g' c0 Hc0). split; congruence. }
    assert (c0 = c) as -> by congruence.
    repeat split; try done. by apply E6. }
  assert (Hlast' : last (alter (set_valueCount n) g (closures w))
                   = Some (set_valueCount n c)).
  { apply (last_lookup_closure _ g); [|by rewrite length_alter].
    rewrite alter_lookup_fwd with (c0 := c) by done. by rewrite decide_True. }
  destruct (n =? keyCount c) eqn:Hpub.
  - apply Nat.eqb_eq in Hpub.
    assert (Hne : nextLoc w ≠ values c) by lia.
    constructor; unfold generations in *;
      cbn [closures heap state nextLoc subscribeCalls delivered].
    + intros g' c' Hc'.
      destruct (Hstatic' g' c' Hc') as (c0 & Hc0 & E1 & E2 & E3 & E4 & E5 & E6).
      rewrite E2, E3, E4. apply (inv_static w HI g' c0 Hc0).
    + intros g' k' Hin0.
      destruct (inv_calls w HI g' k' Hin0) as (c0 & Hc0 & Hk0).
      eexists. split; [by apply alter_lookup_fwd|]. destruct (decide (g = g')); exact Hk0.
    + intros g' k' call' Hin0. apply elem_of_app in Hin0 as [Hin0|Hin0].
      * by apply (inv_delivered w HI g' k' call').
      * apply list_elem_of_singleton in Hin0. by injection Hin0 as -> -> ->.
    + intros g' c' Hc' Hact'.
      destruct (Hactive' g' c' Hc' Hact') as (-> & _).
      by rewrite length_alter.
    + intros g' c' Hc' He.
      destruct (Hstatic' g' c' Hc') as (c0 & Hc0 & E1 & _).
      rewrite E1. apply (inv_error w HI g' c0 Hc0).
      by eapply errored_snoc_next; [|exact He].
    + intros g' c' Hc' Hact'.
      destruct (Hactive' g' c' Hc' Hact') as (-> & E2 & E3 & E4 & E5).
      exists m'. rewrite E2, E4.
      split; [by rewrite lookup_insert_ne, lookup_insert_eq|].
      split; [done|]. split; [cbn; congruence|].
      intros Hno. destruct (Hfree' Hno) as (Hn & Hin' & _).
      split; [congruence|]. intros k'.
      rewrite (emitted_snoc_next w g k v _ g k') by reflexivity.
      rewrite Hin'. naive_solver.
    + intros l Hl. destruct (decide (l = nextLoc w)) as [->|Hl1]; [lia|].
      rewrite lookup_insert_ne in Hl by done.
      destruct (decide (l = values c)) as [->|Hl2]; [lia|].
      rewrite lookup_insert_ne in Hl by done.
      pose proof (inv_bound w HI l Hl). lia.
    + right. right. exists (nextLoc w), (set_valueCount n c), m'.
      split; [done|]. split; [done|].
      split; [by rewrite lookup_insert_eq|].
      cbn [set_valueCount keys]. split; [done|].
      intros Hno. destruct (Hfree' Hno) as (_ & _ & _ & Hfull). by apply Hfull.
    + intros g' c' Hc' Hact' Hno.
      destruct (Hactive' g' c' Hc' Hact') as (-> & E2 & E3 & E4 & E5).
      rewrite E3, E5, decide_True by done.
      exists (nextLoc w). split; [done|].
      by rewrite E4, lookup_insert_eq, lookup_insert_ne, lookup_insert_eq.
  - apply Nat.eqb_neq in Hpub.
    constructor; unfold generations in *;
      cbn [closures heap state nextLoc subscribeCalls delivered].
    + intros g' c' Hc'.
      destruct (Hstatic' g' c' Hc') as (c0 & Hc0 & E1 & E2 & E3 & E4 & E5 & E6).
      rewrite E2, E3, E4. apply (inv_static w HI g' c0 Hc0).
    + intros g' k' Hin0.
      destruct (inv_calls w HI g' k' Hin0) as (c0 & Hc0 & Hk0).
      eexists. split; [by apply alter_lookup_fwd|]. destruct (decide (g = g')); exact Hk0.
    + intros g' k' call' Hin0. apply elem_of_app in Hin0 as [Hin0|Hin0].
      * by apply (inv_delivered w HI g' k' call').
      * apply list_elem_of_singleton in Hin0. by injection Hin0 as -> -> ->.
    + intros g' c' Hc' Hact'.
      destruct (Hactive' g' c' Hc' Hact') as (-> & _).
      by rewrite length_alter.
    + intros g' c' Hc' He.
      destruct (Hstatic' g' c' Hc') as (c0 & Hc0 & E1 & _).
      rewrite E1. apply (inv_error w HI g' c0 Hc0).
      by eapply errored_snoc_next; [|exact He].
    + intros g' c' Hc' Hact'.
      destruct (Hactive' g' c' Hc' Hact') as (-> & E2 & E3 & E4 & E5).
      exists m'. rewrite E2, E4.
      split; [by rewrite lookup_insert_eq|].
      split; [done|]. split; [done|].
      intros Hno. destruct (Hfree' Hno) as (Hn & Hin' & _).
      split; [congruence|]. intros k'.
      rewrite (emitted_snoc_next w g k v _ g k') by reflexivity.
      rewrite Hin'. naive_solver.
    + intros l Hl.
      destruct (decide (l = values c)) as [->|Hl2]; [lia|].
      rewrite lookup_insert_ne in Hl by done.
      by apply (inv_bound w HI l).
    + destruct (inv_state w HI) as [?|[?|(l & c0 & m0 & Hst & Hl0 & Hh & Hsub & Heq)]];
        [by left | by right; left |].
      right. right.
      assert (c0 = c) as ->.
      { rewrite (last_lookup_closure _ g c Hc) in Hl0 by done. congruence. }
      exists l, (set_valueCount n c), m0.
      split; [done|]. split; [done|]. split; [|done].
      rewrite lookup_insert_ne; [done|].
      intros <-. apply Hd. by rewrite Hst.
    + intros g' c' Hc' Hact' Hno.
      destruct (Hactive' g' c' Hc' Hact') as (-> & E2 & E3 & E4 & E5).
      rewrite E2 in Hno. destruct (Hfree' Hno) as (_ & _ & Hload & _).
      rewrite E3, E5, decide_False by done. by apply Hload.
Qed.

Lemma cancel_alter a g (cs : list Closure) :
  alter (set_subscriptions a) g (alter (set_isSubscribed false) g cs)
  = alter (cancel a) g cs.
Proof.
  apply list_eq. intros i. rewrite !lookup_alter_closure.
  case_decide; [|done]. by destruct (cs !! i).
Qed.

Lemma cancel_lookup_inv a (cs : list Closure) g g' c' :
  alter (cancel a) g cs !! g' = Some c' →
  ∃ c0, cs !! g' = Some c0
    ∧ keys c' = keys c0 ∧ keyCount c' = keyCount c0
    ∧ observablesObject c' = observablesObject c0
    ∧ values c' = values c0 ∧ valueCount c' = valueCount c0
    ∧ (isSubscribed c' = true → isSubscribed c0 = true ∧ g' ≠ g ∧ c' = c0).
Proof.
  intros Hc'.
  apply alter_lookup_inv in Hc' as (c0 & Hc0 & [[Hne ->]|[-> ->]]);
    exists c0; repeat split; done.
Qed.

(** Cancelling a generation, either silently (cleanup) or because one of
    its sources fired its error channel. *)
Lemma Inv_cancel g w s' a arr u' d' :
  Inv w →
  (s' = state w ∧ d' = delivered w)
  ∨ (∃ c k e, closures w !! g = Some c ∧ active c
              ∧ (g, k) ∈ subscribeCalls w
              ∧ s' = Errored e
              ∧ d' = delivered w ++ [((g, k), CError e)]) →
  Inv (mkEngine s' (heap w) arr (S (nextLoc w))
         (alter (set_subscriptions a)
                g (alter (set_isSubscribed false) g (closures w)))
         (subscribeCalls w) u' d').
Proof.
  intros HI Hcase. rewrite cancel_alter.
  assert (Hem : ∀ g' k', emitted (mkEngine s' (heap w) arr (S (nextLoc w))
                 (alter (cancel a) g (closures w)) (subscribeCalls w) u' d')
                 g' k'
                 ↔ emitted w g' k').
  { intros g' k'. unfold emitted. cbn [delivered].
    destruct Hcase as [[_ ->]|(c & k & e & _ & _ & _ & _ & ->)]; [done|].
    split; intros [v Hv]; exists v.
    - apply elem_of_app in Hv as [Hv|Hv]; [done|].
      by apply list_elem_of_singleton in Hv.
    - apply elem_of_app. by left. }
  assert (Hlive : ∀ g' c', alter (cancel a) g (closures w) !! g' = Some c' →
            active c' →
            closures w !! g' = Some c' ∧ g' ≠ g
            ∧ s' = state w).
  { intros g' c' Hc' [Hs' Hk'].
    destruct (cancel_lookup_inv _ _ _ _ _ Hc')
      as (c0 & Hc0 & E1 & E2 & E3 & E4 & E5 & E6).
    destruct (E6 Hs') as (Hs0 & Hne & ->). split; [done|]. split; [done|].
    destruct Hcase as [[-> _]|(c & k & e & Hc & Hact & _)]; [done|].
    exfalso. apply Hne.
    pose proof (inv_last w HI g c Hc Hact).
    pose proof (inv_last w HI g' c0 Hc0 (conj Hs0 Hk')). lia. }
  constructor; unfold generations in *;
    cbn [closures heap state nextLoc subscribeCalls delivered].
  - intros g' c' Hc'.
    destruct (cancel_lookup_inv _ _ _ _ _ Hc')
      as (c0 & Hc0 & E1 & E2 & E3 & E4 & E5 & E6).
    rewrite E1, E2, E3. apply (inv_static w HI g' c0 Hc0).
  - intros g' k' Hin0.
    destruct (inv_calls w HI g' k' Hin0) as (c0 & Hc0 & Hk0).
    eexists. split; [by apply alter_lookup_fwd|].
    destruct (decide (g = g')); exact Hk0.
  - intros g' k' call' Hin0.
    destruct Hcase as [[_ ->]|(c & k & e & _ & _ & Hcall & _ & ->)].
    + by apply (inv_delivered w HI g' k' call').
    + apply elem_of_app in Hin0 as [Hin0|Hin0].
      * by apply (inv_delivered w HI g' k' call').
      * apply list_elem_of_singleton in Hin0. by injection Hin0 as -> -> ->.
  - intros g' c' Hc' Hact'.
    destruct (Hlive g' c' Hc' Hact') as (Hc0 & _).
    rewrite length_alter. by apply (inv_last w HI g' c').
  - intros g' c' Hc' He.
    destruct (cancel_lookup_inv _ _ _ _ _ Hc')
      as (c0 & Hc0 & E1 & E2 & E3 & E4 & E5 & E6).
    destruct (isSubscribed c') eqn:Hs'; [|done].
    destruct (E6 eq_refl) as (Hs0 & Hne & ->).
    rewrite <- Hs'. apply (inv_error w HI g' c0 Hc0).
    destruct He as (k' & e' & He).
    destruct Hcase as [[_ ->]|(c & k & e & _ & _ & _ & _ & ->)];
      [by exists k', e'|].
    apply elem_of_app in He as [He|He]; [by exists k', e'|].
    apply list_elem_of_singleton in He. by injection He as -> _ _.
  - intros g' c' Hc' Hact'.
    destruct (Hlive g' c' Hc' Hact') as (Hc0 & Hne & ->).
    destruct (inv_values w HI g' c' Hc0 Hact')
      as (m & Hm & Hdom & Hd & Hfree).
    exists m. split; [done|]. split; [done|]. split; [done|].
    intros Hno. destruct (Hfree Hno) as [Hsz Hem0]. split; [done|].
    intros k'. by rewrite Hem, Hem0.
  - intros l Hl. pose proof (inv_bound w HI l Hl). lia.
  - destruct Hcase as [[-> _]|(c & k & e & _ & _ & _ & -> & _)]; [|eauto].
    destruct (inv_state w HI) as [?|[?|(l & c & m & Hst & Hlast & Hl & Hd)]];
      [by left | by right; left |].
    right. right.
    destruct (last_alter_closure (cancel a) (closures w) g) as [Hl'|Hl'].
    + exists l, (cancel a c), m. by rewrite Hl', Hlast.
    + exists l, c, m. by rewrite Hl'.
  - intros g' c' Hc' Hact'.
    destruct (Hlive g' c' Hc' Hact') as (Hc0 & Hne & ->).
    apply (inv_progress w HI g' c' Hc0 Hact').
Qed.

Lemma Inv_unsubscribeAll g w : Inv w → Inv (unsubscribeAll g w).
Proof.
  intros HI. destruct (closures w !! g) as [c|] eqn:Hc.
  - rewrite (unsubscribeAll_eq g w c Hc). apply Inv_cancel; auto.
  - unfold unsubscribeAll. by rewrite Hc.
Qed.

Lemma Inv_invoke g k call w :
  Inv w → (g, k) ∈ subscribeCalls w → Inv (invoke g k call w).
Proof.
  intros HI Hcall.
  destruct (inv_calls w HI g k Hcall) as (c & Hc & Hk).
  destruct (isSubscribed c) eqn:Hs.
  - destruct call as [v|e|].
    + by apply (Inv_invoke_next g k v w c).
    + unfold invoke. rewrite (onError_live g e _ c) by done.
      cbn [log_delivered heap nextLoc closures state subscribeCalls
           unsubscribed delivered].
      apply Inv_cancel; [done|]. right. exists c, k, e.
      repeat split; try done. by apply (active_of_key c k).
    + apply Inv_log_delivered; auto.
  - rewrite (invoke_cancelled g k call w c) by done.
    apply Inv_log_delivered; eauto.
Qed.

(** * Callbacks only touch their own generation *)

Lemma by_callbacks_refl w : by_callbacks w w.
Proof.
  split; [done|]. split; [done|]. exists []. split; [by rewrite app_nil_r|].
  intros g c c' Hc Hc'. assert (c' = c) as -> by congruence.
  repeat split; try done. congruence.
Qed.

Lemma by_callbacks_trans w1 w2 w3 :
  by_callbacks w1 w2 → by_callbacks w2 w3 → by_callbacks w1 w3.
Proof.
  intros (Hs1 & Hl1 & d1 & Hd1 & H1) (Hs2 & Hl2 & d2 & Hd2 & H2).
  split; [congruence|]. split; [congruence|].
  exists (d1 ++ d2). split; [by rewrite Hd2, Hd1, app_assoc|].
  intros g c c'' Hc Hc''.
  destruct (closures w2 !! g) as [c'|] eqn:Hc'.
  2:{ apply lookup_ge_None in Hc'. apply lookup_lt_Some in Hc. lia. }
  destruct (H1 g c c' Hc Hc') as (K1 & O1 & L1 & E1).
  destruct (H2 g c' c'' Hc' Hc'') as (K2 & O2 & L2 & E2).
  split; [congruence|]. split; [congruence|]. split.
  - intros Hs. destruct (L2 Hs) as [Hs' Hsub]. destruct (L1 Hs') as [Hs0 Hsub'].
    split; congruence.
  - intros Hs Hs''. destruct (isSubscribed c') eqn:Hs'.
    + destruct (E2 eq_refl Hs'') as (k & e & He). exists k, e.
      apply elem_of_app. by right.
    + destruct (E1 Hs eq_refl) as (k & e & He). exists k, e.
      apply elem_of_app. by left.
Qed.

Lemma by_callbacks_invoke g k call w : by_callbacks w (invoke g k call w).
Proof.
  assert (Hlog : by_callbacks w (log_delivered (g, k) call w)).
  { split; [done|]. split; [done|]. exists [((g, k), call)]. split; [done|].
    intros g' c c' Hc Hc'. cbn in Hc'. assert (c' = c) as -> by congruence.
    repeat split; try done. congruence. }
  destruct (closures w !! g) as [c|] eqn:Hc.
  2:{ unfold invoke, onNext, onError, onComplete.
      cbn [log_delivered closures]. rewrite Hc. by destruct call. }
  destruct (isSubscribed c) eqn:Hs.
  2:{ by rewrite (invoke_cancelled g k call w c). }
  destruct call as [v|e|]; [| |done].
  - unfold invoke. rewrite (onNext_live g k v _ c) by done.
    cbn [log_delivered heap nextLoc closures state subscribeCalls
         unsubscribed delivered].
    set (n := nextCount _ c k). set (m := assign k v _).
    assert (Hcl : ∀ g' c0 c',
              closures w !! g' = Some c0 →
              alter (set_valueCount n) g (closures w) !! g' = Some c' →
              keys c' = keys c0 ∧ observablesObject c' = observablesObject c0
              ∧ isSubscribed c' = isSubscribed c0
              ∧ subscriptions c' = subscriptions c0).
    { intros g' c0 c' Hc0 Hc'.
      apply alter_lookup_inv in Hc' as (c1 & Hc1 & [[_ ->]|[-> ->]]);
        assert (c1 = c0) as -> by congruence; done. }
    destruct (n =? keyCount c);
      (split; [done|]; split; [by cbn; rewrite length_alter|];
       exists [((g, k), CNext v)]; split; [done|];
       intros g' c0 c' Hc0 Hc'; cbn in Hc';
       destruct (Hcl g' c0 c' Hc0 Hc') as (E1 & E2 & E3 & E4);
       repeat split; congruence).
  - unfold invoke. rewrite (onError_live g e _ c) by done.
    cbn [log_delivered heap nextLoc closures state subscribeCalls
         unsubscribed delivered arrays].
    rewrite cancel_alter.
    split; [done|]. split; [by cbn; rewrite length_alter|].
    exists [((g, k), CError e)]. split; [done|].
    intros g' c0 c' Hc0 Hc'. cbn in Hc'.
    apply alter_lookup_inv in Hc' as (c1 & Hc1 & [[Hne ->]|[-> ->]]);
      assert (c1 = c0) as -> by congruence.
    + repeat split; try done. congruence.
    + repeat split; try done. intros _ _. exists k, e.
      by apply list_elem_of_singleton.
Qed.

Lemma by_callbacks_invoke_all g k calls w :
  by_callbacks w (invoke_all g k calls w).
Proof.
  revert w. induction calls as [|call calls IH]; intros w.
  - apply by_callbacks_refl.
  - cbn. eapply by_callbacks_trans; [apply by_callbacks_invoke|apply IH].
Qed.

Lemma Inv_invoke_all g k calls w :
  Inv w → (g, k) ∈ subscribeCalls w → Inv (invoke_all g k calls w).
Proof.
  revert w. induction calls as [|call calls IH]; intros w HI Hin; [done|].
  cbn. apply IH; [by apply Inv_invoke|].
  destruct (by_callbacks_invoke g k call w) as [-> _]. done.
Qed.

Lemma by_callbacks_lookup w w' g c :
  by_callbacks w w' → closures w !! g = Some c →
  ∃ c', closures w' !! g = Some c'.
Proof.
  intros (_ & Hl & _) Hc. apply lookup_lt_is_Some.
  apply lookup_lt_Some in Hc. lia.
Qed.

Lemma by_callbacks_lookup_inv w w' g c' :
  by_callbacks w w' → closures w' !! g = Some c' →
  ∃ c, closures w !! g = Some c.
Proof.
  intros (_ & Hl & _) Hc. apply lookup_lt_is_Some.
  apply lookup_lt_Some in Hc. lia.
Qed.

Lemma by_callbacks_evolves w w' : by_callbacks w w' → evolves w w'.
Proof.
  intros Hcb g c Hc.
  destruct (by_callbacks_lookup w w' g c Hcb Hc) as [c' Hc'].
  destruct Hcb as (_ & _ & d & _ & H).
  destruct (H g c c' Hc Hc') as (K & _ & L & _).
  exists c'. repeat split; try done.
  intros Hs. destruct (isSubscribed c') eqn:Hs'; [|done].
  destruct (L eq_refl). congruence.
Qed.

(** * The effect keeps the invariants *)

Lemma cancelled_invoke g k call w :
  Inv w → (g, k) ∈ subscribeCalls w →
  cancelled_by_error w → cancelled_by_error (invoke g k call w).
Proof.
  intros HI Hin Hcan.
  destruct (inv_calls w HI g k Hin) as (c & Hc & Hk).
  assert (Hlog : cancelled_by_error (log_delivered (g, k) call w)).
  { intros g' c' Hc' Hlast Hk' Hs'.
    destruct (Hcan g' c' Hc' Hlast Hk' Hs') as [He Hst]. split; [|done].
    apply errored_log_delivered. by left. }
  destruct (isSubscribed c) eqn:Hs.
  2:{ by rewrite (invoke_cancelled g k call w c). }
  pose proof (inv_last w HI g c Hc (active_of_key c k Hs Hk)) as Hg.
  destruct call as [v|e|]; [| |done].
  - intros g' c' Hc' Hlast Hk' Hs'. exfalso.
    pose proof (by_callbacks_invoke g k (CNext v) w) as Hcb.
    destruct (by_callbacks_lookup_inv _ _ g' c' Hcb Hc') as [c0 Hc0].
    destruct Hcb as (_ & Hlen & d & Hd & H).
    destruct (H g' c0 c' Hc0 Hc') as (_ & _ & _ & E).
    unfold generations in *. assert (g' = g) as -> by lia.
    assert (c0 = c) as -> by congruence.
    destruct (E Hs Hs') as (k' & e' & He).
    unfold invoke in Hd. rewrite (onNext_live g k v _ c) in Hd by done.
    cbn zeta in Hd. destruct (_ =? _) in Hd; cbn in Hd;
      apply app_inv_head in Hd; subst d;
      by apply list_elem_of_singleton in He.
  - intros g' c' Hc' Hlast Hk' Hs'.
    unfold invoke in *. rewrite (onError_live g e _ c) in * by done.
    cbn in Hlast. unfold generations in *. cbn in Hlast.
    rewrite !length_alter in Hlast. assert (g' = g) as -> by lia.
    split; [|by exists e]. exists k, e. cbn. apply elem_of_app. right.
    by apply list_elem_of_singleton.
Qed.

Lemma cancelled_invoke_all g k calls w :
  Inv w → (g, k) ∈ subscribeCalls w →
  cancelled_by_error w → cancelled_by_error (invoke_all g k calls w).
Proof.
  revert w. induction calls as [|call calls IH]; intros w HI Hin Hcan; [done|].
  cbn. apply IH; [by apply Inv_invoke| |by apply cancelled_invoke].
  destruct (by_callbacks_invoke g k call w) as [-> _]. done.
Qed.

Lemma arrays_invoke g k call w :
  arrays (invoke g k call w) = arrays w
  ∨ ∃ c e, closures w !! g = Some c ∧ isSubscribed c = true
           ∧ call = CError e.
Proof.
  destruct (closures w !! g) as [c|] eqn:Hc.
  2:{ left. unfold invoke, onNext, onError, onComplete.
      cbn [log_delivered closures]. rewrite Hc. by destruct call. }
  destruct (isSubscribed c) eqn:Hs.
  2:{ left. by rewrite (invoke_cancelled g k call w c). }
  destruct call as [v|e|]; [|right; eauto|by left].
  left. unfold invoke. rewrite (onNext_live g k v _ c) by done. cbn zeta.
  by destruct (_ =? _).
Qed.

Lemma complete_invoke P g k call w :
  Inv w → (g, k) ∈ subscribeCalls w →
  complete_upto P w → complete_upto P (invoke g k call w).
Proof.
  intros HI Hin Hcomp g' c' k' Hc' Hs' Hin' HP.
  pose proof (by_callbacks_invoke g k call w) as Hcb.
  destruct (by_callbacks_lookup_inv _ _ g' c' Hcb Hc') as [c0 Hc0].
  destruct Hcb as (Hcalls & _ & d & _ & H).
  destruct (H g' c0 c' Hc0 Hc') as (_ & _ & L & _).
  destruct (L Hs') as [Hs0 Hsub]. rewrite Hcalls in Hin'.
  pose proof (Hcomp g' c0 k' Hc0 Hs0 Hin' HP) as Hmem.
  destruct (arrays_invoke g k call w) as [Harr|(c & e & Hc & Hs & ->)].
  - unfold array in *. by rewrite Harr, Hsub.
  - exfalso.
    destruct (inv_calls w HI g k Hin) as (c1 & Hc1 & Hk).
    assert (c1 = c) as -> by congruence.
    destruct (inv_calls w HI g' k' Hin') as (c2 & Hc2 & Hk').
    assert (c2 = c0) as -> by congruence.
    pose proof (inv_last w HI g c Hc (active_of_key c k Hs Hk)).
    pose proof (inv_last w HI g' c0 Hc0 (active_of_key c0 k' Hs0 Hk')).
    assert (g' = g) as -> by lia.
    unfold invoke in Hc'. rewrite (onError_live g e _ c) in Hc' by done.
    cbn in Hc'. rewrite cancel_alter in Hc'.
    rewrite alter_lookup_fwd with (c0 := c) in Hc' by done.
    rewrite decide_True in Hc' by done. injection Hc' as <-. done.
Qed.

Lemma complete_invoke_all P g k calls w :
  Inv w → (g, k) ∈ subscribeCalls w →
  complete_upto P w → complete_upto P (invoke_all g k calls w).
Proof.
  revert w. induction calls as [|call calls IH]; intros w HI Hin Hcomp; [done|].
  cbn. apply IH; [by apply Inv_invoke| |by apply complete_invoke].
  destruct (by_callbacks_invoke g k call w) as [-> _]. done.
Qed.

Lemma complete_upto_all w :
  complete_subscriptions w ↔ complete_upto (λ _, True) w.
Proof.
  split.
  - intros H g c k Hc Hs Hin _. by apply (H g c k).
  - intros H g c k Hc Hs Hin. by apply (H g c k).
Qed.

(** Only a generation with callbacks out has subscriptions to account
    for. *)
Lemma idle_complete w : Inv w → idle w → complete_subscriptions w.
Proof.
  intros HI Hidle g c k Hc Hs Hin. exfalso.
  destruct (inv_calls w HI g k Hin) as (c' & Hc' & Hk).
  assert (c' = c) as -> by congruence.
  apply (Hidle g c Hc). by apply (active_of_key c k).
Qed.

Lemma idle_by_callbacks w w' : by_callbacks w w' → idle w → idle w'.
Proof.
  intros Hcb Hidle g c' Hc' [Hs Hk].
  destruct (by_callbacks_lookup_inv w w' g c' Hcb Hc') as [c Hc].
  destruct Hcb as (_ & _ & d & _ & H).
  destruct (H g c c' Hc Hc') as (K & _ & L & _).
  destruct (L Hs) as [Hs0 _]. apply (Hidle g c Hc). split; congruence.
Qed.

Lemma evolves_refl w : evolves w w.
Proof. intros g c Hc. eauto. Qed.

Lemma evolves_trans w1 w2 w3 : evolves w1 w2 → evolves w2 w3 → evolves w1 w3.
Proof.
  intros H1 H2 g c Hc.
  destruct (H1 g c Hc) as (c' & Hc' & K1 & S1).
  destruct (H2 g c' Hc') as (c'' & Hc'' & K2 & S2).
  exists c''. repeat split; [done|congruence|auto].
Qed.

(** Pushing a handle touches no variable and no object. *)
Lemma Inv_array_push l h w : Inv w → Inv (array_push l h w).
Proof.
  intros HI. constructor.
  - apply (inv_static w HI).
  - apply (inv_calls w HI).
  - apply (inv_delivered w HI).
  - apply (inv_last w HI).
  - apply (inv_error w HI).
  - apply (inv_values w HI).
  - apply (inv_bound w HI).
  - apply (inv_state w HI).
  - apply (inv_progress w HI).
Qed.

Lemma array_push_lookup l h w l' :
  array (array_push l h w) l'
  = if decide (l = l') then array w l ++ [h] else array w l'.
Proof.
  unfold array_push, array. cbn. case_decide as Hl.
  - subst. by rewrite lookup_insert_eq.
  - by rewrite lookup_insert_ne.
Qed.

Lemma Inv_log_subscribe g k w c :
  Inv w → closures w !! g = Some c → k ∈ keys c →
  Inv (log_subscribe (g, k) w).
Proof.
  intros HI Hc Hk. constructor.
  - apply (inv_static w HI).
  - intros g' k' Hin. cbn in Hin. apply elem_of_app in Hin as [Hin|Hin].
    + by apply (inv_calls w HI).
    + apply list_elem_of_singleton in Hin. injection Hin as -> ->. eauto.
  - intros g' k' call Hin. cbn. apply elem_of_app. left.
    by apply (inv_delivered w HI g' k' call).
  - apply (inv_last w HI).
  - apply (inv_error w HI).
  - apply (inv_values w HI).
  - apply (inv_bound w HI).
  - apply (inv_state w HI).
  - apply (inv_progress w HI).
Qed.

Lemma signal_by_callbacks g key s w : by_callbacks w (signal g key s w).
Proof.
  unfold signal. case_bool_decide; [|apply by_callbacks_refl].
  destruct (closures w !! g) as [c|]; [|apply by_callbacks_refl].
  destruct (Adapter.result _); [apply by_callbacks_refl|].
  apply by_callbacks_invoke_all.
Qed.

Lemma Inv_signal g key s w : Inv w → Inv (signal g key s w).
Proof.
  intros HI. unfold signal. case_bool_decide; [|done].
  destruct (closures w !! g) as [c|]; [|done].
  destruct (Adapter.result _); [done|]. by apply Inv_invoke_all.
Qed.

Lemma complete_upto_signal P g key s w :
  Inv w → complete_upto P w → complete_upto P (signal g key s w).
Proof.
  intros HI Hcomp. unfold signal. case_bool_decide; [|done].
  destruct (closures w !! g) as [c|]; [|done].
  destruct (Adapter.result _); [done|].
  by apply complete_invoke_all.
Qed.

Lemma complete_signal g key s w :
  Inv w → complete_subscriptions w → complete_subscriptions (signal g key s w).
Proof.
  intros HI Hcomp. apply complete_upto_all, complete_upto_signal; [done|].
  by apply complete_upto_all.
Qed.

Lemma cancelled_signal g key s w :
  Inv w → cancelled_by_error w → cancelled_by_error (signal g key s w).
Proof.
  intros HI Hcan. unfold signal. case_bool_decide; [|done].
  destruct (closures w !! g) as [c|]; [|done].
  destruct (Adapter.result _); [done|]. by apply cancelled_invoke_all.
Qed.


(** * What happens while one source is being subscribed to *)

Lemma during_nil g key calls w :
  during g key [] calls w = invoke_all g key calls w.
Proof. reflexivity. Qed.

Lemma by_callbacks_during g key schedule calls w :
  by_callbacks w (during g key schedule calls w).
Proof.
  revert calls w. induction schedule as [|[|g' key' s] schedule IH];
    intros calls w; cbn [during].
  - apply by_callbacks_invoke_all.
  - destruct calls as [|c calls]; [apply IH|].
    eapply by_callbacks_trans; [apply by_callbacks_invoke | apply IH].
  - eapply by_callbacks_trans; [apply signal_by_callbacks | apply IH].
Qed.

Lemma Inv_during g key schedule calls w :
  Inv w → (g, key) ∈ subscribeCalls w → Inv (during g key schedule calls w).
Proof.
  revert calls w. induction schedule as [|[|g' key' s] schedule IH];
    intros calls w HI Hin; cbn [during].
  - by apply Inv_invoke_all.
  - destruct calls as [|c calls]; [by apply IH|].
    apply IH; [by apply Inv_invoke|].
    destruct (by_callbacks_invoke g key c w) as [-> _]. done.
  - apply IH; [by apply Inv_signal|].
    destruct (signal_by_callbacks g' key' s w) as [-> _]. done.
Qed.

Lemma cancelled_during g key schedule calls w :
  Inv w → (g, key) ∈ subscribeCalls w →
  cancelled_by_error w → cancelled_by_error (during g key schedule calls w).
Proof.
  revert calls w. induction schedule as [|[|g' key' s] schedule IH];
    intros calls w HI Hin Hcan; cbn [during].
  - by apply cancelled_invoke_all.
  - destruct calls as [|c calls]; [by apply IH|].
    apply IH; [by apply Inv_invoke| |by apply cancelled_invoke].
    destruct (by_callbacks_invoke g key c w) as [-> _]. done.
  - apply IH; [by apply Inv_signal| |by apply cancelled_signal].
    destruct (signal_by_callbacks g' key' s w) as [-> _]. done.
Qed.

Lemma complete_during P g key schedule calls w :
  Inv w → (g, key) ∈ subscribeCalls w →
  complete_upto P w → complete_upto P (during g key schedule calls w).
Proof.
  revert calls w. induction schedule as [|[|g' key' s] schedule IH];
    intros calls w HI Hin Hcomp; cbn [during].
  - by apply complete_invoke_all.
  - destruct calls as [|c calls]; [by apply IH|].
    apply IH; [by apply Inv_invoke| |by apply complete_invoke].
    destruct (by_callbacks_invoke g key c w) as [-> _]. done.
  - apply IH; [by apply Inv_signal| |by apply complete_upto_signal].
    destruct (signal_by_callbacks g' key' s w) as [-> _]. done.
Qed.

Lemma subscribeKey_eq g key w c :
  closures w !! g = Some c → isSubscribed c = true →
  subscribeKey g key w =
    let out := Adapter.subscribe (prop (observablesObject c) key) in
    let w' := during g key (sm_during (observablesObject c) key)
                (Adapter.calls out) (log_subscribe (g, key) w) in
    match Adapter.result out with
    | inl e => inl e
    | inr _ => inr (array_push (subscriptions c) (g, key) w')
    end.
Proof. intros Hc Hs. unfold subscribeKey. by rewrite Hc, Hs. Qed.

Lemma subscribeKey_skip g key w c :
  closures w !! g = Some c → isSubscribed c = false →
  subscribeKey g key w = inr w.
Proof. intros Hc Hs. unfold subscribeKey. by rewrite Hc, Hs. Qed.

Lemma subscribeKey_keeps g o key w w' :
  LoopInv g o w → key ∈ Object_keys o →
  subscribeKey g key w = inr w' →
  LoopInv g o w' ∧ evolves w w'
  ∧ length (closures w') = length (closures w)
  ∧ (∀ h, h ∈ subscribeCalls w' → h ∈ subscribeCalls w ∨ h = (g, key))
  ∧ (idle w → idle w').
Proof.
  intros [HI Hcomp Hcan (c & Hc & Ho)] Hkey Hrun.
  destruct (isSubscribed c) eqn:Hs.
  2:{ rewrite (subscribeKey_skip g key w c) in Hrun by done.
      injection Hrun as <-.
      split; [constructor; eauto|]. split; [apply evolves_refl|].
      split; [done|]. split; [by left|done]. }
  rewrite (subscribeKey_eq g key w c) in Hrun by done. cbn zeta in Hrun.
  destruct (Adapter.result _) as [e|via]; [done|]. injection Hrun as <-.
  set (out := Adapter.subscribe _).
  set (w1 := log_subscribe (g, key) w).
  set (w2 := during g key (sm_during (observablesObject c) key)
               (Adapter.calls out) w1).
  assert (Hk : key ∈ keys c).
  { destruct (inv_static w HI g c Hc) as [-> _]. by rewrite Ho. }
  assert (HI1 : Inv w1) by by apply (Inv_log_subscribe g key w c).
  assert (Hin1 : (g, key) ∈ subscribeCalls w1).
  { cbn. apply elem_of_app. right. by apply list_elem_of_singleton. }
  assert (HI2 : Inv w2) by by apply Inv_during.
  assert (Hcb : by_callbacks w1 w2) by apply by_callbacks_during.
  assert (Hcan2 : cancelled_by_error w2).
  { apply cancelled_during; [done|done|exact Hcan]. }
  assert (Hcomp2 : complete_upto (λ h, h ≠ (g, key)) w2).
  { apply complete_during; [done|done|].
    intros g' c' k' Hc' Hs' Hin' Hne. apply (Hcomp g' c' k' Hc' Hs').
    cbn in Hin'. apply elem_of_app in Hin' as [?|Hin']; [done|].
    by apply list_elem_of_singleton in Hin'. }
  split; [constructor|].
  - by apply Inv_array_push.
  - intros g' c3 k' Hc3 Hs3 Hin3. rewrite array_push_lookup.
    destruct (decide ((g', k') = (g, key))) as [[= -> ->]|Hne].
    + destruct Hcb as (_ & _ & d & _ & H).
      destruct (H g c c3 Hc Hc3) as (_ & _ & L & _).
      destruct (L Hs3) as [_ ->]. rewrite decide_True by done.
      apply elem_of_app. right. by apply list_elem_of_singleton.
    + pose proof (Hcomp2 g' c3 k' Hc3 Hs3 Hin3 Hne) as Hmem.
      case_decide as Hl; [|done]. rewrite <- Hl in Hmem.
      apply elem_of_app. by left.
  - exact Hcan2.
  - destruct (by_callbacks_lookup w1 w2 g c Hcb Hc) as [c2 Hc2].
    exists c2. split; [done|].
    destruct Hcb as (_ & _ & d & _ & H).
    destruct (H g c c2 Hc Hc2) as (_ & O & _). congruence.
  - split; [exact (by_callbacks_evolves w1 w2 Hcb)|].
    split; [by destruct Hcb as (_ & Hlen & _)|].
    split.
    { intros h Hh. destruct Hcb as (Hcalls & _). cbn in Hh.
      rewrite Hcalls in Hh. cbn in Hh.
      apply elem_of_app in Hh as [?|Hh]; [by left|].
      right. by apply list_elem_of_singleton in Hh. }
    intros Hidle. exfalso. apply (Hidle g c Hc).
    by apply (active_of_key c key).
Qed.

Lemma forEach_keeps g o ks w w' :
  LoopInv g o w → (∀ k, k ∈ ks → k ∈ Object_keys o) →
  forEach ks (subscribeKey g) w = inr w' →
  LoopInv g o w' ∧ evolves w w'
  ∧ length (closures w') = length (closures w)
  ∧ (∀ h, h ∈ subscribeCalls w' → h ∈ subscribeCalls w ∨ h.1 = g).
Proof.
  revert w. induction ks as [|k ks IH]; intros w HL Hks Hrun.
  - injection Hrun as <-. split; [done|]. split; [apply evolves_refl|].
    split; [done|]. by left.
  - cbn in Hrun. destruct (subscribeKey g k w) as [e|w1] eqn:Hk; [done|].
    destruct (subscribeKey_keeps g o k w w1 HL) as (HL1 & Hev1 & Hlen1 & Hc1 & _);
      [apply Hks; by left | done |].
    destruct (IH w1 HL1) as (HL' & Hev' & Hlen' & Hc');
      [intros k' Hk'; apply Hks; by right | done |].
    split; [done|]. split; [by apply (evolves_trans w w1 w')|].
    split; [congruence|].
    intros h Hh. destruct (Hc' h Hh) as [Hh1 | Hg]; [|by right].
    destruct (Hc1 h Hh1) as [Hh0 | ->]; [by left | by right].
Qed.

Lemma begin_lookup_inv o w g c :
  closures (begin o w) !! g = Some c →
  closures w !! g = Some c
  ∨ (g = length (closures w)
     ∧ c = mkClosure true (nextLoc w) (S (nextLoc w)) 0 o (Object_keys o)
             (length (Object_keys o))).
Proof.
  unfold begin. cbn. intros Hc. apply lookup_snoc_Some in Hc.
  destruct Hc as [[_ Hold]|[Hg Hnew]]; auto.
Qed.

Lemma begin_lookup_old o w g c :
  closures w !! g = Some c → closures (begin o w) !! g = Some c.
Proof.
  intros Hc. unfold begin. cbn. rewrite lookup_app_l; [done|].
  by apply lookup_lt_Some in Hc.
Qed.

Lemma begin_lookup_new o w :
  closures (begin o w) !! length (closures w)
  = Some (mkClosure true (nextLoc w) (S (nextLoc w)) 0 o (Object_keys o)
            (length (Object_keys o))).
Proof. unfold begin. cbn. by rewrite list_lookup_middle. Qed.

Lemma no_calls_beyond w g k :
  Inv w → (g, k) ∈ subscribeCalls w → g < length (closures w).
Proof.
  intros HI Hin. destruct (inv_calls w HI g k Hin) as (c & Hc & _).
  by apply lookup_lt_Some in Hc.
Qed.

Lemma no_delivery_beyond w g k call :
  Inv w → ((g, k), call) ∈ delivered w → g < length (closures w).
Proof.
  intros HI Hin. apply (no_calls_beyond w g k HI).
  by apply (inv_delivered w HI g k call).
Qed.

Lemma Inv_begin o w : Inv w → idle w → Inv (begin o w).
Proof.
  intros HI Hidle.
  assert (Hnew : ∀ g c, closures (begin o w) !! g = Some c → active c →
            g = length (closures w)
            ∧ c = mkClosure true (nextLoc w) (S (nextLoc w)) 0 o
                    (Object_keys o) (length (Object_keys o))).
  { intros g c Hc Hact.
    destruct (begin_lookup_inv o w g c Hc) as [Hold|?]; [|done].
    by destruct (Hidle g c Hold). }
  constructor.
  - intros g c Hc. destruct (begin_lookup_inv o w g c Hc) as [Hold|[_ ->]].
    + by apply (inv_static w HI g c).
    + done.
  - intros g k Hin. destruct (inv_calls w HI g k Hin) as (c & Hc & Hk).
    exists c. split; [by apply begin_lookup_old|done].
  - apply (inv_delivered w HI).
  - intros g c Hc Hact. destruct (Hnew g c Hc Hact) as [-> _].
    unfold generations, begin. cbn. rewrite length_app. cbn. lia.
  - intros g c Hc (k & e & He).
    destruct (begin_lookup_inv o w g c Hc) as [Hold|[-> _]].
    + apply (inv_error w HI g c Hold). by exists k, e.
    + apply (no_delivery_beyond w _ k (CError e) HI) in He. lia.
  - intros g c Hc Hact. destruct (Hnew g c Hc Hact) as [-> ->].
    exists ∅. cbn. split; [by rewrite lookup_insert_eq|].
    split; [set_solver|]. split; [done|]. intros _. split; [done|].
    intros k. split; [set_solver|]. intros [v Hv].
    apply (no_delivery_beyond w _ k (CNext v) HI) in Hv. lia.
  - intros l Hl. cbn in *.
    destruct (decide (l = S (nextLoc w))) as [->|Hne]; [lia|].
    rewrite lookup_insert_ne in Hl by done.
    pose proof (inv_bound w HI l Hl). lia.
  - by left.
  - intros g c Hc Hact _. destruct (Hnew g c Hc Hact) as [-> ->].
    destruct Hact as [_ Hk]. cbn in *.
    rewrite decide_False; [done|].
    destruct (Object_keys o); [done|]. cbn. lia.
Qed.

Lemma complete_begin o w :
  Inv w → idle w → complete_subscriptions (begin o w).
Proof.
  intros HI Hidle g c k Hc Hs Hin. exfalso.
  destruct (begin_lookup_inv o w g c Hc) as [Hold|[-> _]].
  - destruct (inv_calls w HI g k Hin) as (c' & Hc' & Hk).
    assert (c' = c) as -> by congruence.
    apply (Hidle g c Hold). by apply (active_of_key c k).
  - apply (no_calls_beyond w _ k HI) in Hin. lia.
Qed.

Lemma cancelled_begin o w : cancelled_by_error (begin o w).
Proof.
  intros g c Hc Hlast Hk Hs.
  destruct (begin_lookup_inv o w g c Hc) as [Hold|[_ ->]]; [|done].
  apply lookup_lt_Some in Hold.
  unfold generations, begin in Hlast. cbn in Hlast.
  rewrite length_app in Hlast. cbn in Hlast. lia.
Qed.

Lemma evolves_begin o w : evolves w (begin o w).
Proof.
  intros g c Hc. exists c. split; [by apply begin_lookup_old|done].
Qed.

(** The empty-map branch. *)
Lemma Inv_publish_empty w c :
  Inv w → idle w → last (closures w) = Some c → keys c = [] →
  Inv (publish_empty w).
Proof.
  intros HI Hidle Hlast Hk. constructor.
  - apply (inv_static w HI).
  - apply (inv_calls w HI).
  - apply (inv_delivered w HI).
  - intros g c' Hc' Hact. by destruct (Hidle g c' Hc').
  - apply (inv_error w HI).
  - intros g c' Hc' Hact. by destruct (Hidle g c' Hc').
  - intros l Hl. cbn in *.
    destruct (decide (l = nextLoc w)) as [->|Hne]; [lia|].
    rewrite lookup_insert_ne in Hl by done.
    pose proof (inv_bound w HI l Hl). lia.
  - right. right. exists (nextLoc w), c, ∅. cbn.
    split; [done|]. split; [done|]. split; [by rewrite lookup_insert_eq|].
    rewrite Hk. set_solver.
  - intros g c' Hc' Hact. by destruct (Hidle g c' Hc').
Qed.

Lemma effect_eq o w :
  effect o w =
    if length (Object_keys o) =? 0
    then inr (None, publish_empty (begin o w))
    else match forEach (Object_keys o) (subscribeKey (length (closures w)))
                 (begin o w) with
         | inl e => inl e
         | inr w' => inr (Some (length (closures w)), w')
         end.
Proof. reflexivity. Qed.

Lemma effect_keeps o w cl w' :
  Inv w → idle w →
  effect o w = inr (cl, w') →
  Inv w' ∧ complete_subscriptions w' ∧ cancelled_by_error w'
  ∧ evolves w w'
  ∧ generations w' = S (generations w)
  ∧ (∀ g, cl = Some g → S g = generations w')
  ∧ (cl = None → idle w')
  ∧ (∃ c, closures w' !! generations w = Some c ∧ observablesObject c = o).
Proof.
  intros HI Hidle. rewrite effect_eq.
  pose proof (Inv_begin o w HI Hidle) as HIb.
  pose proof (complete_begin o w HI Hidle) as Hcb.
  pose proof (cancelled_begin o w) as Hcan.
  pose proof (begin_lookup_new o w) as Hnew.
  assert (Hlenb : length (closures (begin o w)) = S (length (closures w))).
  { unfold begin. cbn. rewrite length_app. cbn. lia. }
  destruct (length (Object_keys o) =? 0) eqn:Hempty.
  - apply Nat.eqb_eq, nil_length_inv in Hempty.
    intros [= <- <-].
    assert (Hidleb : idle (begin o w)).
    { intros g c Hc Hact.
      destruct (begin_lookup_inv o w g c Hc) as [Hold|[_ ->]].
      - exact (Hidle g c Hold Hact).
      - destruct Hact as [_ Hk]. by apply Hk. }
    split.
    { eapply Inv_publish_empty; [done|done| |].
      - rewrite last_lookup, Hlenb. cbn. exact Hnew.
      - done. }
    split; [exact Hcb|]. split.
    { intros g c Hc Hlast Hk Hs. exfalso.
      unfold generations in Hlast. cbn in Hc, Hlast. rewrite length_app in Hlast.
      cbn in Hlast. assert (g = length (closures w)) as -> by lia.
      change (closures (begin o w) !! length (closures w) = Some c) in Hc.
      rewrite Hnew in Hc. injection Hc as <-. by apply Hk. }
    split; [apply evolves_begin|]. split; [exact Hlenb|].
    split; [done|]. split; [intros _; exact Hidleb|].
    eexists. split; [exact Hnew|done].
  - destruct (forEach _ _ _) as [e|w1] eqn:Hloop; [done|].
    intros [= <- <-].
    destruct (forEach_keeps (length (closures w)) o (Object_keys o)
                (begin o w) w1) as ([HI1 Hc1 Hcan1 Hcl1] & Hev & Hlen & _);
      [constructor; eauto | done | done |].
    split; [done|]. split; [done|]. split; [done|].
    split; [by apply (evolves_trans w (begin o w) w1), Hev; apply evolves_begin|].
    split; [unfold generations; congruence|].
    split; [intros g [= <-]; unfold generations; congruence|].
    split; [done|]. exact Hcl1.
Qed.

Lemma unsubscribeAll_lookup_inv g w g' c' :
  closures (unsubscribeAll g w) !! g' = Some c' →
  ∃ c0, closures w !! g' = Some c0
    ∧ keys c' = keys c0
    ∧ (isSubscribed c' = true →
       isSubscribed c0 = true ∧ g' ≠ g ∧ c' = c0).
Proof.
  intros Hc'. destruct (closures w !! g) as [c|] eqn:Hc.
  - rewrite (unsubscribeAll_eq g w c Hc), cancel_alter in Hc'. cbn in Hc'.
    destruct (cancel_lookup_inv _ _ _ _ _ Hc')
      as (c0 & Hc0 & E1 & _ & _ & _ & _ & E6).
    eauto.
  - unfold unsubscribeAll in Hc'. rewrite Hc in Hc'.
    exists c'. repeat split; try done. congruence.
Qed.

Lemma unsubscribeAll_length g w :
  length (closures (unsubscribeAll g w)) = length (closures w).
Proof.
  destruct (closures w !! g) as [c|] eqn:Hc.
  - rewrite (unsubscribeAll_eq g w c Hc). cbn. by rewrite !length_alter.
  - unfold unsubscribeAll. by rewrite Hc.
Qed.


Lemma evolves_unsubscribeAll g w : evolves w (unsubscribeAll g w).
Proof.
  intros g' c0 Hc0.
  assert (is_Some (closures (unsubscribeAll g w) !! g')) as [c' Hc'].
  { apply lookup_lt_is_Some. rewrite unsubscribeAll_length.
    by apply lookup_lt_Some in Hc0. }
  destruct (unsubscribeAll_lookup_inv g w g' c' Hc') as (c1 & Hc1 & K & L).
  assert (c1 = c0) as -> by congruence.
  exists c'. repeat split; try done.
  intros Hs. destruct (isSubscribed c') eqn:Hs'; [|done].
  destruct (L eq_refl). congruence.
Qed.

Lemma idle_unsubscribeAll g w :
  Inv w → S g = generations w → idle (unsubscribeAll g w).
Proof.
  intros HI Hg g' c' Hc' [Hs Hk].
  destruct (unsubscribeAll_lookup_inv g w g' c' Hc') as (c0 & Hc0 & K & L).
  destruct (L Hs) as (Hs0 & Hne & ->).
  pose proof (inv_last w HI g' c0 Hc0 (conj Hs0 Hk)). lia.
Qed.


Lemma Inv_reserve w : Inv w → Inv (reserve w).2.
Proof.
  intros HI. constructor; try apply HI.
  intros l Hl. cbn in *. pose proof (inv_bound w HI l Hl). lia.
Qed.

(** * The hook as a whole *)

Lemma useObservables_eq props triggerProps getObservables h :
  useObservables props triggerProps getObservables h =
    let w := (reserve (reserve (engine h)).2).2 in
    let ref := evaluatedRef h props triggerProps in
    let o := evaluatedObservables h props triggerProps getObservables in
    if effectReruns h props triggerProps getObservables then
      match effect o (runCleanup (cleanup h) w) with
      | inl e => inl e
      | inr (c, w') =>
          inr (state (engine h),
               mkHost w' (Some ref) (Some (aid ref, o)) (Some (sm_id o)) c
                      (mounted h))
      end
    else
      inr (state (engine h),
           mkHost w (Some ref) (Some (aid ref, o)) (Some (sm_id o))
                  (cleanup h) (mounted h)).
Proof.
  unfold useObservables, effectReruns, evaluatedObservables, evaluatedRef.
  cbn [reserve fst snd nextLoc]. 
  destruct (prevTriggerPropsRef h) as [a|]; cbn [default from_option];
    destruct (negb _); destruct (memo h) as [[deps cached]|];
    destruct (effectDeps h); reflexivity.
Qed.

Lemma Inv_initial : Inv initialEngine.
Proof.
  constructor.
  - intros g c Hc. cbn in Hc. by rewrite lookup_nil in Hc.
  - intros g k Hin. cbn in Hin. by apply elem_of_nil in Hin.
  - intros g k call Hin. cbn in Hin. by apply elem_of_nil in Hin.
  - intros g c Hc. cbn in Hc. by rewrite lookup_nil in Hc.
  - intros g c Hc. cbn in Hc. by rewrite lookup_nil in Hc.
  - intros g c Hc. cbn in Hc. by rewrite lookup_nil in Hc.
  - intros l [m Hl]. cbn in Hl. by rewrite lookup_empty in Hl.
  - by left.
  - intros g c Hc. cbn in Hc. by rewrite lookup_nil in Hc.
Qed.

Lemma HInv_initial : HInv initialHost.
Proof.
  constructor.
  - apply Inv_initial.
  - done.
  - intros _ g c Hc. cbn in Hc. by rewrite lookup_nil in Hc.
  - intros g c k Hc. cbn in Hc. by rewrite lookup_nil in Hc.
  - intros _ g c Hc. cbn in Hc. by rewrite lookup_nil in Hc.
  - done.
Qed.

Lemma runCleanup_keeps cl w :
  Inv w →
  (∀ g, cl = Some g → S g = generations w) → (cl = None → idle w) →
  Inv (runCleanup cl w) ∧ idle (runCleanup cl w)
  ∧ complete_subscriptions (runCleanup cl w)
  ∧ evolves w (runCleanup cl w)
  ∧ generations (runCleanup cl w) = generations w.
Proof.
  intros HI Hsome Hnone.
  assert (Hmain : Inv (runCleanup cl w) ∧ idle (runCleanup cl w)
                  ∧ evolves w (runCleanup cl w)
                  ∧ generations (runCleanup cl w) = generations w).
  { destruct cl as [g|]; cbn [runCleanup].
    - split; [by apply Inv_unsubscribeAll|].
      split; [apply idle_unsubscribeAll; auto|].
      split; [apply evolves_unsubscribeAll|].
      apply unsubscribeAll_length.
    - split; [done|]. split; [by apply Hnone|].
      split; [apply evolves_refl|done]. }
  destruct Hmain as (H1 & H2 & H3 & H4).
  split; [done|]. split; [done|]. split; [by apply idle_complete|done].
Qed.

Lemma HInv_useObservables props triggerProps getObservables h s h' :
  HInv h → mounted h = true →
  useObservables props triggerProps getObservables h = inr (s, h') →
  HInv h' ∧ s = state (engine h) ∧ evolves (engine h) (engine h')
  ∧ mounted h' = true.
Proof.
  intros [HI Hcl Hncl Hcomp Hcan Hun] Hm. rewrite useObservables_eq. cbn zeta.
  specialize (Hcan Hm).
  set (w := (reserve (reserve (engine h)).2).2).
  assert (HIw : Inv w) by (by apply Inv_reserve, Inv_reserve).
  destruct (effectReruns _ _ _ _).
  - destruct (runCleanup_keeps (cleanup h) w HIw Hcl Hncl)
      as (HI1 & Hidle1 & Hcomp1 & Hev1 & Hlen1).
    destruct (effect _ _) as [e|[c w']] eqn:Heff; [done|].
    intros [= <- <-].
    destruct (effect_keeps _ _ c w' HI1 Hidle1 Heff)
      as (HI' & Hcomp' & Hcan' & Hev' & Hlen' & Hcl' & Hncl' & _).
    split; [constructor; cbn; try done; congruence|].
    split; [done|]. split; [|done].
    apply (evolves_trans (engine h) (runCleanup (cleanup h) w) w');
      [exact Hev1 | exact Hev'].
  - intros [= <- <-]. split; [constructor; cbn; try done; congruence|].
    split; [done|].
    split; [|done]. intros g c Hc. exists c. by split.
Qed.

Lemma HInv_signal g key s h :
  HInv h → HInv (with_engine (signal g key s (engine h)) h).
Proof.
  intros [HI Hcl Hncl Hcomp Hcan Hun].
  pose proof (signal_by_callbacks g key s (engine h)) as Hcb.
  constructor; cbn.
  - by apply Inv_signal.
  - intros g' Hg'. unfold generations. destruct Hcb as (_ & -> & _).
    by apply Hcl.
  - intros Hnone. apply (idle_by_callbacks _ _ Hcb). by apply Hncl.
  - by apply complete_signal.
  - intros Hm. apply cancelled_signal; [done|]. by apply Hcan.
  - done.
Qed.

Lemma HInv_unmount h : HInv h → HInv (unmount h).
Proof.
  intros [HI Hcl Hncl Hcomp Hcan Hun].
  destruct (runCleanup_keeps (cleanup h) (engine h) HI Hcl Hncl)
    as (HI1 & Hidle1 & Hcomp1 & Hev1 & Hlen1).
  by constructor.
Qed.

Lemma HInv_step h ev h' : HInv h → step h ev = inr h' → HInv h'.
Proof.
  intros HH. destruct ev as [props tp f|g key s|]; unfold step.
  - destruct (mounted h) eqn:Hm; [|by intros [= <-]].
    destruct (useObservables props tp f h) as [e|[s h1]] eqn:Hu; [done|].
    intros [= <-].
    by destruct (HInv_useObservables props tp f h s h1 HH Hm Hu).
  - intros [= <-]. by apply HInv_signal.
  - destruct (mounted h); intros [= <-]; [by apply HInv_unmount|done].
Qed.

Lemma HInv_run h evs h' : HInv h → run h evs = inr h' → HInv h'.
Proof.
  revert h. induction evs as [|ev evs IH]; intros h HH; cbn.
  - by intros [= <-].
  - destruct (step h ev) as [e|h1] eqn:Hs; [done|].
    apply IH. by apply (HInv_step h ev).
Qed.

Lemma HInv_reachable evs h : run initialHost evs = inr h → HInv h.
Proof. apply HInv_run, HInv_initial. Qed.

(** * Generations across events *)

Lemma evolves_step h ev h' :
  HInv h → step h ev = inr h' → evolves (engine h) (engine h').
Proof.
  intros HH. destruct ev as [props tp f|g key s|]; unfold step.
  - destruct (mounted h) eqn:Hm; [|intros [= <-]; apply evolves_refl].
    destruct (useObservables props tp f h) as [e|[s h1]] eqn:Hu; [done|].
    intros [= <-].
    by destruct (HInv_useObservables props tp f h s h1 HH Hm Hu) as (_ & _ & ? & _).
  - intros [= <-]. apply by_callbacks_evolves, signal_by_callbacks.
  - destruct (mounted h); intros [= <-]; [|apply evolves_refl].
    destruct HH as [HI Hcl Hncl Hcomp Hcan Hun].
    by destruct (runCleanup_keeps (cleanup h) (engine h) HI Hcl Hncl)
      as (_ & _ & _ & ? & _).
Qed.

Lemma evolves_run h evs h' :
  HInv h → run h evs = inr h' → evolves (engine h) (engine h').
Proof.
  revert h. induction evs as [|ev evs IH]; intros h HH; cbn.
  - intros [= <-]. apply evolves_refl.
  - destruct (step h ev) as [e|h1] eqn:Hs; [done|]. intros Hrun.
    apply (evolves_trans _ (engine h1)).
    + by apply (evolves_step h ev).
    + apply IH; [by apply (HInv_step h ev)|done].
Qed.

(** A generation that is superseded, errored or torn down no longer
    accepts emissions, or never handed out a callback. *)
Lemma stale_is_quiet h g c :
  HInv h → closures (engine h) !! g = Some c →
  S g < generations (engine h) ∨ errored (engine h) g ∨ mounted h = false →
  isSubscribed c = false ∨ keys c = [].
Proof.
  intros [HI Hcl Hncl Hcomp Hcan Hun] Hc Hstale.
  destruct (isSubscribed c) eqn:Hs; [|by left].
  destruct (decide (keys c = [])) as [|Hk]; [by right|]. exfalso.
  destruct Hstale as [Hlt|[He|Hm]].
  - pose proof (inv_last _ HI g c Hc (conj Hs Hk)). lia.
  - pose proof (inv_error _ HI g c Hc He). congruence.
  - apply (Hncl (Hun Hm) g c Hc). by split.
Qed.

(** A callback of a quiet generation changes nothing but the log of
    deliveries. *)
Lemma quiet_invoke w g c key call :
  Inv w → closures w !! g = Some c →
  isSubscribed c = false ∨ keys c = [] →
  (g, key) ∈ subscribeCalls w →
  invoke g key call w = log_delivered (g, key) call w.
Proof.
  intros HI Hc [Hs|Hk] Hin.
  - by apply (invoke_cancelled g key call w c).
  - destruct (inv_calls w HI g key Hin) as (c' & Hc' & Hin').
    assert (c' = c) as -> by congruence. rewrite Hk in Hin'.
    by apply elem_of_nil in Hin'.
Qed.

(** C1. Once generation [g] has been superseded by a later generation, has
    seen one of its sources fire the error channel, or has been torn down
    with the hook, every later invocation of one of its callbacks leaves
    the published state, the heap (so also the published data) and the
    variables of every generation unchanged: only the log of deliveries
    records it. *)
Theorem stale_generation_is_ignored
    (evs : list Event) (h : Host) (g : nat)
    (evs' : list Event) (h' : Host) (key : string) (call : Call)
    (Hreach : run initialHost evs = inr h)
    (Hgen : g < generations (engine h))
    (Hstale : S g < generations (engine h) ∨ errored (engine h) g
              ∨ mounted h = false)
    (Hlater : run h evs' = inr h')
    (Hcallback : (g, key) ∈ subscribeCalls (engine h')) :
  let w' := invoke g key call (engine h') in
  state w' = state (engine h')
  ∧ heap w' = heap (engine h')
  ∧ closures w' = closures (engine h')
  ∧ unsubscribed w' = unsubscribed (engine h').
Proof.
  pose proof (HInv_reachable evs h Hreach) as HH.
  pose proof (HInv_run h evs' h' HH Hlater) as HH'.
  destruct (lookup_lt_is_Some_2 (closures (engine h)) g Hgen) as [c Hc].
  pose proof (stale_is_quiet h g c HH Hc Hstale) as Hq.
  destruct (evolves_run h evs' h' HH Hlater g c Hc) as (c' & Hc' & Hk & Hs).
  assert (Hq' : isSubscribed c' = false ∨ keys c' = []).
  { destruct Hq as [?|?]; [left; auto|right; congruence]. }
  cbn zeta.
  rewrite (quiet_invoke (engine h') g c' key call (hinv_engine h' HH') Hc' Hq')
    by done.
  done.
Qed.

Lemma stale_generation_is_ignored_witness :
  state (invoke 0 "ok" (CNext (VStr "late")) (engine after_sync_error))
  = Errored "boom".
Proof.
  apply (stale_generation_is_ignored
           [Evaluate ∅ None (λ _, failing_map)] after_sync_error 0
           [] after_sync_error "ok" (CNext (VStr "late"))).
  - vm_compute. reflexivity.
  - vm_compute. lia.
  - right. left. exists "failing", "boom". vm_compute.
    apply list_elem_of_In. cbn. auto.
  - reflexivity.
  - vm_compute. apply list_elem_of_In. cbn. auto.
Defined.

Lemma HInv_invoke g key call h :
  HInv h → (g, key) ∈ subscribeCalls (engine h) →
  HInv (with_engine (invoke g key call (engine h)) h).
Proof.
  intros [HI Hcl Hncl Hcomp Hcan Hun] Hin.
  pose proof (by_callbacks_invoke g key call (engine h)) as Hcb.
  constructor; cbn.
  - by apply Inv_invoke.
  - intros g' Hg'. unfold generations. destruct Hcb as (_ & -> & _).
    by apply Hcl.
  - intros Hnone. apply (idle_by_callbacks _ _ Hcb). by apply Hncl.
  - apply complete_upto_all, complete_invoke; [done|done|].
    by apply complete_upto_all.
  - intros Hm. apply cancelled_invoke; [done|done|]. by apply Hcan.
  - done.
Qed.

(** C3. An error that leaves a live subscription open.  In
    [entangled_map] subscribing to ["b"] makes the producer behind ["a"],
    attached already, fire its error channel.  The handler runs while
    [subscribe] for ["b"] has not returned: it invokes the one handle the
    array holds and lets go of the array; the handle of ["b"] is pushed
    onto that abandoned array afterwards.  The state is the error, the
    source under ["b"] has been subscribed to and has not errored, and its
    handle is not invoked, neither then nor when the hook is removed. *)
Theorem error_during_subscribe_leaves_a_handle :
  ∃ h h',
    run initialHost [Evaluate ∅ None (λ _, entangled_map)] = inr h
    ∧ state (engine h) = Errored "boom"
    ∧ subscribeCalls (engine h) = [(0, "a"); (0, "b")]
    ∧ delivered (engine h) = [((0, "a"), CError "boom")]
    ∧ unsubscribed (engine h) = [(0, "a")]
    ∧ arrays (engine h) !! 2 = Some [(0, "a"); (0, "b")]
    ∧ (subscriptions <$> closures (engine h)) = [4]
    ∧ arrays (engine h) !! 4 = Some []
    ∧ run h [Unmount] = inr h'
    ∧ unsubscribed (engine h') = [(0, "a")].
Proof.
  eexists _, _. split; [vm_compute; reflexivity|].
  split; [reflexivity|]. split; [reflexivity|]. split; [reflexivity|].
  split; [reflexivity|]. split; [vm_compute; reflexivity|].
  split; [reflexivity|]. split; [vm_compute; reflexivity|].
  split; [vm_compute; reflexivity|]. vm_compute. reflexivity.
Qed.

(** X24. When a source of a generation that still accepts emissions fires
    its error channel with [e], the handler publishes exactly
    [{isLoading: false, data: null, error: e}] and invokes every handle in
    the generation's array, whichever key the error came from, and leaves
    the generation with a new, empty array.  When the error arrives between
    two events of the hook (not while the effect is subscribing), that
    array holds every subscription the generation opened, so that all of
    them are closed, and afterwards no callback of that generation changes
    the state or the heap any more. *)
Theorem error_cancels_generation
    (w : Engine) (g : nat) (c : Closure) (key : string) (e : Err)
    (Hclosure : closures w !! g = Some c)
    (Hlive : isSubscribed c = true) :
  let w' := invoke g key (CError e) w in
  state w' = Errored e
  ∧ unsubscribed w' = unsubscribed w ++ array w (subscriptions c)
  ∧ (∃ c', closures w' !! g = Some c' ∧ isSubscribed c' = false
           ∧ array w' (subscriptions c') = [])
  ∧ ∀ evs h,
      run initialHost evs = inr h → engine h = w →
      (g, key) ∈ subscribeCalls w →
      (∀ k, (g, k) ∈ subscribeCalls w → (g, k) ∈ unsubscribed w')
      ∧ ∀ evs' h' key' call,
          run (with_engine w' h) evs' = inr h' →
          (g, key') ∈ subscribeCalls (engine h') →
          state (invoke g key' call (engine h')) = state (engine h')
          ∧ heap (invoke g key' call (engine h')) = heap (engine h').
Proof.
  cbn zeta.
  assert (Hc1 : closures (invoke g key (CError e) w) !! g
                = Some (cancel (nextLoc w) c)).
  { unfold invoke. rewrite (onError_live g e _ c) by done. cbn.
    rewrite cancel_alter, alter_lookup_fwd with (c0 := c) by done.
    by rewrite decide_True. }
  assert (Hu : unsubscribed (invoke g key (CError e) w)
               = unsubscribed w ++ array w (subscriptions c)).
  { unfold invoke. by rewrite (onError_live g e _ c). }
  split; [unfold invoke; by rewrite (onError_live g e _ c)|].
  split; [done|]. split.
  { exists (cancel (nextLoc w) c). split; [done|]. split; [done|].
    unfold invoke. rewrite (onError_live g e _ c) by done.
    unfold array. cbn. by rewrite lookup_insert_eq. }
  intros evs h Hreach <- Hin.
  pose proof (HInv_reachable evs h Hreach) as HH.
  split.
  - intros k Hk. rewrite Hu. apply elem_of_app. right.
    by apply (hinv_subscriptions h HH g c k).
  - intros evs' h' key' call Hrun Hin'.
    pose proof (HInv_invoke g key (CError e) h HH Hin) as HH1.
    pose proof (HInv_run _ evs' h' HH1 Hrun) as HH'.
    destruct (evolves_run _ evs' h' HH1 Hrun g _ Hc1)
      as (c' & Hc' & _ & Hs').
    rewrite (invoke_cancelled g key' call (engine h') c'); auto.
Qed.

Lemma error_cancels_generation_witness :
  state (invoke 0 "second" (CError "late") (engine waiting)) = Errored "late"
  ∧ unsubscribed (invoke 0 "second" (CError "late") (engine waiting))
    = [(0, "first"); (0, "second")].
Proof.
  pose proof (error_cancels_generation (engine waiting) 0
                (mkClosure true 2 3 1 two_sources ["first"; "second"] 2)
                "second" "late" eq_refl eq_refl) as (Hs & Hu & _).
  split; [exact Hs | exact Hu].
Defined.

(** * The published state *)

Lemma useObservables_returns props triggerProps getObservables h s h' :
  useObservables props triggerProps getObservables h = inr (s, h') →
  s = state (engine h).
Proof.
  rewrite useObservables_eq. cbn zeta.
  destruct (effectReruns _ _ _ _); [|by intros [= <- _]].
  destruct (effect _ _) as [e|[c w']]; [done|]. by intros [= <- _].
Qed.

(** X21. Every state an evaluation of the hook returns is in exactly one of
    the three statuses; when it carries an error it carries no data and is
    not loading; when it is ready, its data is an object of the heap whose
    keys are among the keys of the source map of the newest generation at
    the time of the call (the one of the last effect run, not the one the
    effect of this evaluation may start), and are exactly those keys when
    none of them is named [__proto__]. *)
Theorem returned_state_is_tristate
    (evs : list Event) (h : Host)
    (props : gmap string Value) (triggerProps : option (list string))
    (getObservables : gmap string Value → SourceMap)
    (s : CombinedState) (h' : Host)
    (Hreach : run initialHost evs = inr h)
    (Hreturned :
       useObservables props triggerProps getObservables h = inr (s, h')) :
  (∃ st, status s = Some st)
  ∧ (s = Loading ∨ (∃ e, s = Errored e) ∨ (∃ l, s = Ready l))
  ∧ (is_Some (error s) → data s = None ∧ isLoading s = false)
  ∧ (status s = Some StReady →
     ∃ l c m, data s = Some l
       ∧ last (closures (engine h)) = Some c
       ∧ heap (engine h) !! l = Some m
       ∧ dom m ⊆ list_to_set (Object_keys (observablesObject c))
       ∧ (no_proto_key (Object_keys (observablesObject c)) →
          dom m = list_to_set (Object_keys (observablesObject c)))).
Proof.
  rewrite (useObservables_returns _ _ _ _ _ _ Hreturned).
  pose proof (HInv_reachable evs h Hreach) as [HI _ _ _ _ _].
  destruct (inv_state _ HI)
    as [->|[[e ->]|(l & c & m & -> & Hlast & Hl & Hsub & Hd)]].
  - split; [by exists StLoading|]. split; [by left|].
    split; [by intros [? ?]|done].
  - split; [by exists StErrored|]. split; [right; left; by exists e|].
    split; [done|done].
  - split; [by exists StReady|]. split; [right; right; by exists l|].
    split; [by intros [? ?]|]. intros _.
    exists l, c, m. split; [done|]. split; [done|]. split; [done|].
    pose proof Hlast as Hlast'. rewrite last_lookup in Hlast'.
    destruct (inv_static _ HI _ c Hlast') as [<- _]. by split.
Qed.

Lemma returned_state_is_tristate_witness :
  ∃ l c m, data (state (engine ready)) = Some l
    ∧ last (closures (engine ready)) = Some c
    ∧ heap (engine ready) !! l = Some m
    ∧ dom m ⊆ list_to_set (Object_keys (observablesObject c))
    ∧ (no_proto_key (Object_keys (observablesObject c)) →
       dom m = list_to_set (Object_keys (observablesObject c))).
Proof.
  apply (returned_state_is_tristate
           [Evaluate ∅ None (λ _, two_sources);
            Emit 0 "second" (Adapter.Push (CNext (VStr "second")))]
           ready ∅ None (λ _, two_sources) (state (engine ready))
           (match useObservables ∅ None (λ _, two_sources) ready with
            | inr (_, h') => h'
            | inl _ => ready
            end)).
  - vm_compute. reflexivity.
  - vm_compute. reflexivity.
  - reflexivity.
Defined.




(** X22. When a generation that has reached Ready and has no key named
    [__proto__] receives a value under key [k], the state stays ready
    ([isLoading] false, [error] null) and the new data is that of the
    previous state with [k] set to the value: the same keys, every other
    entry unchanged.  The new data is a freshly allocated object, different
    from the previous snapshot (which is left as it was) and from the
    generation's accumulator. *)
Theorem emission_after_ready
    (evs : list Event) (h : Host) (g : nat) (c : Closure)
    (k : string) (v : Value) (l : loc) (m : gmap string Value)
    (Hreach : run initialHost evs = inr h)
    (Hclosure : closures (engine h) !! g = Some c)
    (Hlive : isSubscribed c = true)
    (Hown : no_proto_key (keys c))
    (Hcallback : (g, k) ∈ subscribeCalls (engine h))
    (Hready : state (engine h) = Ready l)
    (Hdata : heap (engine h) !! l = Some m) :
  let w' := invoke g k (CNext v) (engine h) in
  ∃ l', state w' = Ready l'
    ∧ heap w' !! l' = Some (<[k := v]> m)
    ∧ <[k := v]> m !! k = Some v
    ∧ (∀ k', k' ≠ k → <[k := v]> m !! k' = m !! k')
    ∧ dom (<[k := v]> m) = dom m
    ∧ heap (engine h) !! l' = None
    ∧ l' ≠ l ∧ l' ≠ values c
    ∧ heap w' !! l = Some m
    ∧ heap w' !! values c = Some (<[k := v]> m).
Proof.
  pose proof (HInv_reachable evs h Hreach) as [HI _ _ _ _ _].
  destruct (inv_calls _ HI g k Hcallback) as (c0 & Hc0 & Hk).
  assert (c0 = c) as -> by congruence.
  pose proof (active_of_key c k Hlive Hk) as Hact.
  destruct (inv_values _ HI g c Hclosure Hact)
    as (m0 & Hm0 & Hdom & Hd & Hfree).
  destruct (Hfree Hown) as [Hsz Hem].
  destruct (inv_static _ HI g c Hclosure) as [Hkeys Hcount].
  pose proof (inv_progress _ HI g c Hclosure Hact Hown) as Hprog.
  assert (Hk' : k ≠ "__proto__") by (by intros ->).
  destruct (decide (valueCount c = keyCount c)) as [Heq|Hneq];
    [|by rewrite Hprog in Hready].
  destruct Hprog as (l0 & Hl0 & Hsame).
  assert (l0 = l) as -> by (rewrite Hl0 in Hready; by injection Hready).
  assert (m0 = m) as -> by congruence.
  assert (Hfull : dom m = list_to_set (Object_keys (observablesObject c))).
  { apply full_accumulator; [by rewrite <- Hkeys | congruence]. }
  assert (Hin : k ∈ dom m).
  { rewrite Hfull, <- Hkeys. by apply elem_of_list_to_set. }
  assert (Hfresh : heap (engine h) !! nextLoc (engine h) = None).
  { destruct (heap (engine h) !! nextLoc (engine h)) eqn:Hn; [|done].
    pose proof (inv_bound _ HI (nextLoc (engine h)) (mk_is_Some _ _ Hn)). lia. }
  assert (Hn1 : nextLoc (engine h) ≠ l) by (intros Hn; congruence).
  assert (Hn2 : nextLoc (engine h) ≠ values c) by (intros Hn; congruence).
  assert (Hn3 : values c ≠ l).
  { intros <-. apply Hd. by rewrite Hready. }
  cbn zeta. unfold invoke. rewrite (onNext_live g k v _ c) by done.
  unfold nextCount, deref. cbn [log_delivered heap nextLoc closures state
    subscribeCalls unsubscribed delivered].
  rewrite Hm0. cbn [default from_option]. unfold id.
  rewrite (assign_ne k v m Hk').
  assert (hasOwn m k = true) as ->.
  { by apply bool_decide_eq_true_2, elem_of_dom. }
  rewrite Heq, Nat.eqb_refl. cbn [state heap].
  exists (nextLoc (engine h)).
  split; [done|]. split; [by rewrite lookup_insert_eq|].
  split; [by rewrite lookup_insert_eq|].
  split; [intros k' Hne; by rewrite lookup_insert_ne|].
  split; [rewrite dom_insert_L; set_solver|].
  split; [done|]. split; [done|]. split; [done|].
  split; [by rewrite !lookup_insert_ne|].
  by rewrite lookup_insert_ne, lookup_insert_eq.
Qed.

Lemma emission_after_ready_witness :
  ∃ l', state (invoke 0 "first" (CNext (VStr "again")) (engine ready))
        = Ready l'
    ∧ heap (invoke 0 "first" (CNext (VStr "again")) (engine ready)) !! l'
      = Some (<["first" := VStr "again"]>
                (<["first" := VStr "first"]>
                   (<["second" := VStr "second"]> ∅)))
    ∧ l' ≠ 4.
Proof.
  destruct (emission_after_ready
              [Evaluate ∅ None (λ _, two_sources);
               Emit 0 "second" (Adapter.Push (CNext (VStr "second")))]
              ready 0
              (mkClosure true 2 3 2 two_sources ["first"; "second"] 2)
              "first" (VStr "again") 4
              (<["first" := VStr "first"]> (<["second" := VStr "second"]> ∅)))
    as (l' & Hs & Hh & _ & _ & _ & _ & Hne & _).
  - vm_compute. reflexivity.
  - vm_compute. reflexivity.
  - reflexivity.
  - apply (bool_decide_unpack _). vm_compute. exact I.
  - vm_compute. apply list_elem_of_In. cbn. auto.
  - vm_compute. reflexivity.
  - vm_compute. reflexivity.
  - exists l'. auto.
Defined.

(** C4. The evaluation that replaces a generation hands back the data of
    the generation it replaces.  The hook is mounted with [named_for] and
    [id = 1], whose one source, under ["task"], emits at once; the next
    evaluation has [id = 2], for which the factory returns a map with the
    one key ["comments"].  That evaluation memoizes the new map and starts
    its generation, and returns the ready state whose data has the key
    ["task"] and no key ["comments"]. *)
Theorem replacing_evaluation_returns_previous_data :
  ∃ h s h' l,
    run initialHost [Evaluate id1 watch_id named_for] = inr h
    ∧ useObservables id2 watch_id named_for h = inr (s, h')
    ∧ s = Ready l
    ∧ heap (engine h) !! l = Some {["task" := VStr "one"]}
    ∧ (sm_id ∘ snd <$> memo h') = Some (sm_id (named_for id2))
    ∧ Object_keys (named_for id2) = ["comments"]
    ∧ (keys <$> last (closures (engine h'))) = Some ["comments"]
    ∧ generations (engine h') = S (generations (engine h)).
Proof.
  eexists _, _, _, _. split; [vm_compute; reflexivity|].
  split; [vm_compute; reflexivity|]. split; [reflexivity|].
  split; [vm_compute; reflexivity|]. repeat split; vm_compute; reflexivity.
Qed.

(** C9. Emissions after Ready that publish nothing.  In [proto_map] one
    of the two keys is named [__proto__]: the assignment
    [values[key] = value] under it creates no own property, so each
    emission under that key counts as a first one.  Once both keys have
    emitted the state is ready, with the entry of ["a"] alone; the next
    emission under [__proto__] takes [valueCount] past [keyCount], and
    neither it nor the emission under ["a"] that follows publishes
    anything: the state still holds the first value of ["a"]. *)
Theorem emission_under_proto_is_lost :
  ∃ h h' l,
    run initialHost
      [Evaluate ∅ None (λ _, proto_map);
       Emit 0 "a" (Adapter.Push (CNext (VNum 1)));
       Emit 0 "__proto__" (Adapter.Push (CNext (VStr "p")))] = inr h
    ∧ state (engine h) = Ready l
    ∧ heap (engine h) !! l = Some {["a" := VNum 1]}
    ∧ run h [Emit 0 "__proto__" (Adapter.Push (CNext (VStr "q")));
             Emit 0 "a" (Adapter.Push (CNext (VNum 2)))] = inr h'
    ∧ (isSubscribed <$> closures (engine h') !! 0) = Some true
    ∧ (valueCount <$> closures (engine h') !! 0) = Some 3
    ∧ (keyCount <$> closures (engine h') !! 0) = Some 2
    ∧ state (engine h') = Ready l
    ∧ heap (engine h') !! l = Some {["a" := VNum 1]}.
Proof.
  eexists _, _, _. split; [vm_compute; reflexivity|].
  split; [reflexivity|]. split; [vm_compute; reflexivity|].
  split; [vm_compute; reflexivity|]. repeat split; vm_compute; reflexivity.
Qed.

(** With a key named [__proto__] a state can also be ready although a key
    has never emitted: two emissions under [__proto__] bring [valueCount]
    to [keyCount]. *)
Example ready_before_every_key_emitted :
  ∃ h l,
    run initialHost
      [Evaluate ∅ None (λ _, proto_map);
       Emit 0 "__proto__" (Adapter.Push (CNext (VStr "p")));
       Emit 0 "__proto__" (Adapter.Push (CNext (VStr "q")))] = inr h
    ∧ state (engine h) = Ready l
    ∧ heap (engine h) !! l = Some ∅
    ∧ ¬ emitted (engine h) 0 "a".
Proof.
  eexists _, _. split; [vm_compute; reflexivity|].
  split; [reflexivity|]. split; [vm_compute; reflexivity|].
  intros [v Hv]. vm_compute in Hv.
  repeat (apply elem_of_cons in Hv as [Hv|Hv]; [discriminate|]).
  by apply elem_of_nil in Hv.
Qed.



(** * The trigger-key tracker *)

Lemma strict_eq_identity a b : strict_eq a b = true ↔ identity a = identity b.
Proof.
  destruct a as [| |x|x|x|x], b as [| |y|y|y|y]; cbn; try done;
    try (split; [done|discriminate]).
  - rewrite Bool.eqb_true_iff. split; congruence.
  - rewrite Z.eqb_eq. split; congruence.
  - rewrite String.eqb_eq. split; congruence.
  - rewrite Nat.eqb_eq. split; congruence.
Qed.

Lemma identicalArrays_identity left right :
  identicalArrays left right = true ↔ map identity left = map identity right.
Proof.
  unfold identicalArrays. rewrite andb_true_iff, Nat.eqb_eq.
  revert right. induction left as [|x left IH]; intros [|y right]; cbn.
  - done.
  - split; [by intros [? ?]|done].
  - split; [by intros [? ?]|done].
  - rewrite andb_true_iff, strict_eq_identity. split.
    + intros [Hlen [Hxy Hall]]. f_equal; [done|]. apply IH. split; [lia|done].
    + intros [= Hxy Hrest]. apply IH in Hrest as [Hlen Hall].
      split; [lia|done].
Qed.

Lemma identicalArrays_refl l : identicalArrays l l = true.
Proof. by apply identicalArrays_identity. Qed.










Lemma last_by_callbacks w w' c :
  by_callbacks w w' → last (closures w) = Some c →
  ∃ c', last (closures w') = Some c'
        ∧ observablesObject c' = observablesObject c.
Proof.
  intros Hcb Hlast. rewrite last_lookup in Hlast.
  destruct (by_callbacks_lookup w w' _ c Hcb Hlast) as [c' Hc'].
  destruct Hcb as (_ & Hlen & d & _ & H).
  destruct (H _ c c' Hlast Hc') as (_ & O & _).
  exists c'. split; [|done]. by rewrite last_lookup, Hlen.
Qed.
















(** C7. A change of the watched list that starts no new generation.  The
    factory hands out one and the same object on every call; the hook is
    mounted with [id = 1] and evaluated again with [id = 2], the watch-list
    being [["id"]].  The lists of watched values differ, the memoized
    factory is called again (the key of the memo cell changes), and yet the
    effect, whose dependency is the object the factory returned, does not
    run: no subscription is closed and none is opened. *)
Theorem same_map_is_not_resubscribed :
  identicalArrays (getTriggeringProps id1 watch_id)
                  (getTriggeringProps id2 watch_id) = false
  ∧ ∃ h1 h2,
      run initialHost [Evaluate id1 watch_id (λ _, shared_map)] = inr h1
      ∧ step h1 (Evaluate id2 watch_id (λ _, shared_map)) = inr h2
      ∧ (fst <$> memo h1) = Some 0
      ∧ (fst <$> memo h2) = Some 6
      ∧ effectReruns h1 id2 watch_id (λ _, shared_map) = false
      ∧ generations (engine h2) = generations (engine h1)
      ∧ subscribeCalls (engine h2) = [(0, "item")]
      ∧ subscribeCalls (engine h1) = [(0, "item")]
      ∧ unsubscribed (engine h2) = [].
Proof.
  split; [reflexivity|].
  eexists _, _. split; [vm_compute; reflexivity|].
  split; [vm_compute; reflexivity|]. vm_compute. done.
Qed.



(** * The scenarios of the test suite, replayed on the model *)

Example starts_in_loading_state :
  match run initialHost
          [Evaluate ∅ None (λ _, sources 10 [("value", subject 1 [])])]
  with
  | inr h => state (engine h) = Loading
  | inl _ => False
  end.
Proof. vm_compute. reflexivity. Qed.

Example waits_for_all_observables :
  state (engine waiting) = Loading
  ∧ isLoading (state (engine ready)) = false
  ∧ (data (state (engine ready)) ≫= λ l, heap (engine ready) !! l)
    = Some (<["first" := VStr "first"]> (<["second" := VStr "second"]> ∅)).
Proof. vm_compute. done. Qed.

Example handles_errors :
  state (engine failed) = Errored "Test error".
Proof. reflexivity. Qed.

Example later_keys_are_not_subscribed_after_an_error :
  match run initialHost
          [Evaluate ∅ None
             (λ _, sources 11
                     [("failing", subject 1 [CError "boom"]);
                      ("late", subject 2 [CNext (VStr "x")])])]
  with
  | inr h => subscribeCalls (engine h) = [(0, "failing")]
             ∧ state (engine h) = Errored "boom"
  | inl _ => False
  end.
Proof. vm_compute. done. Qed.

(** A handle returned by a [subscribe] call during which the error fired
    is pushed onto the array [unsubscribeAll] has just let go of: it is not
    in the generation's array afterwards and teardown does not invoke it. *)
Example handle_of_a_synchronous_error_is_abandoned :
  match run initialHost [Evaluate ∅ None (λ _, failing_map); Unmount] with
  | inr h =>
      subscribeCalls (engine h) = [(0, "ok"); (0, "failing")]
      ∧ unsubscribed (engine h) = [(0, "ok")]
      ∧ arrays (engine h) !! 2 = Some [(0, "ok"); (0, "failing")]
      ∧ (subscriptions <$> closures (engine h)) = [5]
  | inl _ => False
  end.
Proof. vm_compute. done. Qed.

Example cleans_up_on_unmount :
  match run ready [Unmount] with
  | inr h => unsubscribed (engine h) = [(0, "first"); (0, "second")]
  | inl _ => False
  end.
Proof. vm_compute. reflexivity. Qed.

Example works_with_observe_method :
  match run initialHost
          [Evaluate ∅ None
             (λ _, sources 12
                     [("item",
                       VObj (MkObj 1 None []
                               (Some (MkProducer [CNext (VStr "observed")]))
                               None))])]
  with
  | inr h => (data (state (engine h)) ≫= λ l, heap (engine h) !! l)
             = Some {["item" := VStr "observed"]}
  | inl _ => False
  end.
Proof. vm_compute. reflexivity. Qed.

Example null_triggerProps_subscribes_once :
  match run initialHost
          [Evaluate id1 None item_for; Evaluate id2 None item_for;
           Evaluate ∅ None item_for]
  with
  | inr h => subscribeCalls (engine h) = [(0, "item")]
             ∧ unsubscribed (engine h) = []
  | inl _ => False
  end.
Proof. vm_compute. done. Qed.

Example resubscribes_when_trigger_props_change :
  subscribeCalls (engine mounted_with_id2) = [(0, "item"); (1, "item")]
  ∧ unsubscribed (engine mounted_with_id2) = [(0, "item")]
  ∧ (data (state (engine mounted_with_id2))
       ≫= λ l, heap (engine mounted_with_id2) !! l)
    = Some {["item" := VNum 2]}.
Proof. vm_compute. done. Qed.

Example record_emits_itself :
  match run initialHost
          [Evaluate ∅ None (λ _, sources 13 [("task", record 7)]);
           Emit 0 "task" (Adapter.Notify (VBool true))]
  with
  | inr h => (data (state (engine h)) ≫= λ l, heap (engine h) !! l)
             = Some {["task" := record 7]}
             ∧ delivered (engine h)
               = [((0, "task"), CNext (record 7)); ((0, "task"), CComplete)]
  | inl _ => False
  end.
Proof. vm_compute. done. Qed.

Example unrecognized_source_throws_from_the_effect :
  run initialHost
    [Evaluate ∅ None (λ _, sources 14 [("bad", VNum 5)])]
  = inl Adapter.NotObservableError
  ∧ run initialHost
      [Evaluate ∅ None (λ _, sources 15 [("bad", VUndefined)])]
    = inl Adapter.TypeError.
Proof. vm_compute. done. Qed.

Example chimera_is_a_record :
  Adapter.result (Adapter.subscribe (chimera 9)) = inr Adapter.ViaRecord.
Proof. reflexivity. Qed.

Example WithObservables_renders_null_then_children :
  match WithObservables (mkArray 50 []) empty_map initialHost with
  | inr (rendered, h) =>
      rendered = RenderNull
      ∧ state (engine h) = Ready 2
      ∧ match WithObservables (mkArray 51 []) empty_map h with
        | inr (rendered', h') =>
            rendered' = RenderChildren (Some 2)
            ∧ generations (engine h') = 1
        | inl _ => False
        end
  | inl _ => False
  end.
Proof. vm_compute. done. Qed.

(** * Properties kept along every run *)

Lemma handles_of_app g l1 l2 :
  handles_of g (l1 ++ l2) = handles_of g l1 ++ handles_of g l2.
Proof. apply filter_app. Qed.

Lemma elem_of_handles_of g h l : h ∈ handles_of g l ↔ h.1 = g ∧ h ∈ l.
Proof. unfold handles_of. by rewrite list_elem_of_filter. Qed.

Lemma handles_of_own g k : handles_of g [(g, k)] = [(g, k)].
Proof. unfold handles_of. rewrite filter_cons. by rewrite decide_True. Qed.

Lemma handles_of_foreign g g' k : g' ≠ g → handles_of g' [(g, k)] = [].
Proof.
  intros Hne. unfold handles_of. rewrite filter_cons.
  rewrite decide_False; [done|]. cbn. congruence.
Qed.

Lemma handles_snoc g ks k : handles g (ks ++ [k]) = handles g ks ++ [(g, k)].
Proof. unfold handles. by rewrite map_app. Qed.

Lemma handles_of_beyond w g :
  Inv w → length (closures w) ≤ g → handles_of g (subscribeCalls w) = [].
Proof.
  intros HI Hg. destruct (handles_of g (subscribeCalls w)) as [|[g' k] l] eqn:E;
    [done|exfalso].
  assert (Hin : (g', k) ∈ handles_of g (subscribeCalls w))
    by (rewrite E; by left).
  apply elem_of_handles_of in Hin as [Hg' Hin]. cbn in Hg'. subst g'.
  pose proof (no_calls_beyond w g k HI Hin). lia.
Qed.

Lemma subscribeKey_calls g key w w' c :
  closures w !! g = Some c → isSubscribed c = true →
  subscribeKey g key w = inr w' →
  subscribeCalls w' = subscribeCalls w ++ [(g, key)].
Proof.
  intros Hc Hs. rewrite (subscribeKey_eq g key w c) by done. cbn zeta.
  destruct (Adapter.result _); [done|]. intros [= <-]. cbn.
  by destruct (by_callbacks_during g key
                 (sm_during (observablesObject c) key)
                 (Adapter.calls
                    (Adapter.subscribe (prop (observablesObject c) key)))
                 (log_subscribe (g, key) w)) as [-> _].
Qed.

Lemma unsubscribeAll_calls g w :
  subscribeCalls (unsubscribeAll g w) = subscribeCalls w.
Proof. unfold unsubscribeAll. by destruct (closures w !! g). Qed.

Lemma forEach_preserved P g o done ks w w' :
  Preserved P → LoopInv g o w → S g = generations w →
  Object_keys o = done ++ ks →
  (∀ c, closures w !! g = Some c → isSubscribed c = true →
     handles_of g (subscribeCalls w) = handles g done) →
  P w → forEach ks (subscribeKey g) w = inr w' →
  P w'
  ∧ (∀ c, closures w' !! g = Some c → isSubscribed c = true →
       handles_of g (subscribeCalls w') = handles g (done ++ ks))
  ∧ (∀ g', g' ≠ g →
       handles_of g' (subscribeCalls w') = handles_of g' (subscribeCalls w)).
Proof.
  intros HP. revert done w.
  induction ks as [|k ks IH]; intros done w HL Hg Hkeys Hdone HPw Hrun.
  - injection Hrun as <-. rewrite app_nil_r. by repeat split.
  - cbn in Hrun. destruct (subscribeKey g k w) as [e|w1] eqn:Hk; [done|].
    destruct (loop_closure g o w HL) as (c & Hc & Ho).
    destruct (subscribeKey_keeps g o k w w1 HL) as (HL1 & _ & Hlen1 & _);
      [rewrite Hkeys; apply elem_of_app; right; by left | done |].
    assert (Hg1 : S g = generations w1) by (unfold generations in *; congruence).
    assert (Hkeys1 : Object_keys o = (done ++ [k]) ++ ks)
      by (by rewrite <- app_assoc).
    destruct (isSubscribed c) eqn:Hs.
    + pose proof (subscribeKey_calls g k w w1 c Hc Hs Hk) as Hcalls.
      assert (HP1 : P w1).
      { eapply (pres_subscribeKey P HP g o c done k ks w w1); eauto. }
      destruct (IH (done ++ [k]) w1 HL1 Hg1 Hkeys1) as (HP' & Hall & Hoth);
        [|done|done|].
      { intros c1 _ _. rewrite Hcalls, handles_of_app, handles_of_own.
        rewrite handles_snoc. f_equal. by apply (Hdone c). }
      split; [done|]. split.
      * intros c' Hc' Hs'. rewrite (Hall c' Hc' Hs'). by rewrite <- app_assoc.
      * intros g' Hne. rewrite (Hoth g' Hne), Hcalls, handles_of_app.
        rewrite handles_of_foreign by done. by rewrite app_nil_r.
    + rewrite (subscribeKey_skip g k w c) in Hk by done. injection Hk as <-.
      destruct (IH (done ++ [k]) w HL Hg Hkeys1) as (HP' & Hall & Hoth);
        [|done|done|].
      { intros c1 Hc1 Hs1. congruence. }
      split; [done|]. split; [|done].
      intros c' Hc' Hs'. rewrite (Hall c' Hc' Hs'). by rewrite <- app_assoc.
Qed.

Lemma fully_subscribed_later w w' :
  fully_subscribed w → evolves w w' →
  (∀ g, g < length (closures w) →
     handles_of g (subscribeCalls w') = handles_of g (subscribeCalls w)) →
  ∀ g c', g < length (closures w) →
    closures w' !! g = Some c' → isSubscribed c' = true →
    handles_of g (subscribeCalls w') = handles g (keys c').
Proof.
  intros Hfull Hev Hsame g c' Hg Hc' Hs'.
  apply lookup_lt_is_Some in Hg as [c Hc].
  destruct (Hev g c Hc) as (c1 & Hc1 & Hk & Hdead).
  assert (c1 = c') as -> by congruence.
  rewrite Hsame by (by apply lookup_lt_Some in Hc). rewrite Hk.
  apply Hfull; [done|]. destruct (isSubscribed c) eqn:Hs; [done|].
  rewrite Hdead in Hs' by done. done.
Qed.

Lemma effect_preserved P o w cl w' :
  Preserved P → Inv w → idle w → fully_subscribed w → P w →
  effect o w = inr (cl, w') → P w' ∧ fully_subscribed w'.
Proof.
  intros HP HI Hidle Hfull HPw Heff.
  destruct (effect_keeps o w cl w' HI Hidle Heff)
    as (HI' & _ & _ & Hev & Hlen & _ & _ & (cn & Hcn & Hon)).
  revert Heff. rewrite effect_eq.
  pose proof (Inv_begin o w HI Hidle) as HIb.
  pose proof (complete_begin o w HI Hidle) as Hcb.
  pose proof (cancelled_begin o w) as Hcan.
  pose proof (begin_lookup_new o w) as Hnew.
  pose proof (pres_begin P HP o w HI Hidle HPw) as HPb.
  assert (Hlenb : length (closures (begin o w)) = S (length (closures w))).
  { unfold begin. cbn. rewrite length_app. cbn. lia. }
  assert (Hnone : handles_of (length (closures w)) (subscribeCalls w) = [])
    by (by apply handles_of_beyond).
  destruct (length (Object_keys o) =? 0) eqn:Hempty.
  - apply Nat.eqb_eq, nil_length_inv in Hempty. intros [= <- <-].
    assert (Hidleb : idle (begin o w)).
    { intros g c Hc Hact.
      destruct (begin_lookup_inv o w g c Hc) as [Hold|[_ ->]].
      - exact (Hidle g c Hold Hact).
      - destruct Hact as [_ Hk]. by apply Hk. }
    split.
    { eapply (pres_publish_empty P HP);
        [done | done | rewrite last_lookup, Hlenb; exact Hnew
        | exact Hempty | done]. }
    intros g c Hc Hs. cbn in Hc.
    apply lookup_snoc_Some in Hc as [[Hg Hc]|[-> <-]].
    + by apply Hfull.
    + cbn. by rewrite Hempty.
  - destruct (forEach _ _ _) as [e|w1] eqn:Hloop; [done|]. intros [= <- <-].
    destruct (forEach_preserved P (length (closures w)) o [] (Object_keys o)
                (begin o w) w1 HP) as (HP' & Hall & Hoth);
      [constructor; eauto | unfold generations; lia | done | done | done
      | done |].
    split; [done|]. intros g c' Hc' Hs'.
    destruct (decide (g = length (closures w))) as [->|Hne].
    + rewrite (Hall c' Hc' Hs'). cbn.
      assert (cn = c') as -> by (unfold generations in Hcn; congruence).
      destruct (inv_static w1 HI' _ c' Hc') as [-> _]. by rewrite Hon.
    + apply (fully_subscribed_later w w1); try done.
      * intros g' Hg'. rewrite Hoth by lia. done.
      * apply lookup_lt_Some in Hc'. unfold generations in Hlen. lia.
Qed.

Lemma runCleanup_preserved P cl w :
  Preserved P → Inv w → (∀ g, cl = Some g → S g = generations w) →
  fully_subscribed w → P w →
  P (runCleanup cl w) ∧ fully_subscribed (runCleanup cl w).
Proof.
  intros HP HI Hcl Hfull HPw. destruct cl as [g|]; [|done]. cbn. split.
  - apply (pres_unsubscribeAll P HP); auto.
  - intros g' c' Hc' Hs'. rewrite unsubscribeAll_calls.
    destruct (unsubscribeAll_lookup_inv g w g' c' Hc') as (c0 & Hc0 & _ & L).
    destruct (L Hs') as (Hs0 & _ & ->). by apply Hfull.
Qed.

Lemma fully_subscribed_by_callbacks w w' :
  by_callbacks w w' → fully_subscribed w → fully_subscribed w'.
Proof.
  intros Hcb Hfull g c' Hc' Hs'.
  destruct (by_callbacks_lookup_inv w w' g c' Hcb Hc') as [c Hc].
  destruct Hcb as (Hcalls & _ & d & _ & H). rewrite Hcalls.
  destruct (H g c c' Hc Hc') as (-> & _ & L & _).
  destruct (L Hs') as [Hs _]. by apply Hfull.
Qed.

Lemma useObservables_preserved P props tp f h s h' :
  Preserved P → HInv h → fully_subscribed (engine h) → P (engine h) →
  useObservables props tp f h = inr (s, h') →
  P (engine h') ∧ fully_subscribed (engine h').
Proof.
  intros HP [HI Hcl Hncl Hcomp Hcan Hun] Hfull HPw.
  rewrite useObservables_eq. cbn zeta.
  set (w := (reserve (reserve (engine h)).2).2).
  assert (HIw : Inv w) by (by apply Inv_reserve, Inv_reserve).
  assert (HPw' : P w).
  { apply (pres_reserve P HP); [by apply Inv_reserve|].
    by apply (pres_reserve P HP). }
  assert (Hfw : fully_subscribed w) by exact Hfull.
  destruct (effectReruns _ _ _ _).
  - destruct (runCleanup_keeps (cleanup h) w HIw Hcl Hncl)
      as (HI1 & Hidle1 & _).
    destruct (runCleanup_preserved P (cleanup h) w HP HIw Hcl Hfw HPw')
      as [HP1 Hf1].
    destruct (effect _ _) as [e|[c w']] eqn:Heff; [done|].
    intros [= <- <-]. cbn. by eapply (effect_preserved P); eauto.
  - by intros [= <- <-].
Qed.

Lemma WithObservables_eq resetOn observables h :
  WithObservables resetOn observables h =
    let ref := renderedRef h resetOn in
    let o := memoizedObservables h resetOn observables in
    match rendered (state (engine h)) with
    | inl e => inl (FromRender e)
    | inr r =>
        if renderReruns h resetOn observables then
          match effect o (runCleanup (cleanup h) (engine h)) with
          | inl e => inl (FromEffect e)
          | inr (c, w') =>
              inr (r, mkHost w' (Some ref) (Some (aid ref, o))
                             (Some (sm_id o)) c (mounted h))
          end
        else
          inr (r, mkHost (engine h) (Some ref) (Some (aid ref, o))
                         (Some (sm_id o)) (cleanup h) (mounted h))
    end.
Proof.
  unfold WithObservables, renderReruns, memoizedObservables, renderedRef,
    rendered.
  destruct (isLoading (state (engine h)));
    destruct (error (state (engine h))); try reflexivity;
    (destruct (prevTriggerPropsRef h) as [a|]; cbn [default from_option];
     destruct (negb _); destruct (memo h) as [[deps cached]|];
     destruct (effectDeps h); reflexivity).
Qed.

Lemma HInv_WithObservables resetOn observables h r h' :
  HInv h → mounted h = true →
  WithObservables resetOn observables h = inr (r, h') →
  HInv h' ∧ rendered (state (engine h)) = inr r
  ∧ evolves (engine h) (engine h') ∧ mounted h' = true.
Proof.
  intros [HI Hcl Hncl Hcomp Hcan Hun] Hm. rewrite WithObservables_eq.
  cbn zeta. specialize (Hcan Hm).
  destruct (rendered _) as [e0|r0]; [done|].
  destruct (renderReruns _ _ _).
  - destruct (runCleanup_keeps (cleanup h) (engine h) HI Hcl Hncl)
      as (HI1 & Hidle1 & Hcomp1 & Hev1 & Hlen1).
    destruct (effect _ _) as [e|[c w']] eqn:Heff; [done|].
    intros [= <- <-].
    destruct (effect_keeps _ _ c w' HI1 Hidle1 Heff)
      as (HI' & Hcomp' & Hcan' & Hev' & Hlen' & Hcl' & Hncl' & _).
    split; [constructor; cbn; try done; congruence|].
    split; [done|]. split; [|done].
    apply (evolves_trans (engine h) (runCleanup (cleanup h) (engine h)) w');
      [exact Hev1 | exact Hev'].
  - intros [= <- <-]. split; [constructor; cbn; try done; congruence|].
    split; [done|]. split; [|done]. apply evolves_refl.
Qed.

Lemma WithObservables_preserved P resetOn observables h r h' :
  Preserved P → HInv h → fully_subscribed (engine h) → P (engine h) →
  WithObservables resetOn observables h = inr (r, h') →
  P (engine h') ∧ fully_subscribed (engine h').
Proof.
  intros HP [HI Hcl Hncl Hcomp Hcan Hun] Hfull HPw.
  rewrite WithObservables_eq. cbn zeta.
  destruct (rendered _) as [e0|r0]; [done|].
  destruct (renderReruns _ _ _).
  - destruct (runCleanup_keeps (cleanup h) (engine h) HI Hcl Hncl)
      as (HI1 & Hidle1 & _).
    destruct (runCleanup_preserved P (cleanup h) (engine h) HP HI Hcl Hfull
                HPw) as [HP1 Hf1].
    destruct (effect _ _) as [e|[c w']] eqn:Heff; [done|].
    intros [= <- <-]. cbn. by eapply (effect_preserved P); eauto.
  - by intros [= <- <-].
Qed.

Lemma signal_preserved P g key s w :
  Preserved P → Inv w → complete_subscriptions w → fully_subscribed w → P w →
  P (signal g key s w) ∧ fully_subscribed (signal g key s w).
Proof.
  intros HP HI Hcomp Hfull HPw. split; [by apply (pres_signal P HP)|].
  apply (fully_subscribed_by_callbacks w); [apply signal_by_callbacks|done].
Qed.

Lemma unmount_preserved P h :
  Preserved P → HInv h → fully_subscribed (engine h) → P (engine h) →
  P (engine (unmount h)) ∧ fully_subscribed (engine (unmount h)).
Proof.
  intros HP [HI Hcl Hncl Hcomp Hcan Hun] Hfull HPw. cbn.
  by apply runCleanup_preserved.
Qed.

Lemma step_preserved P h ev h' :
  Preserved P → HInv h → fully_subscribed (engine h) → P (engine h) →
  step h ev = inr h' →
  P (engine h') ∧ fully_subscribed (engine h').
Proof.
  intros HP HH Hfull HPw. destruct ev as [props tp f|g key s|]; unfold step.
  - destruct (mounted h) eqn:Hm; [|by intros [= <-]].
    destruct (useObservables props tp f h) as [e|[s h1]] eqn:Hu; [done|].
    intros [= <-]. by apply (useObservables_preserved P props tp f h s h1).
  - intros [= <-]. cbn. apply signal_preserved; try done; apply HH.
  - destruct (mounted h); intros [= <-]; [by apply unmount_preserved|done].
Qed.

Lemma run_preserved P h evs h' :
  Preserved P → HInv h → fully_subscribed (engine h) → P (engine h) →
  run h evs = inr h' →
  P (engine h') ∧ fully_subscribed (engine h').
Proof.
  intros HP. revert h. induction evs as [|ev evs IH]; intros h HH Hfull HPw; cbn.
  - by intros [= <-].
  - destruct (step h ev) as [e|h1] eqn:Hs; [done|].
    destruct (step_preserved P h ev h1 HP HH Hfull HPw Hs) as [HP1 Hf1].
    apply IH; try done. by apply (HInv_step h ev).
Qed.

Lemma fully_subscribed_initial : fully_subscribed initialEngine.
Proof. intros g c Hc. cbn in Hc. by rewrite lookup_nil in Hc. Qed.

Lemma reachable_preserved P evs h :
  Preserved P → P initialEngine → run initialHost evs = inr h →
  P (engine h) ∧ fully_subscribed (engine h).
Proof.
  intros HP H0. apply (run_preserved P);
    [done | apply HInv_initial | apply fully_subscribed_initial | done].
Qed.

Lemma component_step_render h resetOn o h' :
  mounted h = true → component_step h (Render resetOn o) = inr h' →
  ∃ r, WithObservables resetOn o h = inr (r, h').
Proof.
  intros Hm. unfold component_step. rewrite Hm.
  destruct (WithObservables resetOn o h) as [e'|[r h1]]; [done|].
  intros [= <-]. by exists r.
Qed.

Lemma HInv_component_step h ev h' :
  HInv h → component_step h ev = inr h' → HInv h'.
Proof.
  intros HH. destruct ev as [resetOn o|g key s|].
  - destruct (mounted h) eqn:Hm;
      [|unfold component_step; rewrite Hm; by intros [= <-]].
    intros Hstep.
    destruct (component_step_render h resetOn o h' Hm Hstep) as [r Hw].
    by destruct (HInv_WithObservables resetOn o h r h' HH Hm Hw).
  - intros [= <-]. by apply HInv_signal.
  - unfold component_step.
    destruct (mounted h); intros [= <-]; [by apply HInv_unmount|done].
Qed.

Lemma component_step_preserved P h ev h' :
  Preserved P → HInv h → fully_subscribed (engine h) → P (engine h) →
  component_step h ev = inr h' →
  P (engine h') ∧ fully_subscribed (engine h').
Proof.
  intros HP HH Hfull HPw.
  destruct ev as [resetOn o|g key s|].
  - destruct (mounted h) eqn:Hm;
      [|unfold component_step; rewrite Hm; by intros [= <-]].
    intros Hstep.
    destruct (component_step_render h resetOn o h' Hm Hstep) as [r Hw].
    by apply (WithObservables_preserved P resetOn o h r h').
  - intros [= <-]. cbn. apply signal_preserved; try done; apply HH.
  - unfold component_step.
    destruct (mounted h); intros [= <-]; [by apply unmount_preserved|done].
Qed.

Lemma component_run_preserved P h evs h' :
  Preserved P → HInv h → fully_subscribed (engine h) → P (engine h) →
  component_run h evs = inr h' →
  HInv h' ∧ P (engine h') ∧ fully_subscribed (engine h').
Proof.
  intros HP. revert h. induction evs as [|ev evs IH]; intros h HH Hfull HPw; cbn.
  - by intros [= <-].
  - destruct (component_step h ev) as [e|h1] eqn:Hs; [done|].
    destruct (component_step_preserved P h ev h1 HP HH Hfull HPw Hs)
      as [HP1 Hf1].
    apply IH; try done. by apply (HInv_component_step h ev).
Qed.

(** * What one callback invocation does to the store *)

Lemma invoke_next_live g k v w c :
  closures w !! g = Some c → isSubscribed c = true →
  invoke g k (CNext v) w =
    let m := assign k v (deref w (values c)) in
    let n := nextCount w c k in
    let full := n =? keyCount c in
    mkEngine (if full then Ready (nextLoc w) else state w)
             (if full then <[nextLoc w := m]> (<[values c := m]> (heap w))
              else <[values c := m]> (heap w))
             (arrays w) (if full then S (nextLoc w) else nextLoc w)
             (alter (set_valueCount n) g (closures w))
             (subscribeCalls w) (unsubscribed w)
             (delivered w ++ [((g, k), CNext v)]).
Proof.
  intros Hc Hs. unfold invoke.
  rewrite (onNext_live g k v (log_delivered (g, k) (CNext v) w) c) by done.
  cbn zeta. unfold nextCount, deref. cbn. by destruct (_ =? _).
Qed.

Lemma invoke_error_live g k e w c :
  closures w !! g = Some c → isSubscribed c = true →
  invoke g k (CError e) w =
    mkEngine (Errored e) (heap w) (<[nextLoc w := []]> (arrays w))
             (S (nextLoc w)) (alter (cancel (nextLoc w)) g (closures w))
             (subscribeCalls w)
             (unsubscribed w ++ array w (subscriptions c))
             (delivered w ++ [((g, k), CError e)]).
Proof.
  intros Hc Hs. unfold invoke.
  rewrite (onError_live g e (log_delivered (g, k) (CError e) w) c) by done.
  by rewrite cancel_alter.
Qed.

(** The four ways an invocation can go. *)
Lemma invoke_cases g k call w :
  Inv w → (g, k) ∈ subscribeCalls w →
  ∃ c, closures w !! g = Some c ∧ k ∈ keys c
    ∧ ((isSubscribed c = false
        ∧ invoke g k call w = log_delivered (g, k) call w)
       ∨ (call = CComplete
          ∧ invoke g k call w = log_delivered (g, k) call w)
       ∨ (active c ∧ S g = generations w
          ∧ ((∃ v, call = CNext v) ∨ (∃ e, call = CError e)))).
Proof.
  intros HI Hin. destruct (inv_calls w HI g k Hin) as (c & Hc & Hk).
  exists c. split; [done|]. split; [done|].
  destruct (isSubscribed c) eqn:Hs.
  2:{ left. split; [done|]. by apply (invoke_cancelled g k call w c). }
  right. destruct call as [v|e|]; [right|right|by left].
  - pose proof (active_of_key c k Hs Hk) as Ha.
    split; [done|]. split; [by apply (inv_last w HI g c)|]. left. by exists v.
  - pose proof (active_of_key c k Hs Hk) as Ha.
    split; [done|]. split; [by apply (inv_last w HI g c)|]. right. by exists e.
Qed.

Lemma invoke_all_preserved (P : Engine → Prop) g k calls w :
  (∀ call w, Inv w → (g, k) ∈ subscribeCalls w → P w →
     P (invoke g k call w)) →
  Inv w → (g, k) ∈ subscribeCalls w → P w → P (invoke_all g k calls w).
Proof.
  intros Hstep. revert w.
  induction calls as [|call calls IH]; intros w HI Hin HP; [done|].
  cbn. apply IH; [by apply Inv_invoke| |by apply Hstep].
  by destruct (by_callbacks_invoke g k call w) as [-> _].
Qed.

Lemma signal_preserved_by_invoke (P : Engine → Prop) g key s w :
  (∀ g k call w, Inv w → (g, k) ∈ subscribeCalls w → P w →
     P (invoke g k call w)) →
  Inv w → P w → P (signal g key s w).
Proof.
  intros Hinv HI HPw. unfold signal. case_bool_decide; [|done].
  destruct (closures w !! g) as [c|]; [|done].
  destruct (Adapter.result _); [done|].
  apply invoke_all_preserved; [by intros; apply Hinv | done | done | done].
Qed.

Lemma during_preserved (P : Engine → Prop) g k schedule calls w :
  (∀ g k call w, Inv w → (g, k) ∈ subscribeCalls w → P w →
     P (invoke g k call w)) →
  Inv w → (g, k) ∈ subscribeCalls w → P w →
  P (during g k schedule calls w).
Proof.
  intros Hinv. revert calls w.
  induction schedule as [|[|g' k' s] schedule IH]; intros calls w HI Hin HPw;
    cbn [during].
  - apply invoke_all_preserved; [by intros; apply Hinv | done | done | done].
  - destruct calls as [|c calls]; [by apply IH|].
    apply IH; [by apply Inv_invoke| |by apply Hinv].
    by destruct (by_callbacks_invoke g k c w) as [-> _].
  - apply IH; [by apply Inv_signal| |by apply signal_preserved_by_invoke].
    by destruct (signal_by_callbacks g' k' s w) as [-> _].
Qed.

(** A property kept by each elementary operation is kept by the loop body
    and by a signal. *)
Lemma Preserved_of_primitives (P : Engine → Prop) :
  (∀ w, Inv w → P w → P (reserve w).2) →
  (∀ g w, Inv w → S g = generations w → P w → P (unsubscribeAll g w)) →
  (∀ o w, Inv w → idle w → P w → P (begin o w)) →
  (∀ w c, Inv w → idle w → last (closures w) = Some c → keys c = [] →
     P w → P (publish_empty w)) →
  (∀ g k c w, Inv w → closures w !! g = Some c → k ∈ keys c →
     P w → P (log_subscribe (g, k) w)) →
  (∀ g k call w, Inv w → (g, k) ∈ subscribeCalls w → P w →
     P (invoke g k call w)) →
  (∀ l h w, Inv w → P w → P (array_push l h w)) →
  Preserved P.
Proof.
  intros Hres Hunsub Hbegin Hempty Hlog Hinv Hpush.
  constructor; try done.
  - intros g o c done key rest w w' [HI _ _ (c' & Hc' & Ho)] Hg Hc Hs Hkeys _
      Hrun HPw.
    assert (c' = c) as -> by congruence.
    rewrite (subscribeKey_eq g key w c) in Hrun by done. cbn zeta in Hrun.
    destruct (Adapter.result _); [done|]. injection Hrun as <-.
    assert (Hk : key ∈ keys c).
    { destruct (inv_static w HI g c Hc) as [-> _]. rewrite Ho, Hkeys.
      apply elem_of_app. right. by left. }
    assert (HI1 : Inv (log_subscribe (g, key) w))
      by (by apply (Inv_log_subscribe g key w c)).
    assert (Hin1 : (g, key) ∈ subscribeCalls (log_subscribe (g, key) w)).
    { cbn. apply elem_of_app. right. by apply list_elem_of_singleton. }
    apply Hpush; [by apply Inv_during|].
    apply during_preserved; [done | done | done |].
    by apply (Hlog g key c).
  - intros g key s w HI _ HPw. by apply signal_preserved_by_invoke.
Qed.

(** * The published data *)

Lemma latest_snoc_next h d v : latest h (d ++ [(h, CNext v)]) = Some v.
Proof.
  unfold latest, values_for. rewrite omap_app. cbn.
  rewrite decide_True by done. cbn. by rewrite last_snoc.
Qed.

Lemma latest_snoc_other h d h' call :
  h' ≠ h ∨ (∀ v, call ≠ CNext v) → latest h (d ++ [(h', call)]) = latest h d.
Proof.
  intros Hne. unfold latest, values_for. rewrite omap_app. cbn.
  destruct call as [v|e|]; cbn; try by rewrite app_nil_r.
  destruct (decide (h' = h)) as [->|]; cbn; [|by rewrite app_nil_r].
  destruct Hne as [Hne|Hne]; [done|]. by destruct (Hne v).
Qed.

Lemma latest_None h d : (∀ call, (h, call) ∉ d) → latest h d = None.
Proof.
  intros Hnot. unfold latest.
  assert (values_for h d = []) as ->; [|done].
  induction d as [|[h' call] d IH]; [done|].
  unfold values_for. cbn. fold (values_for h d).
  rewrite IH by (intros call' Hin; apply (Hnot call'); by right).
  destruct call as [v|e|]; try done.
  destruct (decide (h' = h)) as [->|]; [|done].
  exfalso. apply (Hnot (CNext v)). by left.
Qed.

Lemma heap_unsubscribeAll g w : heap (unsubscribeAll g w) = heap w.
Proof. unfold unsubscribeAll. by destruct (closures w !! g). Qed.

Lemma delivered_unsubscribeAll g w :
  delivered (unsubscribeAll g w) = delivered w.
Proof. unfold unsubscribeAll. by destruct (closures w !! g). Qed.

Lemma state_unsubscribeAll g w : state (unsubscribeAll g w) = state w.
Proof. unfold unsubscribeAll. by destruct (closures w !! g). Qed.

Lemma unsubscribeAll_active g w g' c' :
  closures (unsubscribeAll g w) !! g' = Some c' → active c' →
  closures w !! g' = Some c'.
Proof.
  intros Hc' [Hs Hk].
  destruct (unsubscribeAll_lookup_inv g w g' c' Hc') as (c0 & Hc0 & _ & L).
  by destruct (L Hs) as (_ & _ & ->).
Qed.

Lemma begin_active o w g c :
  idle w → closures (begin o w) !! g = Some c → active c →
  g = length (closures w)
  ∧ c = mkClosure true (nextLoc w) (S (nextLoc w)) 0 o (Object_keys o)
          (length (Object_keys o)).
Proof.
  intros Hidle Hc Ha.
  destruct (begin_lookup_inv o w g c Hc) as [Hold|?]; [|done].
  by destruct (Hidle g c Hold).
Qed.

(** The only generation an invocation can find accepting emissions
    afterwards is the one it was made for, with the same variables but the
    count. *)
Lemma invoke_next_active g k w c g' c' :
  Inv w → closures w !! g = Some c → active c →
  alter (set_valueCount (nextCount w c k)) g (closures w) !! g' = Some c' →
  active c' →
  g' = g ∧ values c' = values c ∧ keys c' = keys c.
Proof.
  intros HI Hc Ha Hc' Ha'.
  destruct (alter_lookup_inv _ _ _ _ _ Hc') as (c0 & Hc0 & [[Hne ->]|[-> ->]]).
  - pose proof (inv_last w HI g c Hc Ha).
    pose proof (inv_last w HI g' c0 Hc0 Ha'). lia.
  - assert (c0 = c) as -> by congruence. done.
Qed.

Lemma invoke_error_idle g w c a :
  Inv w → closures w !! g = Some c → active c →
  ∀ g' c', alter (cancel a) g (closures w) !! g' = Some c' → ¬ active c'.
Proof.
  intros HI Hc Ha g' c' Hc' [Hs' Hk'].
  destruct (cancel_lookup_inv _ _ _ _ _ Hc')
    as (c0 & Hc0 & K & _ & _ & _ & _ & L).
  destruct (L Hs') as (Hs0 & Hne & ->).
  pose proof (inv_last w HI g c Hc Ha).
  pose proof (inv_last w HI g' c0 Hc0 (conj Hs0 Hk')). lia.
Qed.

Lemma accumulates_latest_invoke g k call w :
  Inv w → (g, k) ∈ subscribeCalls w →
  accumulates_latest w → accumulates_latest (invoke g k call w).
Proof.
  intros HI Hin HP.
  assert (Hlog : ∀ call' : Call,
            (isSubscribed <$> closures w !! g = Some false
             ∨ ∀ v, call' ≠ CNext v) →
            accumulates_latest (log_delivered (g, k) call' w)).
  { intros call' Hwhy g' c' m k' Hc' Ha' Hm Hk'.
    cbn [log_delivered delivered closures heap] in *.
    rewrite latest_snoc_other; [by apply (HP g' c')|].
    destruct Hwhy as [Hdead|Hnot]; [left|by right].
    intros [= -> ->]. rewrite Hc' in Hdead. cbn in Hdead.
    destruct Ha' as [Hs' _]. congruence. }
  destruct (invoke_cases g k call w HI Hin)
    as (c & Hc & Hk & [[Hs ->]|[[-> ->]|(Ha & Hg & [[v ->]|[e ->]])]]).
  - apply Hlog. left. by rewrite Hc, <- Hs.
  - apply Hlog. by right.
  - destruct Ha as [Hs Hkeys].
    rewrite (invoke_next_live g k v w c) by done. cbn zeta.
    destruct (inv_values w HI g c Hc (conj Hs Hkeys)) as (m0 & Hm0 & _).
    pose proof (inv_bound w HI (values c) (mk_is_Some _ _ Hm0)) as Hlt.
    intros g' c' m k' Hc' Ha' Hm Hk'.
    cbn [delivered closures heap] in Hc', Hm |- *.
    destruct (invoke_next_active g k w c g' c' HI Hc (conj Hs Hkeys) Hc' Ha')
      as (-> & Hv & _).
    rewrite Hv in Hm.
    assert (m = assign k v m0) as ->.
    { unfold deref in Hm. rewrite Hm0 in Hm. cbn in Hm.
      destruct (_ =? _) in Hm.
      - rewrite lookup_insert_ne, lookup_insert_eq in Hm by lia. congruence.
      - rewrite lookup_insert_eq in Hm. congruence. }
    destruct (decide (k = "__proto__")) as [->|Hown].
    { rewrite assign_proto.
      rewrite latest_snoc_other by (left; congruence).
      by apply (HP g c). }
    rewrite assign_ne by done.
    destruct (decide (k' = k)) as [->|Hne].
    + by rewrite lookup_insert_eq, latest_snoc_next.
    + rewrite lookup_insert_ne by done.
      rewrite latest_snoc_other by (left; congruence).
      by apply (HP g c).
  - rewrite (invoke_error_live g k e w c) by (done || apply Ha).
    intros g' c' m k' Hc' Ha'. cbn in Hc'.
    by destruct (invoke_error_idle g w c _ HI Hc Ha g' c' Hc').
Qed.

Lemma accumulates_latest_preserved : Preserved accumulates_latest.
Proof.
  apply Preserved_of_primitives.
  - intros w _ HP. exact HP.
  - intros g w _ _ HP g' c' m k Hc' Ha'.
    rewrite heap_unsubscribeAll, delivered_unsubscribeAll.
    apply (HP g' c'); [|done]. by apply (unsubscribeAll_active g).
  - intros o w HI Hidle HP g c m k Hc Ha Hm _.
    destruct (begin_active o w g c Hidle Hc Ha) as [-> ->].
    cbn in Hm |- *. rewrite lookup_insert_eq in Hm. injection Hm as <-.
    rewrite lookup_empty. symmetry. apply latest_None.
    intros call Hin. pose proof (no_delivery_beyond w _ k call HI Hin). lia.
  - intros w c _ Hidle _ _ _ g' c' m k Hc' Ha'. by destruct (Hidle g' c').
  - intros g k c w _ _ _ HP. exact HP.
  - apply accumulates_latest_invoke.
  - intros l h w _ HP. exact HP.
Qed.

Lemma accumulates_latest_initial : accumulates_latest initialEngine.
Proof. intros g c m k Hc. cbn in Hc. by rewrite lookup_nil in Hc. Qed.

Lemma latest_values_published h g c l :
  HInv h → accumulates_latest (engine h) →
  closures (engine h) !! g = Some c → active c →
  no_proto_key (keys c) →
  state (engine h) = Ready l →
  ∃ m, heap (engine h) !! l = Some m
       ∧ dom m = list_to_set (keys c)
       ∧ ∀ k, m !! k = latest (g, k) (delivered (engine h)).
Proof.
  intros HH HP Hc Ha Hown Hst. pose proof (hinv_engine h HH) as HI.
  destruct (inv_values _ HI g c Hc Ha) as (m & Hm & _).
  pose proof (inv_progress _ HI g c Hc Ha Hown) as Hprog.
  pose proof (inv_last _ HI g c Hc Ha) as Hg.
  destruct (decide (valueCount c = keyCount c)) as [Hfull|Hnot].
  2:{ rewrite Hprog in Hst. discriminate. }
  destruct Hprog as (l' & Hst' & Hheap).
  assert (l' = l) as -> by (rewrite Hst in Hst'; by injection Hst').
  assert (Hdom : dom m = list_to_set (keys c)).
  { destruct (inv_state _ HI)
      as [Hl|[[e He]|(l2 & c2 & m2 & H1 & H2 & H3 & _ & H4)]].
    - rewrite Hl in Hst. discriminate.
    - rewrite He in Hst. discriminate.
    - assert (l2 = l) as -> by (rewrite Hst in H1; by injection H1).
      rewrite (last_lookup_closure _ g c Hc Hg) in H2. injection H2 as <-.
      rewrite Hheap, Hm in H3. injection H3 as <-. by apply H4. }
  exists m. split; [by rewrite Hheap|]. split; [done|].
  intros k. destruct (decide (k = "__proto__")) as [->|Hk];
    [|by apply (HP g c)].
  rewrite latest_None.
  - apply not_elem_of_dom. rewrite Hdom. by rewrite elem_of_list_to_set.
  - intros call Hin. apply (inv_delivered _ HI) in Hin.
    destruct (inv_calls _ HI _ _ Hin) as (c' & Hc' & Hk).
    assert (c' = c) as -> by congruence. done.
Qed.

(** X1. While a generation without a key named [__proto__] accepts
    emissions and the state is ready, the published data has exactly the
    keys of the generation's source map and holds, under each key, the
    value of the latest [onNext] invocation made for that key in this
    generation; earlier values and the invocations of other generations do
    not show. *)
Theorem data_holds_the_latest_values
    (evs : list Event) (h : Host) (g : nat) (c : Closure) (l : loc) :
  run initialHost evs = inr h →
  closures (engine h) !! g = Some c → active c →
  no_proto_key (keys c) →
  state (engine h) = Ready l →
  ∃ m, heap (engine h) !! l = Some m
       ∧ dom m = list_to_set (keys c)
       ∧ ∀ k, m !! k = latest (g, k) (delivered (engine h)).
Proof.
  intros Hrun. apply latest_values_published.
  - by apply (HInv_reachable evs).
  - by destruct (reachable_preserved accumulates_latest evs h
                   accumulates_latest_preserved accumulates_latest_initial
                   Hrun).
Qed.

Lemma data_holds_the_latest_values_witness :
  ∃ m, heap (engine ready) !! 4 = Some m
       ∧ dom m = list_to_set ["first"; "second"]
       ∧ ∀ k, m !! k = latest (0, k) (delivered (engine ready)).
Proof.
  apply (data_holds_the_latest_values
           [Evaluate ∅ None (λ _, two_sources);
            Emit 0 "second" (Adapter.Push (CNext (VStr "second")))]
           ready 0
           (mkClosure true 2 3 2 two_sources ["first"; "second"] 2) 4).
  - vm_compute. reflexivity.
  - vm_compute. reflexivity.
  - split; [reflexivity|discriminate].
  - apply (bool_decide_unpack _). vm_compute. exact I.
  - vm_compute. reflexivity.
Defined.

(** * Published snapshots are left alone *)

Lemma frozen_invoke l m g k call w :
  Inv w → (g, k) ∈ subscribeCalls w →
  frozen l m w → frozen l m (invoke g k call w).
Proof.
  intros HI Hin [Hl Hnot].
  pose proof (inv_bound w HI l (mk_is_Some _ _ Hl)) as Hlt.
  destruct (invoke_cases g k call w HI Hin)
    as (c & Hc & Hk & [[Hs ->]|[[-> ->]|(Ha & Hg & [[v ->]|[e ->]])]]);
    [done|done| |].
  - rewrite (invoke_next_live g k v w c) by (done || apply Ha). cbn zeta.
    pose proof (Hnot g c Hc Ha) as Hne. split.
    + cbn. destruct (_ =? _).
      * rewrite !lookup_insert_ne by lia. done.
      * rewrite lookup_insert_ne by done. done.
    + intros g' c' Hc' Ha'. cbn in Hc'.
      destruct (invoke_next_active g k w c g' c' HI Hc Ha Hc' Ha')
        as (_ & -> & _). done.
  - rewrite (invoke_error_live g k e w c) by (done || apply Ha). split; [done|].
    intros g' c' Hc' Ha'. cbn in Hc'.
    by destruct (invoke_error_idle g w c _ HI Hc Ha g' c' Hc').
Qed.

Lemma frozen_preserved l m : Preserved (frozen l m).
Proof.
  apply Preserved_of_primitives.
  - intros w _ HP. exact HP.
  - intros g w _ _ [Hl Hnot]. split; [by rewrite heap_unsubscribeAll|].
    intros g' c' Hc' Ha'. apply (Hnot g' c'); [|done].
    by apply (unsubscribeAll_active g).
  - intros o w HI Hidle [Hl Hnot].
    pose proof (inv_bound w HI l (mk_is_Some _ _ Hl)) as Hlt. split.
    + cbn. rewrite lookup_insert_ne by lia. done.
    + intros g c Hc Ha. destruct (begin_active o w g c Hidle Hc Ha) as [_ ->].
      cbn. lia.
  - intros w c HI Hidle _ _ [Hl Hnot].
    pose proof (inv_bound w HI l (mk_is_Some _ _ Hl)) as Hlt. split.
    + cbn. rewrite lookup_insert_ne by lia. done.
    + intros g' c' Hc' Ha'. by destruct (Hidle g' c').
  - intros g k c w _ _ _ HP. exact HP.
  - apply frozen_invoke.
  - intros l' h w _ HP. exact HP.
Qed.

Lemma trivially_preserved : Preserved (λ _, True).
Proof. by constructor. Qed.

Lemma fully_subscribed_reachable evs h :
  run initialHost evs = inr h → fully_subscribed (engine h).
Proof.
  intros Hrun.
  by destruct (reachable_preserved (λ _, True) evs h trivially_preserved I Hrun).
Qed.

(** X2. The object handed out as [data] is never written to again: whatever
    happens to the hook afterwards (emissions, errors, re-evaluations that
    resubscribe, removal), the object at that address keeps the entries it
    had when it was published. *)
Theorem published_data_is_never_mutated
    (evs later : list Event) (h h' : Host) (l : loc)
    (m : gmap string Value) :
  run initialHost evs = inr h →
  state (engine h) = Ready l →
  heap (engine h) !! l = Some m →
  run h later = inr h' →
  heap (engine h') !! l = Some m.
Proof.
  intros Hrun Hst Hl Hlater.
  pose proof (HInv_reachable evs h Hrun) as HH.
  assert (Hfrozen : frozen l m (engine h)).
  { split; [done|]. intros g c Hc Ha Hv.
    destruct (inv_values _ (hinv_engine h HH) g c Hc Ha)
      as (m' & _ & _ & Hne & _).
    apply Hne. rewrite Hst. cbn. by rewrite Hv. }
  destruct (run_preserved (frozen l m) h later h' (frozen_preserved l m) HH
              (fully_subscribed_reachable evs h Hrun) Hfrozen Hlater)
    as [[Hl' _] _].
  exact Hl'.
Qed.

Lemma published_data_is_never_mutated_witness :
  heap (engine (match run ready
                        [Emit 0 "first" (Adapter.Push (CNext (VStr "again")));
                         Unmount] with
                | inr h' => h'
                | inl _ => ready
                end)) !! 4
  = Some (<["first" := VStr "first"]> (<["second" := VStr "second"]> ∅)).
Proof.
  apply (published_data_is_never_mutated
           [Evaluate ∅ None (λ _, two_sources);
            Emit 0 "second" (Adapter.Push (CNext (VStr "second")))]
           [Emit 0 "first" (Adapter.Push (CNext (VStr "again"))); Unmount]
           ready).
  - vm_compute. reflexivity.
  - vm_compute. reflexivity.
  - vm_compute. reflexivity.
  - vm_compute. reflexivity.
Defined.

(** * Where a published error comes from *)

Lemma error_was_delivered_later w w' d :
  state w' = state w → generations w' = generations w →
  delivered w' = delivered w ++ d →
  error_was_delivered w → error_was_delivered w'.
Proof.
  intros Hs Hg Hd HP e He. rewrite Hs in He.
  destruct (HP e He) as (g & k & Hlast & Hin).
  exists g, k. split; [congruence|]. rewrite Hd. apply elem_of_app. by left.
Qed.

Lemma error_was_delivered_invoke g k call w :
  Inv w → (g, k) ∈ subscribeCalls w →
  error_was_delivered w → error_was_delivered (invoke g k call w).
Proof.
  intros HI Hin HP.
  destruct (invoke_cases g k call w HI Hin)
    as (c & Hc & Hk & [[Hs ->]|[[-> ->]|(Ha & Hg & [[v ->]|[e ->]])]]).
  - by apply (error_was_delivered_later w _ [((g, k), call)]).
  - by apply (error_was_delivered_later w _ [((g, k), CComplete)]).
  - rewrite (invoke_next_live g k v w c) by (done || apply Ha). cbn zeta.
    intros e He. cbn in He. destruct (_ =? _); [done|].
    destruct (HP e He) as (g' & k' & Hlast & Hin').
    exists g', k'. unfold generations in *. cbn. rewrite length_alter.
    split; [done|]. apply elem_of_app. by left.
  - rewrite (invoke_error_live g k e w c) by (done || apply Ha).
    intros e' He. cbn in He. injection He as <-.
    exists g, k. unfold generations in *. cbn. rewrite length_alter.
    split; [done|]. apply elem_of_app. right. by apply list_elem_of_singleton.
Qed.

Lemma error_was_delivered_preserved : Preserved error_was_delivered.
Proof.
  apply Preserved_of_primitives.
  - intros w _ HP. exact HP.
  - intros g w _ _ HP.
    apply (error_was_delivered_later w _ []); try done.
    + apply state_unsubscribeAll.
    + unfold generations. apply unsubscribeAll_length.
    + by rewrite app_nil_r, delivered_unsubscribeAll.
  - intros o w _ _ _ e He. done.
  - intros w c _ _ _ _ _ e He. done.
  - intros g k c w _ _ _ HP. exact HP.
  - apply error_was_delivered_invoke.
  - intros l h w _ HP. exact HP.
Qed.

Lemma delivered_invoke g k call w :
  delivered (invoke g k call w) = delivered w ++ [((g, k), call)].
Proof.
  destruct (closures w !! g) as [c|] eqn:Hc.
  2:{ unfold invoke, onNext, onError, onComplete.
      cbn [log_delivered closures]. rewrite Hc. by destruct call. }
  destruct (isSubscribed c) eqn:Hs.
  2:{ by rewrite (invoke_cancelled g k call w c). }
  destruct call as [v|e|]; [| |done].
  - by rewrite (invoke_next_live g k v w c).
  - by rewrite (invoke_error_live g k e w c).
Qed.

Lemma delivered_invoke_all g k calls w :
  delivered (invoke_all g k calls w)
  = delivered w ++ map (pair (g, k)) calls.
Proof.
  revert w. induction calls as [|call calls IH]; intros w.
  - cbn. by rewrite app_nil_r.
  - change (invoke_all g k (call :: calls) w)
      with (invoke_all g k calls (invoke g k call w)).
    rewrite IH, delivered_invoke. cbn [map]. by rewrite <- app_assoc.
Qed.

Lemma by_callbacks_source w w' g c :
  by_callbacks w w' → closures w !! g = Some c →
  ∃ c', closures w' !! g = Some c'
        ∧ observablesObject c' = observablesObject c.
Proof.
  intros Hcb Hc. destruct (by_callbacks_lookup w w' g c Hcb Hc) as [c' Hc'].
  exists c'. split; [done|]. destruct Hcb as (_ & _ & d & _ & H).
  by destruct (H g c c' Hc Hc') as (_ & ? & _).
Qed.

Lemma unsubscribeAll_source g w g' c :
  closures w !! g' = Some c →
  ∃ c', closures (unsubscribeAll g w) !! g' = Some c'
        ∧ observablesObject c' = observablesObject c.
Proof.
  intros Hc. destruct (closures w !! g) as [c0|] eqn:Hc0.
  - rewrite (unsubscribeAll_eq g w c0 Hc0), cancel_alter. cbn.
    rewrite (alter_lookup_fwd _ _ g g' c Hc). eexists. split; [done|].
    by case_decide.
  - unfold unsubscribeAll. rewrite Hc0. by exists c.
Qed.

Lemma delivered_by_sources_invoke_all g k calls w c :
  closures w !! g = Some c →
  (∀ call, call ∈ calls → sent_by (prop (observablesObject c) k) call) →
  delivered_by_sources w →
  delivered_by_sources (invoke_all g k calls w).
Proof.
  intros Hc Hsent HP g' k' call Hin.
  pose proof (by_callbacks_invoke_all g k calls w) as Hcb.
  rewrite delivered_invoke_all in Hin. apply elem_of_app in Hin as [Hin|Hin].
  - destruct (HP g' k' call Hin) as (c' & Hc' & Hs).
    destruct (by_callbacks_source _ _ g' c' Hcb Hc') as (c2 & Hc2 & Ho).
    exists c2. by rewrite Ho.
  - apply list_elem_of_fmap in Hin as (call' & [= -> -> ->] & Hin).
    destruct (by_callbacks_source _ _ g c Hcb Hc) as (c2 & Hc2 & Ho).
    exists c2. rewrite Ho. auto.
Qed.

Lemma delivered_by_sources_signal g key s w :
  delivered_by_sources w → delivered_by_sources (signal g key s w).
Proof.
  intros HP. unfold signal. case_bool_decide; [|done].
  destruct (closures w !! g) as [c|] eqn:Hc; [|done].
  destruct (Adapter.result _) as [e|via] eqn:Hres; [done|].
  apply (delivered_by_sources_invoke_all g key _ w c); [done| |done].
  intros call Hin. right. by exists via, s.
Qed.

Lemma delivered_by_sources_during g k o schedule calls w :
  (∃ c, closures w !! g = Some c ∧ observablesObject c = o) →
  (∀ call, call ∈ calls → sent_by (prop o k) call) →
  delivered_by_sources w →
  delivered_by_sources (during g k schedule calls w).
Proof.
  revert calls w. induction schedule as [|[|g' k' s] schedule IH];
    intros calls w (c & Hc & Ho) Hsent HP; cbn [during].
  - apply (delivered_by_sources_invoke_all g k _ w c); [done| |done].
    by rewrite Ho.
  - destruct calls as [|call calls]; [apply IH; eauto|].
    apply IH.
    + destruct (by_callbacks_source _ _ g c (by_callbacks_invoke g k call w)
                  Hc) as (c2 & Hc2 & Ho2).
      exists c2. split; [done|congruence].
    + intros call' Hin. apply Hsent. by right.
    + apply (delivered_by_sources_invoke_all g k [call] w c); [done| |done].
      intros call' Hin. apply list_elem_of_singleton in Hin as ->.
      rewrite Ho. apply Hsent. by left.
  - apply IH; [|done|by apply delivered_by_sources_signal].
    destruct (by_callbacks_source _ _ g c (signal_by_callbacks g' k' s w) Hc)
      as (c2 & Hc2 & Ho2).
    exists c2. split; [done|congruence].
Qed.

Lemma delivered_by_sources_preserved : Preserved delivered_by_sources.
Proof.
  constructor.
  - intros w _ HP. exact HP.
  - intros g w _ _ HP g' k call Hin. rewrite delivered_unsubscribeAll in Hin.
    destruct (HP g' k call Hin) as (c & Hc & Hs).
    destruct (unsubscribeAll_source g w g' c Hc) as (c' & Hc' & Ho).
    exists c'. by rewrite Ho.
  - intros o w _ _ HP g k call Hin.
    destruct (HP g k call Hin) as (c & Hc & Hs).
    exists c. split; [by apply begin_lookup_old|done].
  - intros w c _ _ _ _ HP. exact HP.
  - intros g o c done key rest w w' _ _ Hc Hs _ _ Hrun HP.
    rewrite (subscribeKey_eq g key w c) in Hrun by done. cbn zeta in Hrun.
    destruct (Adapter.result _); [done|]. injection Hrun as <-.
    apply (delivered_by_sources_during g key (observablesObject c) _ _
             (log_subscribe (g, key) w)); [by exists c| |done].
    intros call Hin. by left.
  - intros g key s w _ _ HP. by apply delivered_by_sources_signal.
Qed.

(** The record and query branches of the adapter hand out no error
    callback. *)
Lemma sent_by_error source e :
  sent_by source (CError e) →
  Adapter.result (Adapter.subscribe source) = inr Adapter.ViaObserve
  ∨ Adapter.result (Adapter.subscribe source) = inr Adapter.ViaSubscribe.
Proof.
  assert (Hrec : ∀ v l, CError e ∉ map (Adapter.recordSubscriber v) l).
  { intros v l Hin. apply list_elem_of_fmap in Hin as (x & Hx & _).
    unfold Adapter.recordSubscriber in Hx. by destruct (truthy x). }
  assert (Hnext : ∀ l, CError e ∉ map CNext l).
  { intros l Hin. by apply list_elem_of_fmap in Hin as (x & Hx & _). }
  unfold sent_by, Adapter.subscribe.
  destruct (Adapter.tag_is _ "model").
  { cbn. intros [Hin|(via & s & [= <-] & Hin)]; exfalso.
    - apply elem_of_cons in Hin as [?|Hin]; [done|]. by apply Hrec in Hin.
    - destruct s as [arg|c]; cbn in Hin; [|by apply elem_of_nil in Hin].
      apply list_elem_of_singleton in Hin.
      unfold Adapter.recordSubscriber in Hin. by destruct (truthy arg). }
  destruct (Adapter.tag_is _ "query").
  { cbn. intros [Hin|(via & s & [= <-] & Hin)]; exfalso.
    - by apply Hnext in Hin.
    - destruct s as [arg|c]; cbn in Hin; [|by apply elem_of_nil in Hin].
      by apply list_elem_of_singleton in Hin. }
  destruct (Adapter.method observe source) as [x|[p|]]; cbn.
  - intros [Hin|(via & s & [=] & _)]. by apply elem_of_nil in Hin.
  - by left.
  - destruct (Adapter.method subscribe_method source) as [x|[p|]]; cbn.
    + intros [Hin|(via & s & [=] & _)]. by apply elem_of_nil in Hin.
    + by right.
    + intros [Hin|(via & s & [=] & _)]. by apply elem_of_nil in Hin.
Qed.

(** X3. An error in the state is the argument of an [onError] invocation
    made for a key of the newest generation, and the source under that key
    is one the adapter subscribes to through [observe()] or [subscribe()]:
    records and queries are given no error callback, so a map that holds
    only records and queries never puts the hook in the error state. *)
Theorem errors_come_from_push_sources
    (evs : list Event) (h : Host) (e : Err) :
  run initialHost evs = inr h →
  state (engine h) = Errored e →
  ∃ g c k, S g = generations (engine h)
    ∧ closures (engine h) !! g = Some c ∧ k ∈ keys c
    ∧ ((g, k), CError e) ∈ delivered (engine h)
    ∧ (Adapter.result (Adapter.subscribe (prop (observablesObject c) k))
         = inr Adapter.ViaObserve
       ∨ Adapter.result (Adapter.subscribe (prop (observablesObject c) k))
         = inr Adapter.ViaSubscribe).
Proof.
  intros Hrun Hst.
  pose proof (hinv_engine h (HInv_reachable evs h Hrun)) as HI.
  destruct (reachable_preserved error_was_delivered evs h
              error_was_delivered_preserved) as [HP _]; [done|done|].
  destruct (reachable_preserved delivered_by_sources evs h
              delivered_by_sources_preserved) as [HQ _]; [|done|].
  { intros g k call Hin. cbn in Hin. by apply elem_of_nil in Hin. }
  destruct (HP e Hst) as (g & k & Hg & Hin).
  destruct (HQ g k _ Hin) as (c & Hc & Hsent).
  destruct (inv_calls _ HI g k (inv_delivered _ HI g k _ Hin))
    as (c' & Hc' & Hk).
  assert (c' = c) as -> by congruence.
  exists g, c, k. repeat split; try done. by apply (sent_by_error _ e).
Qed.

Lemma errors_come_from_push_sources_witness :
  ∃ g c k, S g = generations (engine failed)
    ∧ closures (engine failed) !! g = Some c ∧ k ∈ keys c
    ∧ ((g, k), CError "Test error") ∈ delivered (engine failed)
    ∧ (Adapter.result (Adapter.subscribe (prop (observablesObject c) k))
         = inr Adapter.ViaObserve
       ∨ Adapter.result (Adapter.subscribe (prop (observablesObject c) k))
         = inr Adapter.ViaSubscribe).
Proof.
  apply (errors_come_from_push_sources
           [Evaluate ∅ None (λ _, error_map)] failed "Test error").
  - vm_compute. reflexivity.
  - vm_compute. reflexivity.
Defined.

(** * The unsubscribe handles *)

Lemma handles_of_idemp g l : handles_of g (handles_of g l) = handles_of g l.
Proof.
  unfold handles_of. induction l as [|h l IH]; [done|].
  rewrite filter_cons. case_decide as Hh.
  - rewrite filter_cons, decide_True by done. f_equal. exact IH.
  - done.
Qed.

Lemma handles_of_nil_iff g l :
  handles_of g l = [] ↔ ∀ h, h ∈ l → h.1 ≠ g.
Proof.
  split.
  - intros Hnil h Hin Hg.
    assert (Hh : h ∈ handles_of g l) by (by apply elem_of_handles_of).
    rewrite Hnil in Hh. by apply elem_of_nil in Hh.
  - intros Hnot. destruct (handles_of g l) as [|h l'] eqn:E; [done|exfalso].
    assert (Hh : h ∈ handles_of g l) by (rewrite E; by left).
    apply elem_of_handles_of in Hh as [Hg Hin]. by apply (Hnot h).
Qed.

(** A generation that accepts emissions has had none of its handles
    invoked. *)
Lemma live_handles_unused cs w g c :
  Handles cs w → closures w !! g = Some c → isSubscribed c = true →
  handles_of g (unsubscribed w) = [].
Proof.
  intros HH Hc Hs. apply handles_of_nil_iff. intros h Hin Hg.
  destruct (hd_live cs w HH g c Hc Hs) as [_ Hnot].
  apply (Hnot h); [|done]. apply elem_of_handles_of. split; [done|].
  by apply (hd_opened cs w HH).
Qed.

Lemma Handles_frame cs w w' :
  Handles cs w →
  arrays w' = arrays w → unsubscribed w' = unsubscribed w →
  nextLoc w ≤ nextLoc w' →
  (∀ x, x ∈ delivered w → x ∈ delivered w') →
  (∀ g c', closures w' !! g = Some c' →
     ∃ c, closures w !! g = Some c
          ∧ subscriptions c' = subscriptions c
          ∧ isSubscribed c' = isSubscribed c) →
  Handles cs w'.
Proof.
  intros [H1 H2 H3 H4 H5 H6 H7 H8] Ha Hu Hn Hd Hcl.
  assert (Harr : ∀ l, array w' l = array w l)
    by (intros l; unfold array; by rewrite Ha).
  constructor; rewrite ?Hu; try done.
  - intros g c' Hc' Hs'. destruct (Hcl g c' Hc') as (c & Hc & -> & E).
    rewrite Harr. apply (H4 g c Hc). congruence.
  - intros g c' Hc' Hs'. destruct (Hcl g c' Hc') as (c & Hc & -> & E).
    rewrite Harr. apply (H5 g c Hc). congruence.
  - intros g c' Hc' Hs'. destruct (Hcl g c' Hc') as (c & Hc & _ & E).
    destruct (H6 g c Hc) as (rest & E1 & E2 & E3); [congruence|].
    exists rest. split; [done|]. split; [done|].
    intros Hne. destruct (E3 Hne) as (k & e & He). exists k, e. by apply Hd.
  - intros g c' Hc'. destruct (Hcl g c' Hc') as (c & Hc & -> & _).
    pose proof (H7 g c Hc). lia.
  - intros g g' c1 c2 Hc1 Hc2 Heq.
    destruct (Hcl g c1 Hc1) as (c1' & Hc1' & E1 & _).
    destruct (Hcl g' c2 Hc2) as (c2' & Hc2' & E2 & _).
    apply (H8 g g' c1' c2' Hc1' Hc2'). congruence.
Qed.

Lemma Handles_unsubscribeAll cs g w :
  Handles cs w → Handles cs (unsubscribeAll g w).
Proof.
  intros HH. destruct (closures w !! g) as [c|] eqn:Hc.
  2:{ unfold unsubscribeAll. by rewrite Hc. }
  rewrite (unsubscribeAll_eq g w c Hc), cancel_alter.
  pose proof HH as [H1 H2 H3 H4 H5 H6 H7 H8].
  assert (Harr : array w (subscriptions c)
                 = if isSubscribed c then handles_of g cs else []).
  { destruct (isSubscribed c) eqn:Hs; [by apply (H4 g c)|by apply (H5 g c)]. }
  assert (Hsub : ∀ h, h ∈ array w (subscriptions c) →
                      h.1 = g ∧ h ∈ cs ∧ (h ∉ unsubscribed w)
                      ∧ isSubscribed c = true).
  { intros h Hh. rewrite Harr in Hh. destruct (isSubscribed c) eqn:Hs.
    - pose proof Hh as Hh'. apply elem_of_handles_of in Hh' as [? ?].
      repeat split; try done. by apply (H4 g c Hc Hs).
    - by apply elem_of_nil in Hh. }
  match goal with |- Handles cs ?x => set (w' := x) end.
  assert (Hold : ∀ l, l < nextLoc w → array w' l = array w l).
  { intros l Hl. unfold array, w'. cbn. by rewrite lookup_insert_ne by lia. }
  assert (Hnew : array w' (nextLoc w) = []).
  { unfold array, w'. cbn. by rewrite lookup_insert_eq. }
  assert (Hcl : ∀ g' c', closures w' !! g' = Some c' →
            ∃ c0, closures w !! g' = Some c0
                  ∧ ((g' ≠ g ∧ c' = c0)
                     ∨ (g' = g ∧ c' = cancel (nextLoc w) c0))).
  { intros g' c' Hc'. by apply alter_lookup_inv. }
  change (unsubscribed w')
    with (unsubscribed w ++ array w (subscriptions c)) in *.
  constructor.
  - done.
  - change (NoDup (unsubscribed w ++ array w (subscriptions c))).
    apply NoDup_app. split; [done|]. split.
    + intros h Hh Hh'. by destruct (Hsub h Hh') as (_ & _ & ? & _).
    + rewrite Harr. destruct (isSubscribed c); [|apply NoDup_nil_2].
      by apply NoDup_filter.
  - intros h Hh.
    change (h ∈ unsubscribed w ++ array w (subscriptions c)) in Hh.
    apply elem_of_app in Hh as [Hh|Hh]; [by apply H3|].
    by destruct (Hsub h Hh) as (_ & ? & _).
  - intros g' c' Hc' Hs'.
    destruct (Hcl g' c' Hc') as (c0 & Hc0 & [[Hne ->]|[-> ->]]); [|done].
    rewrite Hold by (by apply (H7 g' c0)).
    destruct (H4 g' c0 Hc0 Hs') as [E Hnot]. split; [done|].
    intros h Hh Hin.
    change (h ∈ unsubscribed w ++ array w (subscriptions c)) in Hin.
    apply elem_of_app in Hin as [Hin|Hin]; [by apply (Hnot h)|].
    destruct (Hsub h Hin) as (Hg & _).
    apply elem_of_handles_of in Hh as [Hg' _]. congruence.
  - intros g' c' Hc' Hs'.
    destruct (Hcl g' c' Hc') as (c0 & Hc0 & [[Hne ->]|[-> ->]]).
    + rewrite Hold by (by apply (H7 g' c0)). by apply (H5 g' c0).
    + exact Hnew.
  - intros g' c' Hc' Hs'.
    change (delivered w') with (delivered w).
    change (unsubscribed w')
      with (unsubscribed w ++ array w (subscriptions c)).
    destruct (Hcl g' c' Hc') as (c0 & Hc0 & [[Hne ->]|[-> ->]]).
    + destruct (H6 g' c0 Hc0 Hs') as (rest & E1 & E2 & E3).
      exists rest. split; [|done].
      rewrite handles_of_app, E1.
      assert (handles_of g' (array w (subscriptions c)) = []) as ->.
      { apply handles_of_nil_iff. intros h Hh.
        destruct (Hsub h Hh) as (-> & _). done. }
      by rewrite app_nil_r.
    + assert (c0 = c) as -> by congruence.
      destruct (isSubscribed c) eqn:Hs.
      * exists []. rewrite handles_of_app, Harr, handles_of_idemp.
        rewrite (live_handles_unused cs w g c HH Hc Hs). cbn.
        rewrite app_nil_r. split; [done|]. split; [lia|]. done.
      * destruct (H6 g c Hc Hs) as (rest & E1 & E2 & E3).
        exists rest. rewrite handles_of_app, Harr. cbn.
        by rewrite app_nil_r.
  - intros g' c' Hc'. change (nextLoc w') with (S (nextLoc w)).
    destruct (Hcl g' c' Hc') as (c0 & Hc0 & [[Hne ->]|[-> ->]]).
    + pose proof (H7 g' c0 Hc0). lia.
    + cbn. lia.
  - intros g1 g2 c1 c2 Hc1 Hc2 Heq.
    destruct (Hcl g1 c1 Hc1) as (c1' & Hc1' & [[Hne1 ->]|[-> ->]]);
      destruct (Hcl g2 c2 Hc2) as (c2' & Hc2' & [[Hne2 ->]|[-> ->]]);
      try done.
    + by apply (H8 g1 g2 c1' c2').
    + cbn in Heq. pose proof (H7 g1 c1' Hc1'). lia.
    + cbn in Heq. pose proof (H7 g2 c2' Hc2'). lia.
Qed.

Lemma invoke_error_unsubscribeAll g k e w c :
  closures w !! g = Some c → isSubscribed c = true →
  arrays (invoke g k (CError e) w) = arrays (unsubscribeAll g w)
  ∧ unsubscribed (invoke g k (CError e) w) = unsubscribed (unsubscribeAll g w)
  ∧ nextLoc (invoke g k (CError e) w) = nextLoc (unsubscribeAll g w)
  ∧ closures (invoke g k (CError e) w) = closures (unsubscribeAll g w).
Proof.
  intros Hc Hs. rewrite (invoke_error_live g k e w c) by done.
  by rewrite (unsubscribeAll_eq g w c Hc), cancel_alter.
Qed.

Lemma set_valueCount_lookup_inv n g (cs : list Closure) g' c' :
  alter (set_valueCount n) g cs !! g' = Some c' →
  ∃ c, cs !! g' = Some c
       ∧ subscriptions c' = subscriptions c
       ∧ isSubscribed c' = isSubscribed c.
Proof.
  intros Hc'.
  destruct (alter_lookup_inv _ _ _ _ _ Hc') as (c0 & Hc0 & [[_ ->]|[_ ->]]);
    by exists c0.
Qed.

Lemma Handles_invoke cs g k call w :
  Inv w → (g, k) ∈ subscribeCalls w →
  Handles cs w → Handles cs (invoke g k call w).
Proof.
  intros HI Hin HH.
  assert (Hlog : ∀ call', Handles cs (log_delivered (g, k) call' w)).
  { intros call'. apply (Handles_frame cs w); try done.
    - intros x Hx. cbn. apply elem_of_app. by left.
    - intros g' c' Hc'. by exists c'. }
  destruct (invoke_cases g k call w HI Hin)
    as (c & Hc & Hk & [[Hs ->]|[[-> ->]|(Ha & Hg & [[v ->]|[e ->]])]]);
    [done|done| |].
  - rewrite (invoke_next_live g k v w c) by (done || apply Ha). cbn zeta.
    apply (Handles_frame cs w); try done.
    + cbn. destruct (_ =? _); lia.
    + intros x Hx. cbn. apply elem_of_app. by left.
    + intros g' c' Hc'. cbn in Hc'.
      exact (set_valueCount_lookup_inv _ _ _ _ _ Hc').
  - destruct Ha as [Hs _].
    destruct (invoke_error_unsubscribeAll g k e w c Hc Hs)
      as (E1 & E2 & E3 & E4).
    apply (Handles_frame cs (unsubscribeAll g w));
      [by apply Handles_unsubscribeAll|done|done|lia| |].
    + intros x Hx. rewrite delivered_unsubscribeAll in Hx.
      rewrite delivered_invoke. apply elem_of_app. by left.
    + intros g' c' Hc'. rewrite E4 in Hc'. by exists c'.
Qed.

Lemma Handles_invoke_all cs g k calls w :
  Inv w → (g, k) ∈ subscribeCalls w →
  Handles cs w → Handles cs (invoke_all g k calls w).
Proof.
  intros HI Hin HH.
  apply (invoke_all_preserved (Handles cs)); try done.
  intros call w' HI' Hin' HH'. by apply Handles_invoke.
Qed.

Lemma pending_frame g target cs w w' :
  pending g target cs w →
  unsubscribed w' = unsubscribed w → nextLoc w ≤ nextLoc w' →
  generations w' = generations w →
  (∀ x, x ∈ delivered w → x ∈ delivered w') →
  (∀ g c', closures w' !! g = Some c' →
     ∃ c, closures w !! g = Some c
          ∧ subscriptions c' = subscriptions c
          ∧ isSubscribed c' = isSubscribed c) →
  pending g target cs w'.
Proof.
  intros (Hlt & Hlast & Hown & Hlive & Hdead) Hu Hn Hg Hd Hcl.
  split; [lia|]. split; [congruence|]. split; [|split].
  - intros g' c' Hc' Ht. destruct (Hcl g' c' Hc') as (c & Hc & E1 & E2).
    rewrite E2. apply (Hown g' c Hc). congruence.
  - intros c' Hc' Hs'. destruct (Hcl g c' Hc') as (c & Hc & E1 & E2).
    rewrite E1. apply (Hlive c Hc). congruence.
  - intros c' Hc' Hs'. destruct (Hcl g c' Hc') as (c & Hc & E1 & E2).
    rewrite Hu. destruct (Hdead c Hc) as [E (k & e & He)]; [congruence|].
    split; [done|]. exists k, e. by apply Hd.
Qed.

(** Whatever callback runs meanwhile, of the source being subscribed to or
    of another one. *)
Lemma pending_invoke g target cs g' k' call w :
  Inv w → (g', k') ∈ subscribeCalls w →
  Handles cs w →
  pending g target cs w → pending g target cs (invoke g' k' call w).
Proof.
  intros HI Hin HH HP.
  assert (Hlog : ∀ call', pending g target cs
                            (log_delivered (g', k') call' w)).
  { intros call'. apply (pending_frame g target cs w); try done.
    - intros x Hx. cbn. apply elem_of_app. by left.
    - intros g0 c' Hc'. by exists c'. }
  destruct (invoke_cases g' k' call w HI Hin)
    as (c & Hc & Hk & [[Hs ->]|[[-> ->]|(Ha & Hg & [[v ->]|[e ->]])]]);
    [done|done| |].
  - rewrite (invoke_next_live g' k' v w c) by (done || apply Ha). cbn zeta.
    apply (pending_frame g target cs w); try done.
    + cbn. destruct (_ =? _); lia.
    + unfold generations. cbn. by rewrite length_alter.
    + intros x Hx. cbn. apply elem_of_app. by left.
    + intros g0 c' Hc'. cbn in Hc'.
      exact (set_valueCount_lookup_inv _ _ _ _ _ Hc').
  - destruct Ha as [Hs _].
    destruct HP as (Hlt & Hlast & Hown & Hlive & Hdead).
    assert (g' = g) as -> by lia.
    rewrite (invoke_error_live g k' e w c) by done.
    split; [cbn; lia|].
    split; [unfold generations in *; cbn; by rewrite length_alter|].
    split; [|split].
    + intros g0 c' Hc' Ht. cbn in Hc'. exfalso.
      destruct (alter_lookup_inv _ _ _ _ _ Hc')
        as (c0 & Hc0 & [[Hne ->]|[-> ->]]).
      * by destruct (Hown g0 c0 Hc0 Ht).
      * cbn in Ht. lia.
    + intros c' Hc' Hs'. cbn in Hc'. exfalso.
      destruct (alter_lookup_inv _ _ _ _ _ Hc')
        as (c0 & Hc0 & [[Hne ->]|[_ ->]]); done.
    + intros c' _ _. cbn [unsubscribed delivered]. split.
      * rewrite handles_of_app.
        rewrite (live_handles_unused cs w g c HH Hc Hs).
        destruct (hd_live cs w HH g c Hc Hs) as [-> _].
        apply handles_of_idemp.
      * exists k', e. apply elem_of_app. right.
        by apply list_elem_of_singleton.
Qed.

Lemma pending_during g key target cs schedule calls w :
  Inv w → (g, key) ∈ subscribeCalls w →
  Handles cs w → pending g target cs w →
  Handles cs (during g key schedule calls w)
  ∧ pending g target cs (during g key schedule calls w).
Proof.
  intros HI Hin HH HP.
  apply (during_preserved (λ w, Handles cs w ∧ pending g target cs w));
    try done.
  intros g' k' call w' HI' Hin' [HH' HP'].
  split; [by apply Handles_invoke|by apply pending_invoke].
Qed.

Lemma Handles_push cs g key target w :
  Handles cs w → (g, key) ∉ cs → pending g target cs w →
  Handles (cs ++ [(g, key)]) (array_push target (g, key) w).
Proof.
  intros [H1 H2 H3 H4 H5 H6 H7 H8] Hnew (Hlt & Hlast & Hown & Hlive & Hdead).
  assert (Hother : ∀ g', g' ≠ g →
            handles_of g' (cs ++ [(g, key)]) = handles_of g' cs).
  { intros g' Hne. rewrite handles_of_app, handles_of_foreign by done.
    by rewrite app_nil_r. }
  assert (Hown' : handles_of g (cs ++ [(g, key)])
                  = handles_of g cs ++ [(g, key)]).
  { by rewrite handles_of_app, handles_of_own. }
  constructor.
  - apply NoDup_app. split; [done|]. split; [|apply NoDup_singleton].
    intros x Hx Hx'. apply list_elem_of_singleton in Hx'. by subst.
  - done.
  - intros h Hh. apply elem_of_app. left. by apply H3.
  - intros g' c' Hc' Hs'. rewrite array_push_lookup.
    destruct (H4 g' c' Hc' Hs') as [E Hnot].
    case_decide as Ht.
    + destruct (Hown g' c' Hc' (eq_sym Ht)) as [-> _].
      rewrite Ht, E, Hown'. split; [done|].
      intros h Hh. apply elem_of_app in Hh as [Hh|Hh]; [by apply Hnot|].
      apply list_elem_of_singleton in Hh as ->. intros Hin.
      by apply Hnew, H3.
    + assert (g' ≠ g) as Hne.
      { intros ->. apply Ht. symmetry. by apply (Hlive c'). }
      by rewrite (Hother g' Hne).
  - intros g' c' Hc' Hs'. rewrite array_push_lookup.
    rewrite decide_False; [by apply (H5 g' c')|].
    intros Ht. destruct (Hown g' c' Hc' (eq_sym Ht)) as [_ Hs]. congruence.
  - intros g' c' Hc' Hs'.
    change (unsubscribed (array_push target (g, key) w))
      with (unsubscribed w).
    change (delivered (array_push target (g, key) w)) with (delivered w).
    destruct (decide (g' = g)) as [->|Hne].
    + destruct (Hdead c' Hc' Hs') as [E He].
      exists [(g, key)]. rewrite Hown', E. split; [done|]. split; [done|].
      intros _. exact He.
    + rewrite (Hother g' Hne). by apply (H6 g' c').
  - done.
  - done.
Qed.

Lemma handles_kept_begin o w : Inv w → handles_kept w → handles_kept (begin o w).
Proof.
  intros HI HH. pose proof HH as [H1 H2 H3 H4 H5 H6 H7 H8].
  assert (Hold : ∀ l, l < nextLoc w → array (begin o w) l = array w l).
  { intros l Hl. unfold array, begin. cbn. by rewrite lookup_insert_ne by lia. }
  assert (Hnew : array (begin o w) (nextLoc w) = []).
  { unfold array, begin. cbn. by rewrite lookup_insert_eq. }
  assert (Hnone : handles_of (length (closures w)) (subscribeCalls w) = [])
    by (by apply handles_of_beyond).
  unfold handles_kept. change (subscribeCalls (begin o w)) with (subscribeCalls w).
  constructor.
  - done.
  - done.
  - done.
  - intros g c Hc Hs.
    destruct (begin_lookup_inv o w g c Hc) as [Hc0|[-> ->]].
    + rewrite Hold by (by apply (H7 g c)). by apply (H4 g c).
    + cbn [subscriptions]. rewrite Hnew, Hnone. split; [done|].
      intros h Hh. by apply elem_of_nil in Hh.
  - intros g c Hc Hs.
    destruct (begin_lookup_inv o w g c Hc) as [Hc0|[-> ->]]; [|done].
    rewrite Hold by (by apply (H7 g c)). by apply (H5 g c).
  - intros g c Hc Hs.
    destruct (begin_lookup_inv o w g c Hc) as [Hc0|[-> ->]]; [|done].
    by apply (H6 g c).
  - intros g c Hc. change (nextLoc (begin o w)) with (S (S (nextLoc w))).
    destruct (begin_lookup_inv o w g c Hc) as [Hc0|[-> ->]].
    + pose proof (H7 g c Hc0). lia.
    + cbn. lia.
  - intros g1 g2 c1 c2 Hc1 Hc2 Heq.
    destruct (begin_lookup_inv o w g1 c1 Hc1) as [Hc1'|[-> ->]];
      destruct (begin_lookup_inv o w g2 c2 Hc2) as [Hc2'|[-> ->]]; try done.
    + by apply (H8 g1 g2 c1 c2).
    + cbn in Heq. pose proof (H7 g1 c1 Hc1'). lia.
    + cbn in Heq. pose proof (H7 g2 c2 Hc2'). lia.
Qed.

Lemma handles_kept_preserved : Preserved handles_kept.
Proof.
  constructor.
  - intros w _ HH. apply (Handles_frame _ w); try done; [cbn; lia|].
    intros g c' Hc'. by exists c'.
  - intros g w _ _ HH. unfold handles_kept. rewrite unsubscribeAll_calls.
    by apply Handles_unsubscribeAll.
  - intros o w HI _ HH. by apply handles_kept_begin.
  - intros w c _ _ _ _ HH. apply (Handles_frame _ w); try done; [cbn; lia|].
    intros g c' Hc'. by exists c'.
  - intros g o c done key rest w w' HL Hg Hc Hs Hkeys Hdone Hrun HH.
    pose proof (subscribeKey_calls g key w w' c Hc Hs Hrun) as Hcalls.
    unfold handles_kept. rewrite Hcalls.
    rewrite (subscribeKey_eq g key w c) in Hrun by done. cbn zeta in Hrun.
    destruct (Adapter.result _); [done|]. injection Hrun as <-.
    destruct HL as [HI _ _ (c' & Hc' & Ho)].
    assert (c' = c) as -> by congruence.
    assert (Hk : key ∈ keys c).
    { destruct (inv_static w HI g c Hc) as [-> _]. rewrite Ho, Hkeys.
      apply elem_of_app. right. by left. }
    assert (Hfresh : (g, key) ∉ subscribeCalls w).
    { intros Hin.
      assert (Hin' : (g, key) ∈ handles_of g (subscribeCalls w))
        by (by apply elem_of_handles_of).
      rewrite Hdone in Hin'.
      apply list_elem_of_fmap in Hin' as (k' & [= <-] & Hk').
      pose proof (NoDup_Object_keys o) as Hnd. rewrite Hkeys in Hnd.
      apply NoDup_app in Hnd as (_ & Hdisj & _).
      apply (Hdisj key Hk'). by left. }
    set (w1 := log_subscribe (g, key) w).
    assert (HI1 : Inv w1) by (by apply (Inv_log_subscribe g key w c)).
    assert (Hin1 : (g, key) ∈ subscribeCalls w1).
    { cbn. apply elem_of_app. right. by apply list_elem_of_singleton. }
    assert (HH1 : Handles (subscribeCalls w) w1).
    { apply (Handles_frame _ w); try done. intros g' c' Hc''. by exists c'. }
    assert (HP1 : pending g (subscriptions c) (subscribeCalls w) w1).
    { split; [by apply (hd_fresh _ w HH g c)|]. split; [done|].
      split; [|split].
      - intros g' c' Hc'' Ht.
        assert (g' = g) as -> by (by apply (hd_distinct _ w HH g' g c' c)).
        split; [done|]. cbn in Hc''. congruence.
      - intros c' Hc'' _. cbn in Hc''. congruence.
      - intros c' Hc'' Hs'. cbn in Hc''. congruence. }
    destruct (pending_during g key (subscriptions c) (subscribeCalls w)
                (sm_during (observablesObject c) key)
                (Adapter.calls
                   (Adapter.subscribe (prop (observablesObject c) key)))
                w1 HI1 Hin1 HH1 HP1) as [HH2 HP2].
    by apply Handles_push.
  - intros g key s w HI _ HH. unfold handles_kept.
    destruct (signal_by_callbacks g key s w) as [-> _].
    unfold signal. case_bool_decide; [|done].
    destruct (closures w !! g) as [c|]; [|done].
    destruct (Adapter.result _); [done|]. by apply Handles_invoke_all.
Qed.

Lemma subscribeKey_lookup_inv g o key w w' g' c' :
  LoopInv g o w → key ∈ Object_keys o → subscribeKey g key w = inr w' →
  closures w' !! g' = Some c' →
  ∃ c, closures w !! g' = Some c ∧ keys c' = keys c.
Proof.
  intros HL Hkey Hrun Hc'.
  destruct (subscribeKey_keeps g o key w w' HL Hkey Hrun)
    as (_ & Hev & Hlen & _).
  assert (is_Some (closures w !! g')) as [c Hc].
  { apply lookup_lt_is_Some. rewrite <- Hlen. by apply lookup_lt_Some in Hc'. }
  destruct (Hev g' c Hc) as (c1 & Hc1 & Hk & _).
  exists c. split; [done|]. congruence.
Qed.

Lemma subscribed_in_order_preserved : Preserved subscribed_in_order.
Proof.
  constructor.
  - intros w _ HP. exact HP.
  - intros g w _ _ HP g' c' Hc'. rewrite unsubscribeAll_calls.
    destruct (unsubscribeAll_lookup_inv g w g' c' Hc') as (c0 & Hc0 & -> & _).
    by apply (HP g' c0).
  - intros o w HI _ HP g c Hc.
    destruct (begin_lookup_inv o w g c Hc) as [Hc0|[-> ->]];
      [by apply (HP g c)|].
    exists 0. change (subscribeCalls (begin o w)) with (subscribeCalls w).
    by rewrite handles_of_beyond.
  - intros w c _ _ _ _ HP. exact HP.
  - intros g o c done key rest w w' HL Hg Hc Hs Hkeys Hdone Hrun HP g' c' Hc'.
    assert (Hkey : key ∈ Object_keys o).
    { rewrite Hkeys. apply elem_of_app. right. by left. }
    destruct (subscribeKey_lookup_inv g o key w w' g' c' HL Hkey Hrun Hc')
      as (c0 & Hc0 & ->).
    rewrite (subscribeKey_calls g key w w' c Hc Hs Hrun), handles_of_app.
    destruct (decide (g' = g)) as [->|Hne].
    + assert (c0 = c) as -> by congruence.
      exists (length done + 1). rewrite handles_of_own, Hdone.
      destruct (inv_static w (loop_inv g o w HL) g c Hc) as [-> _].
      destruct (loop_closure g o w HL) as (c1 & Hc1 & Ho).
      assert (c1 = c) as -> by congruence.
      rewrite Ho, Hkeys, take_app_add. cbn. by rewrite handles_snoc.
    + rewrite handles_of_foreign by done. rewrite app_nil_r.
      by apply (HP g' c0).
  - intros g key s w _ _ HP g' c' Hc'.
    pose proof (signal_by_callbacks g key s w) as Hcb.
    destruct (by_callbacks_lookup_inv _ _ g' c' Hcb Hc') as [c0 Hc0].
    destruct Hcb as (-> & _ & d & _ & H).
    destruct (H g' c0 c' Hc0 Hc') as (-> & _). by apply (HP g' c0).
Qed.

Lemma handles_kept_initial : handles_kept initialEngine.
Proof.
  constructor; cbn; try apply NoDup_nil_2;
    try (intros g c Hc; by rewrite lookup_nil in Hc).
  - intros h Hh. by apply elem_of_nil in Hh.
  - intros g g' c c' Hc. by rewrite lookup_nil in Hc.
Qed.

Lemma handles_kept_reachable evs h :
  run initialHost evs = inr h → handles_kept (engine h).
Proof.
  intros Hrun.
  by destruct (reachable_preserved handles_kept evs h handles_kept_preserved
                 handles_kept_initial Hrun).
Qed.

(** X4. Over a whole run of the hook, no unsubscribe handle is invoked
    twice, a handle that is invoked is one the adapter was called for, and
    its generation has stopped accepting emissions. *)
Theorem handles_are_invoked_at_most_once (evs : list Event) (h : Host) :
  run initialHost evs = inr h →
  NoDup (unsubscribed (engine h))
  ∧ ∀ g k, (g, k) ∈ unsubscribed (engine h) →
      (g, k) ∈ subscribeCalls (engine h)
      ∧ ∃ c, closures (engine h) !! g = Some c ∧ isSubscribed c = false.
Proof.
  intros Hrun. pose proof (handles_kept_reachable evs h Hrun) as HH.
  pose proof (hinv_engine h (HInv_reachable evs h Hrun)) as HI.
  split; [apply (hd_unsubscribed _ _ HH)|].
  intros g k Hin. pose proof (hd_opened _ _ HH _ Hin) as Hcall.
  split; [done|]. destruct (inv_calls _ HI g k Hcall) as (c & Hc & _).
  exists c. split; [done|]. destruct (isSubscribed c) eqn:Hs; [exfalso|done].
  destruct (hd_live _ _ HH g c Hc Hs) as [_ Hnot].
  apply (Hnot (g, k)); [|done]. by apply elem_of_handles_of.
Qed.

Lemma handles_are_invoked_at_most_once_witness :
  NoDup (unsubscribed (engine (unmount waiting)))
  ∧ ∀ g k, (g, k) ∈ unsubscribed (engine (unmount waiting)) →
      (g, k) ∈ subscribeCalls (engine (unmount waiting))
      ∧ ∃ c, closures (engine (unmount waiting)) !! g = Some c
             ∧ isSubscribed c = false.
Proof.
  apply (handles_are_invoked_at_most_once
           [Evaluate ∅ None (λ _, two_sources); Unmount] (unmount waiting)).
  vm_compute. reflexivity.
Defined.

(** X5. In every generation the adapter is called for the keys of the
    source map in the order of [Object.keys], each key at most once: the
    calls made for a generation are those for an initial segment of its
    keys, and for all of them while the generation accepts emissions. *)
Theorem subscribes_once_per_key_in_order
    (evs : list Event) (h : Host) (g : nat) (c : Closure) :
  run initialHost evs = inr h →
  closures (engine h) !! g = Some c →
  NoDup (subscribeCalls (engine h))
  ∧ ∃ n, handles_of g (subscribeCalls (engine h))
         = handles g (take n (Object_keys (observablesObject c)))
         ∧ (isSubscribed c = true
            → n = length (Object_keys (observablesObject c))).
Proof.
  intros Hrun Hc. pose proof (handles_kept_reachable evs h Hrun) as HH.
  pose proof (hinv_engine h (HInv_reachable evs h Hrun)) as HI.
  destruct (inv_static _ HI g c Hc) as [<- _].
  split; [apply (hd_calls _ _ HH)|].
  destruct (isSubscribed c) eqn:Hs.
  - exists (length (keys c)). split; [|done]. rewrite firstn_all.
    by apply (fully_subscribed_reachable evs h Hrun).
  - destruct (reachable_preserved subscribed_in_order evs h
                subscribed_in_order_preserved) as [HP _]; [|done|].
    { intros g' c' Hc'. cbn in Hc'. by rewrite lookup_nil in Hc'. }
    destruct (HP g c Hc) as [n Hn]. exists n. by split.
Qed.

Lemma subscribes_once_per_key_in_order_witness :
  NoDup (subscribeCalls (engine after_sync_error))
  ∧ ∃ n, handles_of 0 (subscribeCalls (engine after_sync_error))
         = handles 0 (take n (Object_keys failing_map))
         ∧ (false = true → n = length (Object_keys failing_map)).
Proof.
  apply (subscribes_once_per_key_in_order
           [Evaluate ∅ None (λ _, failing_map)] after_sync_error 0
           (mkClosure false 4 3 1 failing_map ["ok"; "failing"] 2)).
  - vm_compute. reflexivity.
  - vm_compute. reflexivity.
Defined.




(** X7. Once a generation has stopped accepting emissions, every handle it
    obtained has been invoked, in the order obtained, except at most the
    last one; one is left uninvoked only in a generation one of whose
    sources called [onError] (the handler ran before the handle was
    pushed). *)
Theorem stopped_generation_is_closed
    (evs : list Event) (h : Host) (g : nat) (c : Closure) :
  run initialHost evs = inr h →
  closures (engine h) !! g = Some c → isSubscribed c = false →
  ∃ rest,
    handles_of g (subscribeCalls (engine h))
    = handles_of g (unsubscribed (engine h)) ++ rest
    ∧ length rest ≤ 1
    ∧ (rest ≠ [] → errored (engine h) g).
Proof.
  intros Hrun Hc Hs.
  by apply (hd_closed _ _ (handles_kept_reachable evs h Hrun) g c).
Qed.

Lemma stopped_generation_is_closed_witness :
  ∃ rest,
    handles_of 0 (subscribeCalls (engine after_sync_error))
    = handles_of 0 (unsubscribed (engine after_sync_error)) ++ rest
    ∧ length rest ≤ 1
    ∧ (rest ≠ [] → errored (engine after_sync_error) 0).
Proof.
  apply (stopped_generation_is_closed
           [Evaluate ∅ None (λ _, failing_map)] after_sync_error 0
           (mkClosure false 4 3 1 failing_map ["ok"; "failing"] 2)).
  - vm_compute. reflexivity.
  - vm_compute. reflexivity.
  - reflexivity.
Defined.

(** * The render-prop component *)

Lemma HInv_component_run evs h :
  component_run initialHost evs = inr h → HInv h.
Proof.
  intros Hrun.
  by destruct (component_run_preserved (λ _, True) initialHost evs h
                 trivially_preserved HInv_initial fully_subscribed_initial I
                 Hrun).
Qed.

Lemma rendered_by_state w :
  Inv w →
  match rendered (state w) with
  | inl e => state w = Errored e
  | inr RenderNull => state w = Loading
  | inr (RenderChildren d) =>
      ∃ l c m, d = Some l ∧ state w = Ready l
        ∧ last (closures w) = Some c
        ∧ heap w !! l = Some m
        ∧ dom m ⊆ list_to_set (Object_keys (observablesObject c))
        ∧ (no_proto_key (Object_keys (observablesObject c)) →
           dom m = list_to_set (Object_keys (observablesObject c)))
  end.
Proof.
  intros HI.
  destruct (inv_state _ HI)
    as [->|[[e ->]|(l & c & m & -> & Hlast & Hl & Hsub & Hdom)]]; cbn;
    try done.
  exists l, c, m. split; [done|]. split; [done|]. split; [done|].
  split; [done|].
  pose proof Hlast as Hc. rewrite last_lookup in Hc.
  destruct (inv_static _ HI _ c Hc) as [<- _]. by split.
Qed.

(** X8. What a render pass of the component does is decided by the state
    alone: it throws the published error exactly in the error state, and
    then no effect is committed; when it returns, it returns [null] in the
    loading state and [children(data)] otherwise, in which case [data] is
    not [null] but an object whose keys are among those of the source map
    of the newest generation, and are exactly those when none of them is
    named [__proto__]. *)
Theorem component_renders_by_state
    (evs : list ComponentEvent) (h : Host) (resetOn : TriggerArray)
    (observables : SourceMap) :
  component_run initialHost evs = inr h →
  (∀ e, WithObservables resetOn observables h = inl (FromRender e)
        ↔ state (engine h) = Errored e)
  ∧ ∀ r h', WithObservables resetOn observables h = inr (r, h') →
      match r with
      | RenderNull => state (engine h) = Loading
      | RenderChildren d =>
          ∃ l c m, d = Some l ∧ state (engine h) = Ready l
            ∧ last (closures (engine h)) = Some c
            ∧ heap (engine h) !! l = Some m
            ∧ dom m ⊆ list_to_set (Object_keys (observablesObject c))
            ∧ (no_proto_key (Object_keys (observablesObject c)) →
               dom m = list_to_set (Object_keys (observablesObject c)))
      end.
Proof.
  intros Hrun. pose proof (HInv_component_run evs h Hrun) as HH.
  pose proof (rendered_by_state _ (hinv_engine h HH)) as Hst.
  rewrite WithObservables_eq. cbn zeta.
  destruct (rendered (state (engine h))) as [e0|r0].
  - split; [|done]. intros e. rewrite Hst. split; intros [= ->]; done.
  - split.
    + intros e. split.
      * destruct (renderReruns _ _ _); [|done].
        by destruct (effect _ _) as [e1|[c w']].
      * intros He. rewrite He in Hst. exfalso.
        destruct r0 as [|d]; [done|].
        by destruct Hst as (l & c & m & _ & Hx & _).
    + intros r h'.
      assert (r = r0 → match r with
                | RenderNull => state (engine h) = Loading
                | RenderChildren d =>
                    ∃ l c m, d = Some l ∧ state (engine h) = Ready l
                      ∧ last (closures (engine h)) = Some c
                      ∧ heap (engine h) !! l = Some m
                      ∧ dom m ⊆ list_to_set
                                  (Object_keys (observablesObject c))
                      ∧ (no_proto_key (Object_keys (observablesObject c)) →
                         dom m = list_to_set
                                   (Object_keys (observablesObject c)))
                end) as Hr by (by intros ->).
      destruct (renderReruns _ _ _); [|intros [= <- _]; by apply Hr].
      destruct (effect _ _) as [e1|[c w']]; [done|].
      intros [= <- _]. by apply Hr.
Qed.

Lemma component_renders_by_state_witness :
  ∃ l c m, Some 2 = Some l ∧ state (engine rendered_once) = Ready l
    ∧ last (closures (engine rendered_once)) = Some c
    ∧ heap (engine rendered_once) !! l = Some m
    ∧ dom m ⊆ list_to_set (Object_keys (observablesObject c))
    ∧ (no_proto_key (Object_keys (observablesObject c)) →
       dom m = list_to_set (Object_keys (observablesObject c))).
Proof.
  destruct (component_renders_by_state
              [Render (mkArray 50 []) empty_map] rendered_once
              (mkArray 51 []) empty_map) as [_ Hret].
  - vm_compute. reflexivity.
  - apply (Hret (RenderChildren (Some 2))
             (match WithObservables (mkArray 51 []) empty_map rendered_once
              with
              | inr (_, h') => h'
              | inl _ => initialHost
              end)).
    vm_compute. reflexivity.
Defined.

Lemma render_decides h resetOn observables a cached :
  prevTriggerPropsRef h = Some a →
  memo h = Some (aid a, cached) → effectDeps h = Some (sm_id cached) →
  (aid resetOn = aid a → elems resetOn = elems a) →
  let changed := negb (identicalArrays (elems a) (elems resetOn)) in
  renderedRef h resetOn = (if changed then resetOn else a)
  ∧ memoizedObservables h resetOn observables
    = (if changed then observables else cached)
  ∧ renderReruns h resetOn observables
    = changed && negb (Nat.eqb (sm_id cached) (sm_id observables)).
Proof.
  intros Href Hmemo Hdeps Hsame. cbn zeta.
  unfold renderReruns, memoizedObservables, renderedRef.
  rewrite Href, Hmemo, Hdeps. cbn [default from_option]. unfold id.
  destruct (negb (identicalArrays _ _)) eqn:Hch; cbn [aid andb].
  - assert (Nat.eqb (aid a) (aid resetOn) = false) as ->; [|done].
    apply Nat.eqb_neq. intros Heq. rewrite Hsame in Hch by done.
    by rewrite identicalArrays_refl in Hch.
  - by rewrite !Nat.eqb_refl.
Qed.

Lemma last_unsubscribeAll g w c :
  last (closures w) = Some c →
  ∃ c', last (closures (unsubscribeAll g w)) = Some c'
        ∧ observablesObject c' = observablesObject c.
Proof.
  intros Hlast. rewrite last_lookup in Hlast.
  destruct (unsubscribeAll_source g w _ c Hlast) as (c' & Hc' & Ho).
  exists c'. split; [|done]. by rewrite last_lookup, unsubscribeAll_length.
Qed.

Lemma RenderInv_WithObservables resetOn observables h r h' :
  HInv h → RenderInv h →
  WithObservables resetOn observables h = inr (r, h') → RenderInv h'.
Proof.
  intros [HI Hcl Hncl Hcomp _ _] HC. rewrite WithObservables_eq. cbn zeta.
  set (o := memoizedObservables h resetOn observables).
  set (a := renderedRef h resetOn).
  destruct (rendered _) as [e0|r0]; [done|].
  destruct (renderReruns _ _ _) eqn:Hrerun.
  - destruct (runCleanup_keeps (cleanup h) (engine h) HI Hcl Hncl)
      as (HI1 & Hidle1 & Hcomp1 & Hev1 & Hlen1).
    destruct (effect _ _) as [e|[c w']] eqn:Heff; [done|].
    intros [= _ <-].
    destruct (effect_keeps _ _ c w' HI1 Hidle1 Heff)
      as (_ & _ & _ & _ & Hlen' & _ & _ & c' & Hc' & Ho').
    unfold RenderInv. cbn. exists o, c'. repeat split; try done; [|by rewrite Ho'].
    rewrite last_lookup. unfold generations in Hlen'. by rewrite Hlen'.
  - intros [= _ <-]. unfold RenderInv. cbn.
    unfold renderReruns in Hrerun. fold o in Hrerun.
    unfold RenderInv in HC.
    destruct (prevTriggerPropsRef h) as [a0|].
    + destruct HC as (cached & c & Hmemo & Hdeps & Hlast & Hid).
      rewrite Hdeps in Hrerun. apply negb_false_iff, Nat.eqb_eq in Hrerun.
      exists o, c. repeat split; try done. congruence.
    + destruct HC as [_ Hdeps]. by rewrite Hdeps in Hrerun.
Qed.

Lemma RenderInv_component_step h ev h' :
  HInv h → RenderInv h → component_step h ev = inr h' → RenderInv h'.
Proof.
  intros HH HC. destruct ev as [resetOn o|g key s|].
  - destruct (mounted h) eqn:Hm;
      [|unfold component_step; rewrite Hm; by intros [= <-]].
    intros Hstep.
    destruct (component_step_render h resetOn o h' Hm Hstep) as [r Hw].
    by apply (RenderInv_WithObservables resetOn o h r h').
  - intros [= <-]. unfold RenderInv in *. cbn.
    destruct (prevTriggerPropsRef h) as [a|]; [|done].
    destruct HC as (cached & c & Hmemo & Hdeps & Hlast & Hid).
    destruct (last_by_callbacks _ _ c (signal_by_callbacks g key s (engine h))
                Hlast) as (c' & Hlast' & Ho).
    exists cached, c'. repeat split; try done. congruence.
  - unfold component_step. destruct (mounted h); intros [= <-]; [|done].
    unfold RenderInv in *. cbn.
    destruct (prevTriggerPropsRef h) as [a|]; [|done].
    destruct HC as (cached & c & Hmemo & Hdeps & Hlast & Hid).
    assert (∃ c', last (closures (runCleanup (cleanup h) (engine h)))
                  = Some c'
                  ∧ observablesObject c' = observablesObject c)
      as (c' & Hlast' & Ho).
    { destruct (cleanup h) as [g|]; cbn; [by apply last_unsubscribeAll|].
      by exists c. }
    exists cached, c'. repeat split; try done. congruence.
Qed.

Lemma RenderInv_component_run evs h :
  component_run initialHost evs = inr h → RenderInv h.
Proof.
  assert (Hgen : ∀ h0, HInv h0 → RenderInv h0 →
            component_run h0 evs = inr h → RenderInv h).
  { induction evs as [|ev evs IH]; intros h0 HH HC; cbn.
    - by intros [= <-].
    - destruct (component_step h0 ev) as [e|h1] eqn:Hs; [done|].
      apply IH; [by apply (HInv_component_step h0 ev)|].
      by apply (RenderInv_component_step h0 ev). }
  by apply Hgen; [apply HInv_initial|].
Qed.

(** X9. A render pass of the component that returns (in the error state
    it throws, and commits no effect) resubscribes exactly when the
    elements of [resetOn] differ from those of the array kept from the last
    reset and the [observables] passed in are not the memoized object.  With
    the same elements nothing happens at all, however new the [observables]
    object (and the array) are: the memoized object stays, no handle is
    invoked, nothing is allocated.  The arrays are taken not to be mutated
    in place. *)
Theorem component_resubscribes_on_reset
    (evs : list ComponentEvent) (h : Host) (prev : TriggerArray) (key : loc)
    (cached : SourceMap) (resetOn : TriggerArray) (observables : SourceMap)
    (r : Rendered) (h' : Host) :
  component_run initialHost evs = inr h →
  prevTriggerPropsRef h = Some prev → memo h = Some (key, cached) →
  (aid resetOn = aid prev → elems resetOn = elems prev) →
  WithObservables resetOn observables h = inr (r, h') →
  (generations (engine h') = S (generations (engine h))
   ↔ identicalArrays (elems prev) (elems resetOn) = false
     ∧ sm_id observables ≠ sm_id cached)
  ∧ (generations (engine h') ≠ S (generations (engine h)) →
     engine h' = engine h)
  ∧ (identicalArrays (elems prev) (elems resetOn) = true →
     memo h' = memo h ∧ prevTriggerPropsRef h' = prevTriggerPropsRef h).
Proof.
  intros Hrun Href Hmemo Hsame.
  pose proof (HInv_component_run evs h Hrun) as [HI Hcl Hncl _ _ _].
  pose proof (RenderInv_component_run evs h Hrun) as HC.
  unfold RenderInv in HC. rewrite Href in HC.
  destruct HC as (cached' & c & Hmemo' & Hdeps & Hlast & Hid).
  rewrite Hmemo in Hmemo'. injection Hmemo' as -> <-.
  destruct (render_decides h resetOn observables prev cached Href Hmemo Hdeps
              Hsame) as (E1 & E2 & E3).
  rewrite WithObservables_eq. cbn zeta. rewrite E1, E2, E3.
  destruct (rendered _) as [e0|r0]; [done|].
  destruct (identicalArrays (elems prev) (elems resetOn)) eqn:Hident;
    cbn [negb andb].
  { intros [= _ <-]. cbn. split; [split; [lia|by intros [? _]]|].
    split; [done|]. intros _. by rewrite Hmemo, Href. }
  destruct (Nat.eqb (sm_id cached) (sm_id observables)) eqn:Hids;
    cbn [negb].
  { apply Nat.eqb_eq in Hids. intros [= _ <-]. cbn.
    split; [split; [lia|intros [_ Hne]; congruence]|]. by split. }
  apply Nat.eqb_neq in Hids.
  destruct (runCleanup_keeps (cleanup h) (engine h) HI Hcl Hncl)
    as (HI1 & Hidle1 & _ & _ & Hlen1).
  destruct (effect _ _) as [e|[cl w']] eqn:Heff; [done|].
  intros [= _ <-]. cbn.
  destruct (effect_keeps _ _ cl w' HI1 Hidle1 Heff)
    as (_ & _ & _ & _ & Hlen' & _).
  assert (Hgen : generations w' = S (generations (engine h))) by congruence.
  split; [split; [intros _; split; [done|congruence]|done]|].
  split; [by intros Hne|done].
Qed.

Lemma component_resubscribes_on_reset_witness :
  (generations
     (engine (match WithObservables (mkArray 51 [VNum 2]) shared_map
                      rendered_two_sources with
              | inr (_, h') => h'
              | inl _ => initialHost
              end))
   = S (generations (engine rendered_two_sources))
   ↔ identicalArrays [VNum 1] [VNum 2] = false
     ∧ sm_id shared_map ≠ sm_id two_sources)
  ∧ (generations
       (engine (match WithObservables (mkArray 51 [VNum 2]) shared_map
                        rendered_two_sources with
                | inr (_, h') => h'
                | inl _ => initialHost
                end))
     ≠ S (generations (engine rendered_two_sources)) →
     engine (match WithObservables (mkArray 51 [VNum 2]) shared_map
                     rendered_two_sources with
             | inr (_, h') => h'
             | inl _ => initialHost
             end)
     = engine rendered_two_sources)
  ∧ (identicalArrays [VNum 1] [VNum 2] = true →
     memo (match WithObservables (mkArray 51 [VNum 2]) shared_map
                   rendered_two_sources with
           | inr (_, h') => h'
           | inl _ => initialHost
           end)
     = memo rendered_two_sources
     ∧ prevTriggerPropsRef
         (match WithObservables (mkArray 51 [VNum 2]) shared_map
                  rendered_two_sources with
          | inr (_, h') => h'
          | inl _ => initialHost
          end)
       = prevTriggerPropsRef rendered_two_sources).
Proof.
  apply (component_resubscribes_on_reset
           [Render (mkArray 50 [VNum 1]) two_sources] rendered_two_sources
           (mkArray 50 [VNum 1]) 50 two_sources (mkArray 51 [VNum 2])
           shared_map RenderNull).
  - vm_compute. reflexivity.
  - vm_compute. reflexivity.
  - vm_compute. reflexivity.
  - cbn. lia.
  - vm_compute. reflexivity.
Defined.

(** * The adapter on other values, and what escapes the effect *)

(** X10. A boolean, a number or a string passed as a source, truthy or
    not, is rejected with the not-observable error, and none of the three
    callbacks is invoked. *)
Theorem subscribe_primitive (value : Value) :
  (∀ o, value ≠ VObj o) → value ≠ VNull → value ≠ VUndefined →
  Adapter.subscribe value = Adapter.mkOutcome [] (inl Adapter.NotObservableError).
Proof.
  intros Hobj Hnull Hundef. unfold Adapter.subscribe.
  rewrite wmelonTag_not_obj by done.
  destruct value as [| |b|n|s|o]; try done. by destruct (Hobj o).
Qed.

Lemma subscribe_primitive_witness :
  Adapter.subscribe (VStr "model")
  = Adapter.mkOutcome [] (inl Adapter.NotObservableError).
Proof.
  apply (subscribe_primitive (VStr "model")); [intros o|..]; discriminate.
Defined.

(** X11. A change notification of a record reaches the engine as one
    callback invocation for the key of the record: [onComplete] when the
    argument is truthy (the record was deleted), and otherwise [onNext] with
    the record itself, the very object that was passed in as the source. *)
Theorem record_notification g key arg w c :
  closures w !! g = Some c → (g, key) ∈ subscribeCalls w →
  Adapter.tag_is (Adapter.wmelonTag (prop (observablesObject c) key)) "model"
  = true →
  signal g key (Adapter.Notify arg) w
  = invoke g key (if truthy arg then CComplete
                  else CNext (prop (observablesObject c) key)) w.
Proof.
  intros Hc Hin Htag. unfold signal. rewrite bool_decide_eq_true_2 by done.
  rewrite Hc. unfold Adapter.subscribe. rewrite Htag. cbn.
  unfold Adapter.recordSubscriber. by destruct (truthy arg).
Qed.

Lemma record_notification_witness :
  signal 0 "task" (Adapter.Notify (VBool true))
    (mkEngine Loading ∅ ∅ 0
       [mkClosure true 0 1 0 (sources 7 [("task", record 1)]) ["task"] 1]
       [(0, "task")] [] [])
  = invoke 0 "task" CComplete
      (mkEngine Loading ∅ ∅ 0
         [mkClosure true 0 1 0 (sources 7 [("task", record 1)]) ["task"] 1]
         [(0, "task")] [] []).
Proof.
  apply (record_notification 0 "task" (VBool true) _
           (mkClosure true 0 1 0 (sources 7 [("task", record 1)])
              ["task"] 1)).
  - reflexivity.
  - apply list_elem_of_In. cbn. auto.
  - reflexivity.
Defined.

Lemma forEach_throws g o ks w e :
  LoopInv g o w → (∀ k, k ∈ ks → k ∈ Object_keys o) →
  forEach ks (subscribeKey g) w = inl e →
  ∃ k, k ∈ ks ∧ Adapter.result (Adapter.subscribe (prop o k)) = inl e.
Proof.
  revert w. induction ks as [|k ks IH]; intros w HL Hks; cbn; [done|].
  destruct (subscribeKey g k w) as [e'|w1] eqn:Hk.
  - intros [= ->]. exists k. split; [by left|].
    destruct (loop_closure g o w HL) as (c & Hc & Ho).
    unfold subscribeKey in Hk. rewrite Hc in Hk.
    destruct (negb (isSubscribed c)); [done|]. rewrite Ho in Hk.
    by destruct (Adapter.result _) as [e'|via]; [injection Hk as ->|].
  - intros Hrun.
    destruct (subscribeKey_keeps g o k w w1 HL) as (HL1 & _);
      [apply Hks; by left|done|].
    destruct (IH w1 HL1) as (k' & Hk' & He);
      [intros k' Hk'; apply Hks; by right|done|].
    exists k'. split; [by right|done].
Qed.

Lemma effect_throws o w e :
  Inv w → idle w → effect o w = inl e →
  ∃ k, k ∈ Object_keys o
       ∧ Adapter.result (Adapter.subscribe (prop o k)) = inl e.
Proof.
  intros HI Hidle. rewrite effect_eq. destruct (_ =? 0); [done|].
  destruct (forEach _ _ _) as [e'|w1] eqn:Hloop; [|done]. intros [= ->].
  apply (forEach_throws (length (closures w)) o (Object_keys o) (begin o w));
    [|done|done].
  constructor.
  - by apply Inv_begin.
  - by apply complete_begin.
  - apply cancelled_begin.
  - eexists. split; [apply begin_lookup_new|done].
Qed.

Lemma sources_accepted_by_callbacks w w' :
  by_callbacks w w' → sources_accepted w → sources_accepted w'.
Proof.
  intros Hcb HP g k Hin. pose proof Hcb as (Hcalls & _).
  rewrite Hcalls in Hin. destruct (HP g k Hin) as (c & via & Hc & Hres).
  destruct (by_callbacks_source _ _ g c Hcb Hc) as (c' & Hc' & Ho).
  exists c', via. by rewrite Ho.
Qed.

Lemma sources_accepted_preserved : Preserved sources_accepted.
Proof.
  constructor.
  - intros w _ HP. exact HP.
  - intros g w _ _ HP g' k Hin. rewrite unsubscribeAll_calls in Hin.
    destruct (HP g' k Hin) as (c & via & Hc & Hres).
    destruct (unsubscribeAll_source g w g' c Hc) as (c' & Hc' & Ho).
    exists c', via. by rewrite Ho.
  - intros o w _ _ HP g k Hin.
    destruct (HP g k Hin) as (c & via & Hc & Hres).
    exists c, via. split; [by apply begin_lookup_old|done].
  - intros w c _ _ _ _ HP. exact HP.
  - intros g o c done key rest w w' _ _ Hc Hs _ _ Hrun HP.
    rewrite (subscribeKey_eq g key w c) in Hrun by done. cbn zeta in Hrun.
    destruct (Adapter.result _) as [e|via] eqn:Hres; [done|].
    injection Hrun as <-.
    apply (sources_accepted_by_callbacks (log_subscribe (g, key) w));
      [apply by_callbacks_during|].
    intros g' k Hin. cbn in Hin. apply elem_of_app in Hin as [Hin|Hin].
    + by apply HP.
    + apply list_elem_of_singleton in Hin. injection Hin as -> ->.
      by exists c, via.
  - intros g key s w _ _ HP.
    apply (sources_accepted_by_callbacks w); [apply signal_by_callbacks|done].
Qed.

(** X12. A source the adapter rejects is not passed over: as long as no
    exception has escaped the hook, every source the adapter has been called
    for, in whatever generation, is one it resolves to a mechanism (record,
    query, [observe()] or [subscribe()]).  The rejection of a source is
    never turned into a state of the hook; it ends the run. *)
Theorem adapter_calls_were_accepted
    (evs : list Event) (h : Host) (g : nat) (k : string) :
  run initialHost evs = inr h →
  (g, k) ∈ subscribeCalls (engine h) →
  ∃ c via, closures (engine h) !! g = Some c ∧ k ∈ keys c
    ∧ Adapter.result (Adapter.subscribe (prop (observablesObject c) k))
      = inr via.
Proof.
  intros Hrun Hin.
  pose proof (hinv_engine h (HInv_reachable evs h Hrun)) as HI.
  destruct (reachable_preserved sources_accepted evs h
              sources_accepted_preserved) as [HP _]; [|done|].
  { intros g' k' Hin'. cbn in Hin'. by apply elem_of_nil in Hin'. }
  destruct (HP g k Hin) as (c & via & Hc & Hres).
  destruct (inv_calls _ HI g k Hin) as (c' & Hc' & Hk).
  assert (c' = c) as -> by congruence. by exists c, via.
Qed.

Lemma adapter_calls_were_accepted_witness :
  ∃ c via, closures (engine waiting) !! 0 = Some c ∧ "second" ∈ keys c
    ∧ Adapter.result (Adapter.subscribe (prop (observablesObject c) "second"))
      = inr via.
Proof.
  apply (adapter_calls_were_accepted
           [Evaluate ∅ None (λ _, two_sources)] waiting 0 "second").
  - vm_compute. reflexivity.
  - vm_compute. apply list_elem_of_In. cbn. auto.
Defined.

(** The other way round, an evaluation throws the exception with which the
    adapter rejects a source of the map. *)
Example evaluation_throws_for_a_rejected_source :
  useObservables ∅ None (λ _, sources 9 [("bad", VNum 5)]) initialHost
  = inl Adapter.NotObservableError.
Proof. vm_compute. reflexivity. Qed.

(** * The higher-order component *)

(** X13. The component made by [withObservables] renders the base
    component only in the ready state, and then calls [createElement] with
    the props it was given merged with the published data: every entry of
    the data is passed with its published value, which wins over an incoming
    prop of the same name, and every other incoming prop is passed through
    unchanged.  The entries of the data are among the keys of the source map
    of the generation whose effect ran last, and are all of them when no key
    is named [__proto__].  In the loading state it returns [null], in the
    error state it throws the published error. *)
Theorem wrapper_passes_data_over_props
    (evs : list Event) (h : Host) (triggerProps : option (list string))
    (getObservables : gmap string Value → SourceMap) (BaseComponent : loc)
    (props : gmap string Value) :
  run initialHost evs = inr h →
  match WithObservablesWrapper triggerProps getObservables BaseComponent
          props h with
  | inl (FromRender e) => state (engine h) = Errored e
  | inl (FromEffect e) =>
      useObservables props triggerProps getObservables h = inl e
  | inr (None, _) => state (engine h) = Loading
  | inr (Some el, _) =>
      ∃ l c m, state (engine h) = Ready l
        ∧ last (closures (engine h)) = Some c
        ∧ heap (engine h) !! l = Some m
        ∧ element_type el = BaseComponent
        ∧ dom m ⊆ list_to_set (keys c)
        ∧ (no_proto_key (keys c) → dom m = list_to_set (keys c))
        ∧ (∀ k, k ∈ dom m → element_config el !! k = m !! k)
        ∧ (∀ k, k ∉ dom m → element_config el !! k = props !! k)
  end.
Proof.
  intros Hrun. pose proof (hinv_engine h (HInv_reachable evs h Hrun)) as HI.
  unfold WithObservablesWrapper.
  destruct (inv_state _ HI)
    as [->|[[e ->]|(l & c & m & -> & Hlast & Hl & Hsub & Hdom)]];
    cbn -[useObservables].
  - by destruct (useObservables _ _ _ _) as [e|[s h']].
  - done.
  - destruct (useObservables _ _ _ _) as [e|[s h']]; [done|].
    exists l, c, m. split; [done|]. split; [done|]. split; [done|].
    split; [done|]. split; [done|]. split; [done|]. split.
    + intros k Hk. unfold deref. rewrite Hl. cbn.
      apply elem_of_dom in Hk as [v Hv].
      rewrite Hv. by apply lookup_union_Some_l.
    + intros k Hk. unfold deref. rewrite Hl. cbn.
      apply lookup_union_r. by apply not_elem_of_dom.
Qed.

Lemma wrapper_passes_data_over_props_witness :
  match WithObservablesWrapper None (λ _, two_sources) 77
          {["first" := VNum 0; "id" := VNum 1]} ready with
  | inl (FromRender e) => state (engine ready) = Errored e
  | inl (FromEffect e) =>
      useObservables {["first" := VNum 0; "id" := VNum 1]} None
        (λ _, two_sources) ready = inl e
  | inr (None, _) => state (engine ready) = Loading
  | inr (Some el, _) =>
      ∃ l c m, state (engine ready) = Ready l
        ∧ last (closures (engine ready)) = Some c
        ∧ heap (engine ready) !! l = Some m
        ∧ element_type el = 77
        ∧ dom m ⊆ list_to_set (keys c)
        ∧ (no_proto_key (keys c) → dom m = list_to_set (keys c))
        ∧ (∀ k, k ∈ dom m → element_config el !! k = m !! k)
        ∧ (∀ k, k ∉ dom m →
             element_config el !! k
             = ({["first" := VNum 0; "id" := VNum 1]} : gmap string Value)
                 !! k)
  end.
Proof.
  apply (wrapper_passes_data_over_props
           [Evaluate ∅ None (λ _, two_sources);
            Emit 0 "second" (Adapter.Push (CNext (VStr "second")))]
           ready None (λ _, two_sources) 77
           {["first" := VNum 0; "id" := VNum 1]}).
  vm_compute. reflexivity.
Defined.

(** X14. In the ready state the component made by [withObservables]
    renders what [withHooks] renders for a transformer that returns the
    published data: the two higher-order components merge props in the same
    way. *)
Theorem wrapper_agrees_with_withHooks
    (h h' : Host) (triggerProps : option (list string))
    (getObservables : gmap string Value → SourceMap) (BaseComponent : loc)
    (props : gmap string Value) (l : loc) (el : Element) :
  state (engine h) = Ready l →
  WithObservablesWrapper triggerProps getObservables BaseComponent props h
  = inr (Some el, h') →
  el = WithHooks (λ _, deref (engine h) l) BaseComponent props.
Proof.
  intros Hst. unfold WithObservablesWrapper, WithHooks. rewrite Hst.
  cbn -[useObservables].
  destruct (useObservables _ _ _ _) as [e|[s h1]]; [done|]. by intros [= <- _].
Qed.

Lemma wrapper_agrees_with_withHooks_witness :
  createElement 77
    (spread {["id" := VNum 1]} (Some (deref (engine ready) 4)))
  = WithHooks (λ _, deref (engine ready) 4) 77 {["id" := VNum 1]}.
Proof.
  apply (wrapper_agrees_with_withHooks ready
           (match useObservables {["id" := VNum 1]} None (λ _, two_sources)
                    ready with
            | inr (_, h') => h'
            | inl _ => ready
            end)
           None (λ _, two_sources) 77 {["id" := VNum 1]} 4).
  - vm_compute. reflexivity.
  - vm_compute. reflexivity.
Defined.

(** X15. While a generation without a key named [__proto__] accepts
    emissions, [valueCount] is the number of its keys that have received at
    least one value, whatever the value (an emitted [undefined] counts, a
    second emission under the same key does not), and it never exceeds
    [keyCount]; the keys counted are those present in the accumulator
    [values]. *)
Theorem valueCount_counts_the_keys_that_emitted
    (evs : list Event) (h : Host) (g : nat) (c : Closure) :
  run initialHost evs = inr h →
  closures (engine h) !! g = Some c → active c →
  no_proto_key (keys c) →
  ∃ m, heap (engine h) !! values c = Some m
       ∧ valueCount c = size (dom m)
       ∧ (∀ k, hasOwn m k = true ↔ k ∈ keys c ∧ emitted (engine h) g k)
       ∧ valueCount c ≤ keyCount c.
Proof.
  intros Hrun Hc Ha Hown.
  pose proof (hinv_engine h (HInv_reachable evs h Hrun)) as HI.
  destruct (inv_values _ HI g c Hc Ha) as (m & Hm & Hsub & _ & Hfree).
  destruct (Hfree Hown) as [Hcount Hem].
  destruct (inv_static _ HI g c Hc) as [Hkeys Hkc].
  exists m. split; [done|]. split; [by rewrite size_dom|]. split.
  - intros k. unfold hasOwn. rewrite bool_decide_eq_true, <- elem_of_dom.
    split.
    + intros Hk. split; [|by apply Hem].
      apply Hsub in Hk. by apply elem_of_list_to_set in Hk.
    + intros [_ Hk]. by apply Hem.
  - rewrite Hcount, Hkc, <- size_dom.
    rewrite <- (size_list_to_set (C := gset string) (keys c))
      by (rewrite Hkeys; apply NoDup_Object_keys).
    by apply subseteq_size.
Qed.

Lemma valueCount_counts_the_keys_that_emitted_witness :
  ∃ m, heap (engine waiting) !! 3 = Some m
       ∧ 1 = size (dom m)
       ∧ (∀ k, hasOwn m k = true
               ↔ k ∈ ["first"; "second"] ∧ emitted (engine waiting) 0 k)
       ∧ 1 ≤ 2.
Proof.
  apply (valueCount_counts_the_keys_that_emitted
           [Evaluate ∅ None (λ _, two_sources)] waiting 0
           (mkClosure true 2 3 1 two_sources ["first"; "second"] 2)).
  - vm_compute. reflexivity.
  - vm_compute. reflexivity.
  - split; [reflexivity|discriminate].
  - apply (bool_decide_unpack _). vm_compute. exact I.
Defined.

(** * The component keeps what the hook keeps *)

Lemma component_run_keeps P evs h :
  Preserved P → P initialEngine →
  component_run initialHost evs = inr h →
  P (engine h) ∧ fully_subscribed (engine h).
Proof.
  intros HP H0 Hrun.
  by destruct (component_run_preserved P initialHost evs h HP HInv_initial
                 fully_subscribed_initial H0 Hrun) as (_ & ? & ?).
Qed.

(** X16. The render-prop component publishes what the hook publishes:
    while its newest generation accepts emissions, none of its keys is named
    [__proto__] and the state is ready, the [data] it hands to [children]
    has exactly the keys of the memoized [observables] and holds, under each
    key, the latest value delivered for it in this generation. *)
Theorem component_data_holds_the_latest_values
    (evs : list ComponentEvent) (h : Host) (g : nat) (c : Closure)
    (l : loc) :
  component_run initialHost evs = inr h →
  closures (engine h) !! g = Some c → active c →
  no_proto_key (keys c) →
  state (engine h) = Ready l →
  ∃ m, heap (engine h) !! l = Some m
       ∧ dom m = list_to_set (keys c)
       ∧ ∀ k, m !! k = latest (g, k) (delivered (engine h)).
Proof.
  intros Hrun. apply latest_values_published.
  - by apply (HInv_component_run evs).
  - by destruct (component_run_keeps accumulates_latest evs h
                   accumulates_latest_preserved accumulates_latest_initial
                   Hrun).
Qed.

Lemma component_data_holds_the_latest_values_witness :
  ∃ m, heap (engine rendered_ready) !! 2 = Some m
       ∧ dom m = list_to_set ["first"; "second"]
       ∧ ∀ k, m !! k = latest (0, k) (delivered (engine rendered_ready)).
Proof.
  apply (component_data_holds_the_latest_values
           [Render (mkArray 50 [VNum 1]) two_sources;
            Signal 0 "second" (Adapter.Push (CNext (VStr "second")))]
           rendered_ready 0
           (mkClosure true 0 1 2 two_sources ["first"; "second"] 2) 2).
  - vm_compute. reflexivity.
  - vm_compute. reflexivity.
  - split; [reflexivity|discriminate].
  - apply (bool_decide_unpack _). vm_compute. exact I.
  - vm_compute. reflexivity.
Defined.



(** * No subscription is left behind *)



(** X19. [unsubscribeAll] can be run again without effect on the
    producers: having invoked the handles it rebinds [subscriptions] to a new
    empty array, so a second run (the cleanup after an error, say) invokes no
    handle, and the generation stays stopped. *)
Theorem unsubscribeAll_twice (g : nat) (w : Engine) :
  unsubscribed (unsubscribeAll g (unsubscribeAll g w))
  = unsubscribed (unsubscribeAll g w)
  ∧ ∀ c, closures (unsubscribeAll g (unsubscribeAll g w)) !! g = Some c →
      isSubscribed c = false.
Proof.
  destruct (closures w !! g) as [c0|] eqn:Hc0.
  2:{ unfold unsubscribeAll. rewrite Hc0. cbn. rewrite Hc0.
      split; [done|]. intros c Hc. congruence. }
  set (w1 := unsubscribeAll g w).
  assert (Hc1 : closures w1 !! g = Some (cancel (nextLoc w) c0)).
  { unfold w1. rewrite (unsubscribeAll_eq g w c0 Hc0), cancel_alter. cbn.
    rewrite (alter_lookup_fwd _ _ g g c0 Hc0). by rewrite decide_True. }
  assert (Harr : array w1 (nextLoc w) = []).
  { unfold w1. rewrite (unsubscribeAll_eq g w c0 Hc0). unfold array. cbn.
    by rewrite lookup_insert_eq. }
  rewrite (unsubscribeAll_eq g w1 _ Hc1), cancel_alter. cbn.
  rewrite Harr, app_nil_r. split; [done|].
  intros c Hc. rewrite (alter_lookup_fwd _ _ g g _ Hc1) in Hc.
  rewrite decide_True in Hc by done. by injection Hc as <-.
Qed.

(** * Sources that emit while they are subscribed to *)

Lemma emits_synchronously_accepted source :
  emits_synchronously source →
  ∃ via, Adapter.result (Adapter.subscribe source) = inr via.
Proof.
  intros [[v Hv] _].
  destruct (Adapter.result (Adapter.subscribe source)) as [e|via] eqn:Hres;
    [|by exists via].
  rewrite (subscribe_throws_without_calls source e Hres) in Hv.
  by apply elem_of_nil in Hv.
Qed.

Lemma subscribeKey_sync g o key w w' c :
  LoopInv g o w → closures w !! g = Some c → isSubscribed c = true →
  emits_synchronously (prop o key) → sm_during o key = [] →
  subscribeKey g key w = inr w' →
  (∃ c', closures w' !! g = Some c' ∧ isSubscribed c' = true)
  ∧ emitted w' g key
  ∧ ∀ k, emitted w g k → emitted w' g k.
Proof.
  intros HL Hc Hs [[v Hv] Hnoerr] Halone Hrun.
  destruct (loop_closure g o w HL) as (c0 & Hc0 & Ho).
  assert (c0 = c) as -> by congruence.
  rewrite (subscribeKey_eq g key w c) in Hrun by done. cbn zeta in Hrun.
  rewrite Ho, Halone, during_nil in Hrun.
  destruct (Adapter.result _); [done|]. injection Hrun as <-.
  set (calls := Adapter.calls (Adapter.subscribe (prop o key))) in *.
  set (w1 := log_subscribe (g, key) w).
  pose proof (by_callbacks_invoke_all g key calls w1) as Hcb.
  pose proof (delivered_invoke_all g key calls w1) as Hd.
  split; [|split].
  - destruct (by_callbacks_lookup w1 _ g c Hcb Hc) as [c' Hc'].
    exists c'. split; [done|]. destruct (isSubscribed c') eqn:Hs'; [done|].
    destruct Hcb as (_ & _ & d & Hd' & H).
    destruct (H g c c' Hc Hc') as (_ & _ & _ & E).
    destruct (E Hs Hs') as (k & e & He).
    rewrite Hd in Hd'. apply app_inv_head in Hd'. subst d.
    apply list_elem_of_fmap in He as (call & [= _ <-] & Hin).
    by destruct (Hnoerr e).
  - exists v. cbn. rewrite Hd. apply elem_of_app. right.
    apply list_elem_of_fmap. by exists (CNext v).
  - intros k [v' Hin]. exists v'. cbn. rewrite Hd. apply elem_of_app. by left.
Qed.

Lemma forEach_sync g o done ks w w' :
  LoopInv g o w → Object_keys o = done ++ ks →
  (∀ k, k ∈ ks → emits_synchronously (prop o k) ∧ sm_during o k = []) →
  (∃ c, closures w !! g = Some c ∧ isSubscribed c = true) →
  (∀ k, k ∈ done → emitted w g k) →
  forEach ks (subscribeKey g) w = inr w' →
  (∃ c, closures w' !! g = Some c ∧ isSubscribed c = true)
  ∧ ∀ k, k ∈ done ++ ks → emitted w' g k.
Proof.
  revert done w.
  induction ks as [|k ks IH]; intros done w HL Hkeys Hsync Hlive Hdone Hrun.
  - injection Hrun as <-. by rewrite app_nil_r.
  - cbn in Hrun. destruct (subscribeKey g k w) as [e|w1] eqn:Hk; [done|].
    destruct Hlive as (c & Hc & Hs).
    destruct (subscribeKey_keeps g o k w w1 HL) as (HL1 & _);
      [rewrite Hkeys; apply elem_of_app; right; by left|done|].
    destruct (subscribeKey_sync g o k w w1 c HL Hc Hs) as (Hlive1 & Hk1 & Hold);
      [apply Hsync; by left|apply Hsync; by left|done|].
    destruct (IH (done ++ [k]) w1 HL1) as [Hlive' Hall];
      [by rewrite <- app_assoc | intros k' Hk'; apply Hsync; by right | done
      | | done |].
    { intros k' Hk'. apply elem_of_app in Hk' as [Hk'|Hk'].
      - by apply Hold, Hdone.
      - by apply list_elem_of_singleton in Hk' as ->. }
    split; [done|]. intros k' Hk'. apply Hall. by rewrite <- app_assoc.
Qed.

Lemma effect_sync o w :
  Inv w → idle w → no_proto_key (Object_keys o) →
  (∀ k, k ∈ Object_keys o →
     emits_synchronously (prop o k) ∧ sm_during o k = []) →
  ∃ cl w' l m, effect o w = inr (cl, w')
    ∧ state w' = Ready l ∧ heap w' !! l = Some m
    ∧ dom m = list_to_set (Object_keys o).
Proof.
  intros HI Hidle Hown Hsync.
  destruct (effect o w) as [e|[cl w']] eqn:Heff.
  { destruct (effect_throws o w e HI Hidle Heff) as (k & Hk & He).
    destruct (emits_synchronously_accepted _ (proj1 (Hsync k Hk)))
      as [via Hvia].
    congruence. }
  exists cl, w'.
  destruct (effect_keeps o w cl w' HI Hidle Heff)
    as (HI' & _ & _ & _ & Hlen & _ & _ & (c & Hc & Ho)).
  revert Heff. rewrite effect_eq.
  destruct (length (Object_keys o) =? 0) eqn:Hempty.
  - apply Nat.eqb_eq, nil_length_inv in Hempty. intros [= _ <-].
    exists (nextLoc (begin o w)), ∅. split; [done|]. split; [done|].
    split; [cbn; by rewrite lookup_insert_eq|]. rewrite Hempty. set_solver.
  - apply Nat.eqb_neq in Hempty.
    destruct (forEach _ _ _) as [e|w1] eqn:Hloop; [done|]. intros [= _ <-].
    destruct (forEach_sync (length (closures w)) o [] (Object_keys o)
                (begin o w) w1) as [(c' & Hc' & Hs') Hall]; try done.
    { constructor.
      - by apply Inv_begin.
      - by apply complete_begin.
      - apply cancelled_begin.
      - eexists. split; [apply begin_lookup_new|done]. }
    { eexists. split; [apply begin_lookup_new|done]. }
    { intros k Hk. by apply elem_of_nil in Hk. }
    assert (c' = c) as -> by (unfold generations in Hc; congruence).
    destruct (inv_static _ HI' _ c Hc) as [Hkeys Hkc]. rewrite Ho in Hkeys.
    assert (Ha : active c).
    { split; [done|]. rewrite Hkeys. intros Hnil. by rewrite Hnil in Hempty. }
    rewrite <- Hkeys in Hown.
    destruct (inv_values _ HI' _ c Hc Ha) as (m & Hm & Hsub & _ & Hfree).
    destruct (Hfree Hown) as [Hcount Hem].
    assert (Hdom : dom m = list_to_set (Object_keys o)).
    { rewrite <- Hkeys. apply set_eq. intros k. split; [apply Hsub|].
      intros Hk. apply Hem, Hall. rewrite <- Hkeys.
      by apply elem_of_list_to_set in Hk. }
    pose proof (inv_progress _ HI' _ c Hc Ha Hown) as Hprog.
    destruct (decide (valueCount c = keyCount c)) as [_|Hne].
    + destruct Hprog as (l & Hst & Hl). exists l, m.
      split; [done|]. split; [done|]. split; [by rewrite Hl|done].
    + exfalso. apply Hne. rewrite Hcount, Hkc, Hkeys, <- size_dom, Hdom.
      apply size_list_to_set, NoDup_Object_keys.
Qed.

(** X20. When every source of the map delivers a value, and no error,
    while it is being subscribed to, nothing else happens meanwhile and no
    key is named [__proto__], an evaluation that runs the effect returns,
    and right after it the state is ready with one entry per key of the
    map: such sources cost one loading render and no more. *)
Theorem synchronous_sources_are_ready_after_the_effect
    (evs : list Event) (h : Host) (props : gmap string Value)
    (triggerProps : option (list string))
    (getObservables : gmap string Value → SourceMap) :
  let o := evaluatedObservables h props triggerProps getObservables in
  run initialHost evs = inr h →
  effectReruns h props triggerProps getObservables = true →
  no_proto_key (Object_keys o) →
  (∀ k, k ∈ Object_keys o →
     emits_synchronously (prop o k) ∧ sm_during o k = []) →
  ∃ s h' l m,
    useObservables props triggerProps getObservables h = inr (s, h')
    ∧ state (engine h') = Ready l
    ∧ heap (engine h') !! l = Some m
    ∧ dom m = list_to_set (Object_keys o).
Proof.
  intros o Hrun Hrerun Hown Hsync.
  pose proof (HInv_reachable evs h Hrun) as [HI Hcl Hncl _ _ _].
  rewrite useObservables_eq. cbn zeta. rewrite Hrerun.
  set (w := (reserve (reserve (engine h)).2).2).
  assert (HIw : Inv w) by (by apply Inv_reserve, Inv_reserve).
  destruct (runCleanup_keeps (cleanup h) w HIw Hcl Hncl)
    as (HI1 & Hidle1 & _).
  destruct (effect_sync o (runCleanup (cleanup h) w) HI1 Hidle1 Hown Hsync)
    as (cl & w' & l & m & Heff & Hst & Hl & Hdom).
  fold o. rewrite Heff. by eexists _, _, l, m.
Qed.

Lemma synchronous_sources_are_ready_after_the_effect_witness :
  ∃ s h' l m,
    useObservables ∅ None (λ _, synchronous_map) initialHost = inr (s, h')
    ∧ state (engine h') = Ready l
    ∧ heap (engine h') !! l = Some m
    ∧ dom m = list_to_set (Object_keys synchronous_map).
Proof.
  apply (synchronous_sources_are_ready_after_the_effect [] initialHost ∅ None
           (λ _, synchronous_map)).
  - reflexivity.
  - reflexivity.
  - apply (bool_decide_unpack _). vm_compute. exact I.
  - intros k Hk. split; [|reflexivity].
    apply list_elem_of_In in Hk. cbn in Hk.
    destruct Hk as [<-|[<-|[]]]; (split; [eexists; by left|]);
      intros e He; apply list_elem_of_In in He; cbn in He;
      by destruct He as [[=]|[]].
Defined.
